(** * routedns: the graph assembler of cmd/routedns/main.go

    A shallow embedding of [start], [instantiateGroup], [instantiateRouter],
    [newBlocklistDB] and [newIPBlocklistDB], and the properties of the
    dependency-ordered assembly of the resolver graph.

    Go maps are finite maps ([gmap]); ranging over a map goes through an
    iteration-order oracle, because Go leaves that order unspecified.
    Fallible calls return an [outcome]; the calls [start] makes to its
    effectful collaborators are recorded, in program order, in a trace. *)

From Stdlib Require Import ZArith String List.
From stdpp Require Import base decidable option list gmap strings fin_maps pretty.

Set Warnings "-register-all".

Open Scope string_scope.

(** ** Machine integers and durations *)

(** A Go [int64] holds the representative of its value in [-2^63, 2^63). *)
Definition wrap_int64 (x : Z) : Z := ((x + 2 ^ 63) mod 2 ^ 64 - 2 ^ 63)%Z.

(** [time.Second] and [time.Minute], in nanoseconds ([time.Duration] is int64). *)
Definition time_Second : Z := 1000000000%Z.
Definition time_Minute : Z := (60 * time_Second)%Z.

(** [time.Duration(n) * time.Second] *)
Definition seconds (n : Z) : Z := wrap_int64 (wrap_int64 n * time_Second)%Z.

(** ** Errors and outcomes *)

(** One constructor per error site of main.go; [ErrLib] is an error handed
    back unchanged from the library or from a helper outside main.go. *)
Inductive error : Type :=
| ErrLib (msg : string)
| ErrInvalidLogLevel (level : Z)
| ErrBootstrap (e : error)
| ErrDuplicateResolver (id : string)
| ErrResolverInst (id : string) (e : error)
| ErrDuplicateName (id : string)
| ErrUnableToResolve
| ErrListenerRef (id ref : string)
| ErrListenerProxy (id net : string) (e : error)
| ErrUnsupportedProtocol (proto id : string)
| ErrGroupRef (id rid : string)
| ErrOneResolver (kind id : string)
| ErrStaticSource (what opt id : string)
| ErrIn (id : string) (e : error)
| ErrECSOp (op : string)
| ErrEDNS0Op (op : string)
| ErrUnsupportedGroupType (ty id : string)
| ErrRouterRef (id ref : string)
| ErrRouteParse (id : string) (e : error)
| ErrUnsupportedScheme (scheme source : string)
| ErrUnsupportedFormat (format : string).

(** The verb [%q], for ids made of printable characters other than the double
    quote and the backslash (which it would escape). *)
Definition go_quote (s : string) : string :=
  let dq := String (Ascii.ascii_of_nat 34) EmptyString in dq ++ s ++ dq.

(** The text of each error, as the format strings of main.go produce it. *)
Fixpoint error_message (e : error) : string :=
  match e with
  | ErrLib msg => msg
  | ErrInvalidLogLevel n => "invalid log level: " ++ pretty n
  | ErrBootstrap e => "failed to instantiate bootstrap-resolver: " ++ error_message e
  | ErrDuplicateResolver id => "group resolver with duplicate id '" ++ id ++ "'"
  | ErrResolverInst id e =>
      "failed to instantiate resolver " ++ go_quote id ++ " : " ++ error_message e
  | ErrDuplicateName id => "duplicate name: " ++ id
  | ErrUnableToResolve => "unable to resolve dependencies"
  | ErrListenerRef id ref =>
      "listener '" ++ id ++ "' references non-existant resolver, group or router '"
        ++ ref ++ "'"
  | ErrListenerProxy id net e =>
      "listener '" ++ id ++ "' trusted-proxy '" ++ net ++ "': " ++ error_message e
  | ErrUnsupportedProtocol proto id =>
      "unsupported protocol '" ++ proto ++ "' for listener '" ++ id ++ "'"
  | ErrGroupRef id rid =>
      "group '" ++ id ++ "' references non-existant resolver or group '" ++ rid ++ "'"
  | ErrOneResolver kind id =>
      "type " ++ kind ++ " only supports one resolver in '" ++ id ++ "'"
  | ErrStaticSource what opt id =>
      "static " ++ what ++ " can't be used with '" ++ opt ++ "' in '" ++ id ++ "'"
  | ErrIn id e => id ++ ": " ++ error_message e
  | ErrECSOp op => "unsupported ecs-modifier operation '" ++ op ++ "'"
  | ErrEDNS0Op op => "unsupported edns0-modifier operation '" ++ op ++ "'"
  | ErrUnsupportedGroupType ty id =>
      "unsupported group type '" ++ ty ++ "' for group '" ++ id ++ "'"
  | ErrRouterRef id ref =>
      "router '" ++ id ++ "' references non-existant resolver or group '" ++ ref ++ "'"
  | ErrRouteParse id e =>
      "failure parsing routes for router '" ++ id ++ "' : " ++ error_message e
  | ErrUnsupportedScheme scheme source =>
      "unsupported scheme '" ++ scheme ++ "' in '" ++ source ++ "'"
  | ErrUnsupportedFormat format => "unsupported format '" ++ format ++ "'"
  end.

(** What a call does: it returns a value, returns an error, or the Go runtime
    panics (an index out of range). [OutOfFuel] belongs to the model only:
    the [for len(deps) > 0] loop is run on a budget of passes, and
    [dependency_loop_terminates] shows that the budget [start] gives it is
    never exhausted. *)
Inductive outcome (A : Type) : Type :=
| Ok (a : A)
| Err (e : error)
| Panic
| OutOfFuel.
Arguments Ok {A} a.
Arguments Err {A} e.
Arguments Panic {A}.
Arguments OutOfFuel {A}.

Definition obind {A B} (x : outcome A) (f : A -> outcome B) : outcome B :=
  match x with
  | Ok a => f a
  | Err e => Err e
  | Panic => Panic
  | OutOfFuel => OutOfFuel
  end.

Definition is_Ok {A} (x : outcome A) : Prop := exists a, x = Ok a.

(** How a call fails, if it does. *)
Inductive failure : Type :=
| Failed (e : error)
| Panicked
| Exhausted.

Definition failure_of {A} (x : outcome A) : option failure :=
  match x with
  | Ok _ => None
  | Err e => Some (Failed e)
  | Panic => Some Panicked
  | OutOfFuel => Some Exhausted
  end.

#[global] Instance outcome_ret : MRet outcome := @Ok.
#[global] Instance outcome_bind : MBind outcome := fun A B f x => obind x f.

(** [s[0]]: panics on an empty slice. *)
Definition index0 {A} (s : list A) : outcome A :=
  match s with
  | [] => Panic
  | a :: _ => Ok a
  end.

(** [append(s, x)] *)
Definition append {A} (s : list A) (x : A) : list A := (s ++ [x])%list.

(** [len(s) > 0] *)
Definition nonempty {A} (s : list A) : bool := (0 <? length s)%nat.

(** ** Configuration

    The structs [options], [config], [resolver], [group], [list], [router],
    [route] and [listener]. Their declarations live in config.go, outside
    main.go; the records below carry the fields main.go reads, each under the
    name main.go uses ([g.Type] is [g_Type], [l.Resolver] is [l_Resolver]). *)

Record options : Type := { logLevel : Z (* uint32 *) }.

(** Only [Address] is read by main.go; the rest of an upstream resolver's
    definition is passed on to [resolverFromConfig] in one piece. *)
Record resolver : Type := {
  r_Address : string;
  r_Protocol : string;
}.

(** A blocklist source ([list] in config.go). *)
Record list_source : Type := {
  ls_Format : string;
  ls_Source : string;
  ls_CacheDir : string;
}.

Record group : Type := {
  g_Type : string;
  g_Resolvers : list string;
  g_BlockListResolver : string;
  g_AllowListResolver : string;
  g_LimitResolver : string;
  g_Blocklist : list string;
  g_Source : string;
  g_Format : string;
  g_Refresh : Z;
  g_BlocklistSource : list list_source;
  g_BlocklistFormat : string;
  g_BlocklistRefresh : Z;
  g_Allowlist : list string;
  g_AllowlistSource : list list_source;
  g_AllowlistRefresh : Z;
  g_LocationDB : string;
  g_Filter : bool;
  g_Replace : list (string * string);
  g_TTLMin : Z;
  g_TTLMax : Z;
  g_ECSOp : string;
  g_ECSAddress : list Byte.byte;
  g_ECSPrefix4 : Z;
  g_ECSPrefix6 : Z;
  g_EDNS0Op : string;
  g_EDNS0Code : Z;
  g_EDNS0Data : list Byte.byte;
  g_GCPeriod : Z;
  g_CacheSize : Z;
  g_CacheNegativeTTL : Z;
  g_Answer : list string;
  g_NS : list string;
  g_Extra : list string;
  g_RCode : Z;
  g_NullRCode : Z;
  g_Requests : Z;
  g_Window : Z;
  g_Prefix4 : Z;
  g_Prefix6 : Z;
}.

Record route : Type := {
  rt_Type : string;
  rt_Types : list string;
  rt_Class : string;
  rt_Name : string;
  rt_Source : string;
  rt_Invert : bool;
  rt_Resolver : string;
}.

Record router : Type := { rr_Routes : list route }.

Record listener : Type := {
  l_Address : string;
  l_Protocol : string;
  l_Transport : string;
  l_Resolver : string;
  l_CA : string;
  l_ServerKey : string;
  l_ServerCrt : string;
  l_MutualTLS : bool;
  l_AllowedNet : list string;
  l_HTTPProxyNet : string; (* l.Frontend.HTTPProxyNet *)
}.

Record config : Type := {
  BootstrapResolver : resolver;
  Listeners : gmap string listener;
  Resolvers : gmap string resolver;
  Groups : gmap string group;
  Routers : gmap string router;
}.

(** ** Values of the library

    What the constructors of package rdns return is kept as the record of the
    call: the constructor and the arguments main.go hands to it. *)

Inductive BlocklistLoader : Type :=
| StaticLoader (rules : list string)
| HTTPLoader (source cacheDir : string)
| FileLoader (source : string).

Inductive BlocklistDB : Type :=
| RegexpDB (loader : BlocklistLoader)
| DomainDB (loader : BlocklistLoader)
| HostsDB (loader : BlocklistLoader)
| MultiDB (dbs : list BlocklistDB).

Inductive IPBlocklistDB : Type :=
| CidrDB (loader : BlocklistLoader)
| GeoIPDB (loader : BlocklistLoader) (locationDB : string)
| MultiIPDB (dbs : list IPBlocklistDB).

Inductive ECSModifierFunc : Type :=
| ECSModifierAdd (addr : list Byte.byte) (prefix4 prefix6 : Z)
| ECSModifierDelete
| ECSModifierPrivacy (prefix4 prefix6 : Z).

Inductive EDNS0ModifierFunc : Type :=
| EDNS0ModifierAdd (code : Z) (data : list Byte.byte)
| EDNS0ModifierDelete (code : Z).

Record FailBackOptions : Type := { fb_ResetAfter : Z }.
Record RandomOptions : Type := { rnd_ResetAfter : Z }.

(** Option structs that hold resolvers are parameterised by the resolver type;
    a field left unset, or read from the map under a missing key, is [None]
    (Go's nil). *)
Record BlocklistOptions (R : Type) : Type := {
  bl_BlocklistResolver : option R;
  bl_BlocklistDB : BlocklistDB;
  bl_BlocklistRefresh : Z;
  bl_AllowListResolver : option R;
  bl_AllowlistDB : option BlocklistDB;
  bl_AllowlistRefresh : Z;
}.
Arguments Build_BlocklistOptions {R}.

Record ResponseBlocklistIPOptions (R : Type) : Type := {
  rbi_BlocklistResolver : option R;
  rbi_BlocklistDB : IPBlocklistDB;
  rbi_BlocklistRefresh : Z;
  rbi_Filter : bool;
}.
Arguments Build_ResponseBlocklistIPOptions {R}.

Record ResponseBlocklistNameOptions (R : Type) : Type := {
  rbn_BlocklistResolver : option R;
  rbn_BlocklistDB : BlocklistDB;
  rbn_BlocklistRefresh : Z;
}.
Arguments Build_ResponseBlocklistNameOptions {R}.

Record ClientBlocklistOptions (R : Type) : Type := {
  cb_BlocklistResolver : option R;
  cb_BlocklistDB : IPBlocklistDB;
  cb_BlocklistRefresh : Z;
}.
Arguments Build_ClientBlocklistOptions {R}.

Record RateLimiterOptions (R : Type) : Type := {
  rl_Requests : Z;
  rl_Window : Z;
  rl_Prefix4 : Z;
  rl_Prefix6 : Z;
  rl_LimitResolver : option R;
}.
Arguments Build_RateLimiterOptions {R}.

Record TTLModifierOptions : Type := { MinTTL : Z; MaxTTL : Z }.

Record CacheOptions : Type := {
  c_GCPeriod : Z;
  c_Capacity : Z;
  c_NegativeTTL : Z;
}.

Record StaticResolverOptions : Type := {
  sr_Answer : list string;
  sr_NS : list string;
  sr_Extra : list string;
  sr_RCode : Z;
}.

Record ResponseCollapsOptions : Type := { NullRCode : Z }.

(** A compiled route: the arguments of [rdns.NewRoute] and the flag set by
    [Invert]. *)
Record Route (R : Type) : Type := {
  route_name : string;
  route_class : string;
  route_types : list string;
  route_source : string;
  route_resolver : R;
  route_inverted : bool;
}.
Arguments Build_Route {R}.
Arguments route_name {R}.
Arguments route_class {R}.
Arguments route_types {R}.
Arguments route_source {R}.
Arguments route_resolver {R}.
Arguments route_inverted {R}.

Inductive Resolver : Type :=
| Upstream (id : string) (r : resolver)
| RoundRobin (id : string) (gr : list Resolver)
| FailRotate (id : string) (gr : list Resolver)
| FailBack (id : string) (opt : FailBackOptions) (gr : list Resolver)
| Random (id : string) (opt : RandomOptions) (gr : list Resolver)
| Blocklist (id : string) (child : Resolver) (opt : BlocklistOptions Resolver)
| Replace (id : string) (child : Resolver) (ops : list (string * string))
| TTLModifier (id : string) (child : Resolver) (opt : TTLModifierOptions)
| ECSModifier (id : string) (child : Resolver) (f : option ECSModifierFunc)
| EDNS0Modifier (id : string) (child : Resolver) (f : option EDNS0ModifierFunc)
| Cache (id : string) (child : Resolver) (opt : CacheOptions)
| ResponseBlocklistIP (id : string) (child : Resolver)
    (opt : ResponseBlocklistIPOptions Resolver)
| ResponseBlocklistName (id : string) (child : Resolver)
    (opt : ResponseBlocklistNameOptions Resolver)
| ClientBlocklist (id : string) (child : Resolver)
    (opt : ClientBlocklistOptions Resolver)
| StaticResolver (id : string) (opt : StaticResolverOptions)
| ResponseMinimize (id : string) (child : Resolver)
| ResponseCollapse (id : string) (child : Resolver) (opt : ResponseCollapsOptions)
| DropResolver (id : string)
| RateLimiter (id : string) (child : Resolver) (opt : RateLimiterOptions Resolver)
| Router (id : string) (routes : list (Route Resolver)).

(** Listeners, again as the record of the constructor call. The resolver a
    listener is given is the result of the map lookup [resolvers[l.Resolver]],
    which is nil ([None]) under a missing key. *)
Record TLSConfig : Type := {
  tls_CA : string;
  tls_Crt : string;
  tls_Key : string;
  tls_Mutual : bool;
}.

Record ListenOptions : Type := { AllowedNet : list string }.

Record AdminListenerOptions : Type := {
  adm_TLSConfig : TLSConfig;
  adm_ListenOptions : ListenOptions;
  adm_Transport : string;
}.

Record DoHListenerOptions : Type := {
  doh_TLSConfig : TLSConfig;
  doh_ListenOptions : ListenOptions;
  doh_Transport : string;
  doh_HTTPProxyNet : option string;
}.

Inductive Listener : Type :=
| DNSListener (id addr net : string) (opt : ListenOptions) (r : option Resolver)
| AdminListener (id addr : string) (opt : AdminListenerOptions)
| DoTListener (id addr : string) (tls : TLSConfig) (opt : ListenOptions)
    (r : option Resolver)
| DTLSListener (id addr : string) (dtls : TLSConfig) (opt : ListenOptions)
    (r : option Resolver)
| DoHListener (id addr : string) (opt : DoHListenerOptions) (r : option Resolver)
| QUICListener (id addr : string) (tls : TLSConfig) (opt : ListenOptions)
    (r : option Resolver).

Record URL : Type := { Scheme : string }.

(** ** The environment

    Everything [start] calls that is not in main.go: the helpers of the
    command ([loadConfig], [resolverFromConfig], [parseCIDRList]), package
    rdns, and the Go standard library. A constructor that may fail comes as
    an oracle [X_fails] telling with which message the call fails, if it
    does; its value is the record of the call. *)
Class Library : Type := {
  loadConfig : list string -> string + config;
  resolverFromConfig_fails : string -> resolver -> option string;
  url_Parse : string -> string + URL;
  NewRegexpDB_fails : BlocklistLoader -> option string;
  NewDomainDB_fails : BlocklistLoader -> option string;
  NewHostsDB_fails : BlocklistLoader -> option string;
  NewCidrDB_fails : BlocklistLoader -> option string;
  NewGeoIPDB_fails : BlocklistLoader -> string -> option string;
  NewMultiDB_fails : list BlocklistDB -> option string;
  NewMultiIPDB_fails : list IPBlocklistDB -> option string;
  NewBlocklist_fails :
    string -> Resolver -> BlocklistOptions Resolver -> option string;
  NewReplace_fails : string -> Resolver -> list (string * string) -> option string;
  NewECSModifier_fails :
    string -> Resolver -> option ECSModifierFunc -> option string;
  NewEDNS0Modifier_fails :
    string -> Resolver -> option EDNS0ModifierFunc -> option string;
  NewResponseBlocklistIP_fails :
    string -> Resolver -> ResponseBlocklistIPOptions Resolver -> option string;
  NewResponseBlocklistName_fails :
    string -> Resolver -> ResponseBlocklistNameOptions Resolver -> option string;
  NewClientBlocklist_fails :
    string -> Resolver -> ClientBlocklistOptions Resolver -> option string;
  NewStaticResolver_fails : string -> StaticResolverOptions -> option string;
  NewRoute_fails : string -> string -> list string -> string -> option string;
  parseCIDRList_fails : list string -> option string;
  net_ParseCIDR_fails : string -> option string;
  TLSServerConfig_fails : string -> string -> string -> bool -> option string;
  DTLSServerConfig_fails : string -> string -> string -> bool -> option string;
  NewAdminListener_fails : string -> string -> AdminListenerOptions -> option string;
  NewDoHListener_fails :
    string -> string -> DoHListenerOptions -> option Resolver -> option string;
}.

(** [v, err := X(...)]: the value [v] unless the call fails. *)
Definition call {A} (fails : option string) (v : A) : outcome A :=
  match fails with
  | Some msg => Err (ErrLib msg)
  | None => Ok v
  end.

Definition of_sum {A} (x : string + A) : outcome A :=
  match x with
  | inl msg => Err (ErrLib msg)
  | inr a => Ok a
  end.

(** [if err != nil { return wrap(err) }] *)
Definition wrap_err {A} (wrap : error -> error) (x : outcome A) : outcome A :=
  match x with
  | Err e => Err (wrap e)
  | _ => x
  end.

(** [for _, x := range l { s, err = f(s, x); if err != nil { return err } }] *)
Fixpoint for_each {M : Type -> Type} `{MBind M, MRet M} {A S : Type}
    (f : S -> A -> M S) (l : list A) (s : S) : M S :=
  match l with
  | [] => mret s
  | x :: l' => s' ← f s x; for_each f l' s'
  end.

(** ** Blocklist databases *)

Section assembler.
Context `{Library}.

Definition loader_for (l : list_source) (rules : list string) : outcome BlocklistLoader :=
  loc ← of_sum (url_Parse (ls_Source l));
  if nonempty rules then Ok (StaticLoader rules)
  else if (Scheme loc =? "http") || (Scheme loc =? "https")
  then Ok (HTTPLoader (ls_Source l) (ls_CacheDir l))
  else if Scheme loc =? EmptyString then Ok (FileLoader (ls_Source l))
  else Err (ErrUnsupportedScheme (Scheme loc) (ls_Source l)).

Definition newBlocklistDB (l : list_source) (rules : list string) : outcome BlocklistDB :=
  loader ← loader_for l rules;
  if (ls_Format l =? "regexp") || (ls_Format l =? EmptyString)
  then call (NewRegexpDB_fails loader) (RegexpDB loader)
  else if ls_Format l =? "domain" then call (NewDomainDB_fails loader) (DomainDB loader)
  else if ls_Format l =? "hosts" then call (NewHostsDB_fails loader) (HostsDB loader)
  else Err (ErrUnsupportedFormat (ls_Format l)).

Definition newIPBlocklistDB (l : list_source) (locationDB : string)
    (rules : list string) : outcome IPBlocklistDB :=
  loader ← loader_for l rules;
  if (ls_Format l =? "cidr") || (ls_Format l =? EmptyString)
  then call (NewCidrDB_fails loader) (CidrDB loader)
  else if ls_Format l =? "location"
  then call (NewGeoIPDB_fails loader locationDB) (GeoIPDB loader locationDB)
  else Err (ErrUnsupportedFormat (ls_Format l)).

(** [list{Format: format}] *)
Definition list_of_format (format : string) : list_source :=
  {| ls_Format := format; ls_Source := EmptyString; ls_CacheDir := EmptyString |}.

(** The block that instantiateGroup repeats for every name database: the
    static rules when there are some, else one database per source, merged. *)
Definition name_db (id format : string) (rules : list string)
    (sources : list list_source) : outcome BlocklistDB :=
  if nonempty rules then newBlocklistDB (list_of_format format) rules
  else
    dbs ← for_each (fun dbs s =>
             db ← wrap_err (ErrIn id) (newBlocklistDB s []); Ok (append dbs db))
           sources [];
    call (NewMultiDB_fails dbs) (MultiDB dbs).

(** The same block for an IP database. *)
Definition ip_db (id format locationDB : string) (rules : list string)
    (sources : list list_source) : outcome IPBlocklistDB :=
  if nonempty rules then newIPBlocklistDB (list_of_format format) locationDB rules
  else
    dbs ← for_each (fun dbs s =>
             db ← wrap_err (ErrIn id) (newIPBlocklistDB s locationDB []);
             Ok (append dbs db))
           sources [];
    call (NewMultiIPDB_fails dbs) (MultiIPDB dbs).

(** ** instantiateGroup *)

(** The first loop of instantiateGroup: the resolvers of [g.Resolvers], in
    order; the first id missing from the map is an error. *)
Definition group_resolvers (id : string) (rids : list string)
    (resolvers : gmap string Resolver) : outcome (list Resolver) :=
  for_each (fun gr rid =>
      match resolvers !! rid with
      | Some r => Ok (append gr r)
      | None => Err (ErrGroupRef id rid)
      end) rids [].

(** [if len(gr) != 1 { return fmt.Errorf("type <kind> only supports ...") }] *)
Definition one_resolver (kind id : string) (gr : list Resolver) : outcome unit :=
  if negb (length gr =? 1)%nat then Err (ErrOneResolver kind id) else Ok ().

Definition ecs_func (g : group) : outcome (option ECSModifierFunc) :=
  if g_ECSOp g =? "add"
  then Ok (Some (ECSModifierAdd (g_ECSAddress g) (g_ECSPrefix4 g) (g_ECSPrefix6 g)))
  else if g_ECSOp g =? "delete" then Ok (Some ECSModifierDelete)
  else if g_ECSOp g =? "privacy"
  then Ok (Some (ECSModifierPrivacy (g_ECSPrefix4 g) (g_ECSPrefix6 g)))
  else if g_ECSOp g =? EmptyString then Ok None
  else Err (ErrECSOp (g_ECSOp g)).

Definition edns0_func (g : group) : outcome (option EDNS0ModifierFunc) :=
  if g_EDNS0Op g =? "add"
  then Ok (Some (EDNS0ModifierAdd (g_EDNS0Code g) (g_EDNS0Data g)))
  else if g_EDNS0Op g =? "delete" then Ok (Some (EDNS0ModifierDelete (g_EDNS0Code g)))
  else if g_EDNS0Op g =? EmptyString then Ok None
  else Err (ErrEDNS0Op (g_EDNS0Op g)).

(** The [switch g.Type]: the resolver to store under [id]. *)
Definition group_resolver (id : string) (g : group) (gr : list Resolver)
    (resolvers : gmap string Resolver) : outcome Resolver :=
  let ty := g_Type g in
  if ty =? "round-robin" then Ok (RoundRobin id gr)
  else if ty =? "fail-rotate" then Ok (FailRotate id gr)
  else if ty =? "fail-back"
  then Ok (FailBack id {| fb_ResetAfter := time_Minute |} gr)
  else if ty =? "random"
  then Ok (Random id {| rnd_ResetAfter := time_Minute |} gr)
  else if ty =? "blocklist" then
    _ ← one_resolver "blocklist" id gr;
    if nonempty (g_Blocklist g) && negb (g_Source g =? EmptyString)
    then Err (ErrStaticSource "blocklist" "source" id)
    else
      blocklistDB ← newBlocklistDB
        {| ls_Format := g_Format g; ls_Source := g_Source g;
           ls_CacheDir := EmptyString |} (g_Blocklist g);
      let opt := {| bl_BlocklistResolver := None;
                    bl_BlocklistDB := blocklistDB;
                    bl_BlocklistRefresh := seconds (g_Refresh g);
                    bl_AllowListResolver := None;
                    bl_AllowlistDB := None;
                    bl_AllowlistRefresh := 0%Z |} in
      child ← index0 gr;
      call (NewBlocklist_fails id child opt) (Blocklist id child opt)
  else if ty =? "blocklist-v2" then
    _ ← one_resolver "blocklist-v2" id gr;
    if nonempty (g_Blocklist g) && nonempty (g_BlocklistSource g)
    then Err (ErrStaticSource "blocklist" "source" id)
    else if nonempty (g_Allowlist g) && nonempty (g_AllowlistSource g)
    then Err (ErrStaticSource "allowlist" "source" id)
    else
      blocklistDB ← name_db id (g_BlocklistFormat g) (g_Blocklist g)
                      (g_BlocklistSource g);
      allowlistDB ← name_db id (g_BlocklistFormat g) (g_Allowlist g)
                      (g_AllowlistSource g);
      let opt := {| bl_BlocklistResolver := resolvers !! g_BlockListResolver g;
                    bl_BlocklistDB := blocklistDB;
                    bl_BlocklistRefresh := seconds (g_BlocklistRefresh g);
                    bl_AllowListResolver := resolvers !! g_AllowListResolver g;
                    bl_AllowlistDB := Some allowlistDB;
                    bl_AllowlistRefresh := seconds (g_AllowlistRefresh g) |} in
      child ← index0 gr;
      call (NewBlocklist_fails id child opt) (Blocklist id child opt)
  else if ty =? "replace" then
    _ ← one_resolver "replace" id gr;
    child ← index0 gr;
    call (NewReplace_fails id child (g_Replace g)) (Replace id child (g_Replace g))
  else if ty =? "ttl-modifier" then
    _ ← one_resolver "ttl-modifier" id gr;
    child ← index0 gr;
    Ok (TTLModifier id child {| MinTTL := g_TTLMin g; MaxTTL := g_TTLMax g |})
  else if ty =? "ecs-modifier" then
    _ ← one_resolver "ecs-modifier" id gr;
    f ← ecs_func g;
    child ← index0 gr;
    call (NewECSModifier_fails id child f) (ECSModifier id child f)
  else if ty =? "edns0-modifier" then
    _ ← one_resolver "edns0-modifier" id gr;
    f ← edns0_func g;
    child ← index0 gr;
    call (NewEDNS0Modifier_fails id child f) (EDNS0Modifier id child f)
  else if ty =? "cache" then
    let opt := {| c_GCPeriod := seconds (g_GCPeriod g);
                  c_Capacity := g_CacheSize g;
                  c_NegativeTTL := g_CacheNegativeTTL g |} in
    child ← index0 gr;
    Ok (Cache id child opt)
  else if (ty =? "response-blocklist-ip") || (ty =? "response-blocklist-cidr") then
    _ ← one_resolver "response-blocklist-ip" id gr;
    if nonempty (g_Blocklist g) && nonempty (g_BlocklistSource g)
    then Err (ErrStaticSource "blocklist" "blocklist-source" id)
    else
      blocklistDB ← ip_db id (g_BlocklistFormat g) (g_LocationDB g) (g_Blocklist g)
                      (g_BlocklistSource g);
      let opt := {| rbi_BlocklistResolver := resolvers !! g_BlockListResolver g;
                    rbi_BlocklistDB := blocklistDB;
                    rbi_BlocklistRefresh := seconds (g_BlocklistRefresh g);
                    rbi_Filter := g_Filter g |} in
      child ← index0 gr;
      call (NewResponseBlocklistIP_fails id child opt) (ResponseBlocklistIP id child opt)
  else if ty =? "response-blocklist-name" then
    _ ← one_resolver "response-blocklist-name" id gr;
    if nonempty (g_Blocklist g) && nonempty (g_BlocklistSource g)
    then Err (ErrStaticSource "blocklist" "blocklist-source" id)
    else
      blocklistDB ← name_db id (g_BlocklistFormat g) (g_Blocklist g)
                      (g_BlocklistSource g);
      let opt := {| rbn_BlocklistResolver := resolvers !! g_BlockListResolver g;
                    rbn_BlocklistDB := blocklistDB;
                    rbn_BlocklistRefresh := seconds (g_BlocklistRefresh g) |} in
      child ← index0 gr;
      call (NewResponseBlocklistName_fails id child opt)
           (ResponseBlocklistName id child opt)
  else if ty =? "client-blocklist" then
    _ ← one_resolver "client-blocklist" id gr;
    if nonempty (g_Blocklist g) && nonempty (g_BlocklistSource g)
    then Err (ErrStaticSource "blocklist" "blocklist-source" id)
    else
      blocklistDB ← ip_db id (g_BlocklistFormat g) (g_LocationDB g) (g_Blocklist g)
                      (g_BlocklistSource g);
      let opt := {| cb_BlocklistResolver := resolvers !! g_BlockListResolver g;
                    cb_BlocklistDB := blocklistDB;
                    cb_BlocklistRefresh := seconds (g_BlocklistRefresh g) |} in
      child ← index0 gr;
      call (NewClientBlocklist_fails id child opt) (ClientBlocklist id child opt)
  else if ty =? "static-responder" then
    let opt := {| sr_Answer := g_Answer g; sr_NS := g_NS g;
                  sr_Extra := g_Extra g; sr_RCode := g_RCode g |} in
    call (NewStaticResolver_fails id opt) (StaticResolver id opt)
  else if ty =? "response-minimize" then
    _ ← one_resolver "response-minimize" id gr;
    child ← index0 gr;
    Ok (ResponseMinimize id child)
  else if ty =? "response-collapse" then
    _ ← one_resolver "response-collapse" id gr;
    child ← index0 gr;
    Ok (ResponseCollapse id child {| NullRCode := g_NullRCode g |})
  else if ty =? "drop" then Ok (DropResolver id)
  else if ty =? "rate-limiter" then
    _ ← one_resolver "rate-limiter" id gr;
    let opt := {| rl_Requests := g_Requests g; rl_Window := g_Window g;
                  rl_Prefix4 := g_Prefix4 g; rl_Prefix6 := g_Prefix6 g;
                  rl_LimitResolver := resolvers !! g_LimitResolver g |} in
    child ← index0 gr;
    Ok (RateLimiter id child opt)
  else Err (ErrUnsupportedGroupType ty id).

(** The type names under which instantiateGroup checks [len(gr) != 1]. *)
Definition arity_checked : list string :=
  ["blocklist"; "blocklist-v2"; "replace"; "ttl-modifier"; "ecs-modifier";
   "edns0-modifier"; "response-blocklist-ip"; "response-blocklist-cidr";
   "response-blocklist-name"; "client-blocklist"; "response-minimize";
   "response-collapse"; "rate-limiter"].

(** Instantiate a group object based on configuration and add it to the map
    of resolvers by id. *)
Definition instantiateGroup (id : string) (g : group)
    (resolvers : gmap string Resolver) : outcome (gmap string Resolver) :=
  gr ← group_resolvers id (g_Resolvers g) resolvers;
  r ← group_resolver id g gr resolvers;
  Ok (<[id := r]> resolvers).

(** ** instantiateRouter *)

(** Modelled from the spec: [rdns.NewRoute], [Invert] and the type test of a
    route, which are in package rdns, outside main.go. Route compilation
    validates its fields (left to [NewRoute_fails]) and deduplicates the type
    set; an empty type set matches every query type, a non-empty one the
    types it holds. *)
Definition NewRoute (name class : string) (types : list string) (source : string)
    (resolver : Resolver) : outcome (Route Resolver) :=
  call (NewRoute_fails name class types source)
    {| route_name := name; route_class := class;
       route_types := remove_dups types; route_source := source;
       route_resolver := resolver; route_inverted := false |}.

Definition Invert {R} (invert : bool) (r : Route R) : Route R :=
  {| route_name := route_name r; route_class := route_class r;
     route_types := route_types r; route_source := route_source r;
     route_resolver := route_resolver r; route_inverted := invert |}.

Definition route_matches_type {R} (r : Route R) (qtype : string) : bool :=
  match route_types r with
  | [] => true
  | ts => bool_decide (qtype ∈ ts)
  end.

(** The [types] argument instantiateRouter hands to [rdns.NewRoute]: the
    deprecated [Type] is added to [Types] if defined. *)
Definition route_type_list (route : route) : list string :=
  if negb (rt_Type route =? EmptyString)
  then append (rt_Types route) (rt_Type route)
  else rt_Types route.

(** The body of the loop of instantiateRouter: what it makes of one route of the configuration. *)
Definition compile_route (id : string) (rs : gmap string Resolver) (route : route)
    : outcome (Route Resolver) :=
  match rs !! rt_Resolver route with
  | None => Err (ErrRouterRef id (rt_Resolver route))
  | Some resolver =>
      r ← wrap_err (ErrRouteParse id)
            (NewRoute (rt_Name route) (rt_Class route) (route_type_list route)
               (rt_Source route) resolver);
      Ok (Invert (rt_Invert route) r)
  end.

(** Instantiate a router object based on configuration and add it to the map
    of resolvers by id. *)
Definition instantiateRouter (id : string) (r : router)
    (resolvers : gmap string Resolver) : outcome (gmap string Resolver) :=
  routes ← for_each (fun routes route =>
      match resolvers !! rt_Resolver route with
      | None => Err (ErrRouterRef id (rt_Resolver route))
      | Some resolver =>
          r ← wrap_err (ErrRouteParse id)
                (NewRoute (rt_Name route) (rt_Class route) (route_type_list route)
                   (rt_Source route) resolver);
          Ok (append routes (Invert (rt_Invert route) r))
      end) (rr_Routes r) [];
  Ok (<[id := Router id routes]> resolvers).

End assembler.

(** ** Ranging over a map

    [for k, v := range m] visits the entries of [m] in an order Go leaves
    unspecified and that may differ from one loop to the next. The order is
    an oracle: it may depend on the loop (and, for the dependency loop, on
    the pass), and it returns the entries it is given, permuted. *)
Inductive loop_site : Type :=
| RangeResolvers
| RangeGroups
| RangeRouters
| RangeDeps (pass : nat)
| RangeListeners.

Class MapOrder : Type := {
  range_order : loop_site -> forall A : Type, list (string * A) -> list (string * A);
  range_order_perm : forall site A (l : list (string * A)), range_order site A l ≡ₚ l;
}.

Definition range `{MapOrder} {A} (site : loop_site) (m : gmap string A)
    : list (string * A) :=
  range_order site A (map_to_list m).

(** ** The trace of start

    The calls [start] makes, in program order. [EvPass] is a marker: pass
    [n] of the dependency loop begins. *)
Inductive event : Type :=
| EvSetLevel (level : Z)
| EvLoadConfig (args : list string)
| EvResolverFromConfig (id : string) (r : resolver)
| EvSetDefaultResolver (bootstrap : Resolver)
| EvPass (n : nat)
| EvInstantiateGroup (id : string) (g : group) (resolvers : gmap string Resolver)
| EvInstantiateRouter (id : string) (r : router) (resolvers : gmap string Resolver)
| EvNewListener (l : Listener)
| EvGo (l : Listener).

Record traced (A : Type) : Type := Traced {
  trace : list event;
  result : outcome A;
}.
Arguments Traced {A}.
Arguments trace {A}.
Arguments result {A}.

Definition tbind {A B} (x : traced A) (f : A -> traced B) : traced B :=
  match result x with
  | Ok a => Traced (trace x ++ trace (f a))%list (result (f a))
  | Err e => Traced (trace x) (Err e)
  | Panic => Traced (trace x) Panic
  | OutOfFuel => Traced (trace x) OutOfFuel
  end.

#[global] Instance traced_ret : MRet traced := fun A a => Traced [] (Ok a).
#[global] Instance traced_bind : MBind traced := fun A B f x => tbind x f.

Definition emit (e : event) : traced unit := Traced [e] (Ok ()).
Definition lift {A} (x : outcome A) : traced A := Traced [] x.

(** ** start *)

(** The state of a pass of the dependency loop: [deps], [resolvers], [found]. *)
Abbreviation pass_state :=
  (gmap string (list string) * gmap string Resolver * bool)%type.

Section start.
Context `{Library} `{MapOrder}.

Definition resolverFromConfig (id : string) (r : resolver) : outcome Resolver :=
  call (resolverFromConfig_fails id r) (Upstream id r).

(** The ids a group depends on: its resolvers, and the additional resolvers
    some groups have. *)
Definition group_deps (g : group) : list string :=
  let d := g_Resolvers g in
  let d := if negb (g_BlockListResolver g =? EmptyString)
           then append d (g_BlockListResolver g) else d in
  let d := if negb (g_AllowListResolver g =? EmptyString)
           then append d (g_AllowListResolver g) else d in
  if negb (g_LimitResolver g =? EmptyString)
  then append d (g_LimitResolver g) else d.

(** [_, ok := m[k]] *)
Definition has_key {A} (m : gmap string A) (k : string) : bool :=
  bool_decide (is_Some (m !! k)).

Definition add_group (deps : gmap string (list string)) (e : string * group)
    : outcome (gmap string (list string)) :=
  let '(id, g) := e in
  if has_key deps id then Err (ErrDuplicateName id)
  else Ok (<[id := group_deps g]> deps).

(** [deps[id] = append(deps[id], route.Resolver)]; a missing key reads as nil. *)
Definition add_route (id : string) (deps : gmap string (list string)) (rt : route)
    : gmap string (list string) :=
  <[id := append (default [] (deps !! id)) (rt_Resolver rt)]> deps.

Definition add_router (deps : gmap string (list string)) (e : string * router)
    : outcome (gmap string (list string)) :=
  let '(id, r) := e in
  if has_key deps id then Err (ErrDuplicateName id)
  else Ok (foldl (add_route id) deps (rr_Routes r)).

(** The map of ids that reference a list of ids as dependencies. *)
Definition build_deps (config : config) : outcome (gmap string (list string)) :=
  deps ← for_each add_group (range RangeGroups (Groups config)) ∅;
  for_each add_router (range RangeRouters (Routers config)) deps.

(** All dependencies are in the map of resolvers (no [continue node]). *)
Definition ready (resolvers : gmap string Resolver) (dependencies : list string) : bool :=
  forallb (has_key resolvers) dependencies.


(** A node that can be instantiated could be a group or a router: try
    them both. *)
Definition instantiate_node (config : config) (id : string)
    (resolvers : gmap string Resolver) : traced (gmap string Resolver) :=
  resolvers ← match Groups config !! id with
              | Some g =>
                  _ ← emit (EvInstantiateGroup id g resolvers);
                  lift (instantiateGroup id g resolvers)
              | None => mret resolvers
              end;
  match Routers config !! id with
  | Some r =>
      _ ← emit (EvInstantiateRouter id r resolvers);
      lift (instantiateRouter id r resolvers)
  | None => mret resolvers
  end.

(** The body of [for id, dependencies := range deps]. *)
Definition visit (config : config) (st : pass_state) (e : string * list string)
    : traced pass_state :=
  let '(deps, resolvers, found) := st in
  let '(id, dependencies) := e in
  if ready resolvers dependencies then
    resolvers ← instantiate_node config id resolvers;
    mret (delete id deps, resolvers, true)
  else mret st.

(** One pass over [deps]. *)
Definition pass (config : config) (n : nat) (deps : gmap string (list string))
    (resolvers : gmap string Resolver) : traced pass_state :=
  _ ← emit (EvPass n);
  for_each (visit config) (range (RangeDeps n) deps) (deps, resolvers, false).

(** [for len(deps) > 0 { ... }], on a budget of [fuel] passes; [n] counts the
    passes made so far. *)
Fixpoint resolve (fuel : nat) (config : config) (n : nat)
    (deps : gmap string (list string)) (resolvers : gmap string Resolver)
    : traced (gmap string Resolver) :=
  if (0 <? size deps)%nat then
    match fuel with
    | O => lift OutOfFuel
    | S fuel' =>
        st ← pass config n deps resolvers;
        let '(deps', resolvers', found) := st in
        if found : bool then resolve fuel' config (S n) deps' resolvers'
        else lift (Err ErrUnableToResolve)
    end
  else mret resolvers.

Definition tls_config (fails : string -> string -> string -> bool -> option string)
    (l : listener) : outcome TLSConfig :=
  call (fails (l_CA l) (l_ServerCrt l) (l_ServerKey l) (l_MutualTLS l))
    {| tls_CA := l_CA l; tls_Crt := l_ServerCrt l; tls_Key := l_ServerKey l;
       tls_Mutual := l_MutualTLS l |}.

(** The body of [for id, l := range config.Listeners], up to the listener
    it appends. *)
Definition new_listener (resolvers : gmap string Resolver) (id : string) (l : listener)
    : outcome Listener :=
  let resolver := resolvers !! l_Resolver l in
  if negb (has_key resolvers (l_Resolver l)) && negb (l_Protocol l =? "admin")
  then Err (ErrListenerRef id (l_Resolver l))
  else
    allowedNet ← call (parseCIDRList_fails (l_AllowedNet l)) (l_AllowedNet l);
    let opt := {| AllowedNet := allowedNet |} in
    let proto := l_Protocol l in
    if proto =? "tcp" then Ok (DNSListener id (l_Address l) "tcp" opt resolver)
    else if proto =? "udp" then Ok (DNSListener id (l_Address l) "udp" opt resolver)
    else if proto =? "admin" then
      tlsConfig ← tls_config TLSServerConfig_fails l;
      let opt := {| adm_TLSConfig := tlsConfig; adm_ListenOptions := opt;
                    adm_Transport := l_Transport l |} in
      call (NewAdminListener_fails id (l_Address l) opt)
           (AdminListener id (l_Address l) opt)
    else if proto =? "dot" then
      tlsConfig ← tls_config TLSServerConfig_fails l;
      Ok (DoTListener id (l_Address l) tlsConfig opt resolver)
    else if proto =? "dtls" then
      dtlsConfig ← tls_config DTLSServerConfig_fails l;
      Ok (DTLSListener id (l_Address l) dtlsConfig opt resolver)
    else if proto =? "doh" then
      tlsConfig ← tls_config TLSServerConfig_fails l;
      httpProxyNet ←
        (if negb (l_HTTPProxyNet l =? EmptyString)
         then wrap_err (ErrListenerProxy id (l_HTTPProxyNet l))
                (call (net_ParseCIDR_fails (l_HTTPProxyNet l))
                   (Some (l_HTTPProxyNet l)))
         else Ok None);
      let opt := {| doh_TLSConfig := tlsConfig; doh_ListenOptions := opt;
                    doh_Transport := l_Transport l;
                    doh_HTTPProxyNet := httpProxyNet |} in
      call (NewDoHListener_fails id (l_Address l) opt resolver)
           (DoHListener id (l_Address l) opt resolver)
    else if proto =? "doq" then
      tlsConfig ← tls_config TLSServerConfig_fails l;
      Ok (QUICListener id (l_Address l) tlsConfig opt resolver)
    else Err (ErrUnsupportedProtocol proto id).

Definition add_listener (resolvers : gmap string Resolver) (listeners : list Listener)
    (e : string * listener) : traced (list Listener) :=
  let '(id, l) := e in
  ln ← lift (new_listener resolvers id l);
  _ ← emit (EvNewListener ln);
  mret (append listeners ln).

Definition add_resolver (resolvers : gmap string Resolver) (e : string * resolver)
    : traced (gmap string Resolver) :=
  let '(id, r) := e in
  if has_key resolvers id then lift (Err (ErrDuplicateResolver id))
  else
    _ ← emit (EvResolverFromConfig id r);
    res ← lift (wrap_err (ErrResolverInst id) (resolverFromConfig id r));
    mret (<[id := res]> resolvers).

(** The bootstrap resolver, if one is defined, replaces [net.DefaultResolver]. *)
Definition bootstrap (config : config) : traced unit :=
  if negb (r_Address (BootstrapResolver config) =? EmptyString) then
    _ ← emit (EvResolverFromConfig "bootstrap-resolver" (BootstrapResolver config));
    b ← lift (wrap_err ErrBootstrap
                (resolverFromConfig "bootstrap-resolver" (BootstrapResolver config)));
    emit (EvSetDefaultResolver b)
  else mret ().

(** The map of resolvers: the bootstrap resolver, the resolvers of the
    configuration, then the groups and routers in dependency order. *)
Definition build_resolvers (config : config) : traced (gmap string Resolver) :=
  _ ← bootstrap config;
  resolvers ← for_each add_resolver (range RangeResolvers (Resolvers config)) ∅;
  deps ← lift (build_deps config);
  resolve (size deps) config 0 deps resolvers.

(** The listeners are built last. *)
Definition build_listeners (resolvers : gmap string Resolver) (config : config)
    : traced (list Listener) :=
  for_each (add_listener resolvers) (range RangeListeners (Listeners config)) [].

(** [go func(l rdns.Listener) { for { l.Start(); ...; time.Sleep(time.Second) } }(l)] *)
Definition start_listeners (listeners : list Listener) : traced unit :=
  for_each (fun _ l => emit (EvGo l)) listeners ().

(** Everything [start] does once the configuration is loaded. When all
    goes well the listeners run in goroutines of their own and [start]
    blocks in [select {}]: the result is the list of these listeners. *)
Definition assemble (config : config) : traced (list Listener) :=
  resolvers ← build_resolvers config;
  listeners ← build_listeners resolvers config;
  _ ← start_listeners listeners;
  mret listeners.

Definition start (opt : options) (args : list string) : traced (list Listener) :=
  if (6 <? logLevel opt)%Z then lift (Err (ErrInvalidLogLevel (logLevel opt)))
  else
    _ ← emit (EvSetLevel (logLevel opt));
    _ ← emit (EvLoadConfig args);
    config ← lift (of_sum (loadConfig args));
    assemble config.

End start.

(** ** Concrete environments and configurations

    Used to run the assembler on explicit inputs. *)

(** Iteration in the order of [map_to_list], and in the reverse order. *)
Definition order_forward : MapOrder :=
  {| range_order := fun _ _ l => l;
     range_order_perm := fun _ _ l => Permutation_refl l |}.

Definition order_backward : MapOrder :=
  {| range_order := fun _ _ l => reverse l;
     range_order_perm := fun _ _ l => reverse_Permutation l |}.

(** The scheme of a source, for the three shapes main.go tells apart. *)
Definition simple_scheme (source : string) : string :=
  if String.prefix "http://" source then "http"
  else if String.prefix "https://" source then "https"
  else EmptyString.

(** An environment in which the configuration is [load args] and no call
    into the library fails. *)
Definition library_of (load : list string -> string + config) : Library :=
  {| loadConfig := load;
     resolverFromConfig_fails := fun _ _ => None;
     url_Parse := fun s => inr {| Scheme := simple_scheme s |};
     NewRegexpDB_fails := fun _ => None;
     NewDomainDB_fails := fun _ => None;
     NewHostsDB_fails := fun _ => None;
     NewCidrDB_fails := fun _ => None;
     NewGeoIPDB_fails := fun _ _ => None;
     NewMultiDB_fails := fun _ => None;
     NewMultiIPDB_fails := fun _ => None;
     NewBlocklist_fails := fun _ _ _ => None;
     NewReplace_fails := fun _ _ _ => None;
     NewECSModifier_fails := fun _ _ _ => None;
     NewEDNS0Modifier_fails := fun _ _ _ => None;
     NewResponseBlocklistIP_fails := fun _ _ _ => None;
     NewResponseBlocklistName_fails := fun _ _ _ => None;
     NewClientBlocklist_fails := fun _ _ _ => None;
     NewStaticResolver_fails := fun _ _ => None;
     NewRoute_fails := fun _ _ _ _ => None;
     parseCIDRList_fails := fun _ => None;
     net_ParseCIDR_fails := fun _ => None;
     TLSServerConfig_fails := fun _ _ _ _ => None;
     DTLSServerConfig_fails := fun _ _ _ _ => None;
     NewAdminListener_fails := fun _ _ _ => None;
     NewDoHListener_fails := fun _ _ _ _ => None |}.

(** The scheme of a source: what comes before [://], if anything. *)
Definition url_scheme (source : string) : string :=
  match String.index 0 "://" source with
  | Some i => String.substring 0 i source
  | None => EmptyString
  end.

(** A source that starts with a colon does not parse. *)
Definition parse_url (source : string) : string + URL :=
  if String.prefix ":" source then inl "missing protocol scheme"
  else inr {| Scheme := url_scheme source |}.

(** An environment that parses sources with [parse_url], loads no
    configuration, and in which no constructor of the library fails. *)
Definition library_urls : Library :=
  {| loadConfig := fun _ => inl "no configuration";
     resolverFromConfig_fails := fun _ _ => None;
     url_Parse := parse_url;
     NewRegexpDB_fails := fun _ => None;
     NewDomainDB_fails := fun _ => None;
     NewHostsDB_fails := fun _ => None;
     NewCidrDB_fails := fun _ => None;
     NewGeoIPDB_fails := fun _ _ => None;
     NewMultiDB_fails := fun _ => None;
     NewMultiIPDB_fails := fun _ => None;
     NewBlocklist_fails := fun _ _ _ => None;
     NewReplace_fails := fun _ _ _ => None;
     NewECSModifier_fails := fun _ _ _ => None;
     NewEDNS0Modifier_fails := fun _ _ _ => None;
     NewResponseBlocklistIP_fails := fun _ _ _ => None;
     NewResponseBlocklistName_fails := fun _ _ _ => None;
     NewClientBlocklist_fails := fun _ _ _ => None;
     NewStaticResolver_fails := fun _ _ => None;
     NewRoute_fails := fun _ _ _ _ => None;
     parseCIDRList_fails := fun _ => None;
     net_ParseCIDR_fails := fun _ => None;
     TLSServerConfig_fails := fun _ _ _ _ => None;
     DTLSServerConfig_fails := fun _ _ _ _ => None;
     NewAdminListener_fails := fun _ _ _ => None;
     NewDoHListener_fails := fun _ _ _ _ => None |}.

(** A group of type [ty] over [resolvers], every other field at its zero value. *)
Definition group_of (ty : string) (resolvers : list string) : group :=
  {| g_Type := ty; g_Resolvers := resolvers;
     g_BlockListResolver := EmptyString; g_AllowListResolver := EmptyString;
     g_LimitResolver := EmptyString; g_Blocklist := []; g_Source := EmptyString;
     g_Format := EmptyString; g_Refresh := 0; g_BlocklistSource := [];
     g_BlocklistFormat := EmptyString; g_BlocklistRefresh := 0; g_Allowlist := [];
     g_AllowlistSource := []; g_AllowlistRefresh := 0; g_LocationDB := EmptyString;
     g_Filter := false; g_Replace := []; g_TTLMin := 0; g_TTLMax := 0;
     g_ECSOp := EmptyString; g_ECSAddress := []; g_ECSPrefix4 := 0; g_ECSPrefix6 := 0;
     g_EDNS0Op := EmptyString; g_EDNS0Code := 0; g_EDNS0Data := [];
     g_GCPeriod := 0; g_CacheSize := 0; g_CacheNegativeTTL := 0;
     g_Answer := []; g_NS := []; g_Extra := []; g_RCode := 0; g_NullRCode := 0;
     g_Requests := 0; g_Window := 0; g_Prefix4 := 0; g_Prefix6 := 0 |}.

(** [g] with inline blocklist rules, a source and blocklist sources. *)
Definition with_blocklist (rules : list string) (source : string) (sources : list list_source) (g : group) : group :=
  {| g_Type := g_Type g; g_Resolvers := g_Resolvers g;
     g_BlockListResolver := g_BlockListResolver g;
     g_AllowListResolver := g_AllowListResolver g;
     g_LimitResolver := g_LimitResolver g; g_Blocklist := rules;
     g_Source := source; g_Format := g_Format g; g_Refresh := g_Refresh g;
     g_BlocklistSource := sources; g_BlocklistFormat := g_BlocklistFormat g;
     g_BlocklistRefresh := g_BlocklistRefresh g; g_Allowlist := g_Allowlist g;
     g_AllowlistSource := g_AllowlistSource g;
     g_AllowlistRefresh := g_AllowlistRefresh g;
     g_LocationDB := g_LocationDB g; g_Filter := g_Filter g;
     g_Replace := g_Replace g; g_TTLMin := g_TTLMin g; g_TTLMax := g_TTLMax g;
     g_ECSOp := g_ECSOp g; g_ECSAddress := g_ECSAddress g;
     g_ECSPrefix4 := g_ECSPrefix4 g; g_ECSPrefix6 := g_ECSPrefix6 g;
     g_EDNS0Op := g_EDNS0Op g; g_EDNS0Code := g_EDNS0Code g;
     g_EDNS0Data := g_EDNS0Data g; g_GCPeriod := g_GCPeriod g;
     g_CacheSize := g_CacheSize g; g_CacheNegativeTTL := g_CacheNegativeTTL g;
     g_Answer := g_Answer g; g_NS := g_NS g; g_Extra := g_Extra g;
     g_RCode := g_RCode g; g_NullRCode := g_NullRCode g;
     g_Requests := g_Requests g; g_Window := g_Window g;
     g_Prefix4 := g_Prefix4 g; g_Prefix6 := g_Prefix6 g |}.

(** [g] with the formats of its lists. *)
Definition with_format (format : string) (g : group) : group :=
  {| g_Type := g_Type g; g_Resolvers := g_Resolvers g;
     g_BlockListResolver := g_BlockListResolver g;
     g_AllowListResolver := g_AllowListResolver g;
     g_LimitResolver := g_LimitResolver g; g_Blocklist := g_Blocklist g;
     g_Source := g_Source g; g_Format := format; g_Refresh := g_Refresh g;
     g_BlocklistSource := g_BlocklistSource g; g_BlocklistFormat := format;
     g_BlocklistRefresh := g_BlocklistRefresh g; g_Allowlist := g_Allowlist g;
     g_AllowlistSource := g_AllowlistSource g;
     g_AllowlistRefresh := g_AllowlistRefresh g;
     g_LocationDB := g_LocationDB g; g_Filter := g_Filter g;
     g_Replace := g_Replace g; g_TTLMin := g_TTLMin g; g_TTLMax := g_TTLMax g;
     g_ECSOp := g_ECSOp g; g_ECSAddress := g_ECSAddress g;
     g_ECSPrefix4 := g_ECSPrefix4 g; g_ECSPrefix6 := g_ECSPrefix6 g;
     g_EDNS0Op := g_EDNS0Op g; g_EDNS0Code := g_EDNS0Code g;
     g_EDNS0Data := g_EDNS0Data g; g_GCPeriod := g_GCPeriod g;
     g_CacheSize := g_CacheSize g; g_CacheNegativeTTL := g_CacheNegativeTTL g;
     g_Answer := g_Answer g; g_NS := g_NS g; g_Extra := g_Extra g;
     g_RCode := g_RCode g; g_NullRCode := g_NullRCode g;
     g_Requests := g_Requests g; g_Window := g_Window g;
     g_Prefix4 := g_Prefix4 g; g_Prefix6 := g_Prefix6 g |}.

(** [g] with an ecs-modifier and an edns0-modifier operation. *)
Definition with_ops (ecs edns0 : string) (g : group) : group :=
  {| g_Type := g_Type g; g_Resolvers := g_Resolvers g;
     g_BlockListResolver := g_BlockListResolver g;
     g_AllowListResolver := g_AllowListResolver g;
     g_LimitResolver := g_LimitResolver g; g_Blocklist := g_Blocklist g;
     g_Source := g_Source g; g_Format := g_Format g; g_Refresh := g_Refresh g;
     g_BlocklistSource := g_BlocklistSource g;
     g_BlocklistFormat := g_BlocklistFormat g;
     g_BlocklistRefresh := g_BlocklistRefresh g; g_Allowlist := g_Allowlist g;
     g_AllowlistSource := g_AllowlistSource g;
     g_AllowlistRefresh := g_AllowlistRefresh g;
     g_LocationDB := g_LocationDB g; g_Filter := g_Filter g;
     g_Replace := g_Replace g; g_TTLMin := g_TTLMin g; g_TTLMax := g_TTLMax g;
     g_ECSOp := ecs; g_ECSAddress := g_ECSAddress g;
     g_ECSPrefix4 := g_ECSPrefix4 g; g_ECSPrefix6 := g_ECSPrefix6 g;
     g_EDNS0Op := edns0; g_EDNS0Code := g_EDNS0Code g;
     g_EDNS0Data := g_EDNS0Data g; g_GCPeriod := g_GCPeriod g;
     g_CacheSize := g_CacheSize g; g_CacheNegativeTTL := g_CacheNegativeTTL g;
     g_Answer := g_Answer g; g_NS := g_NS g; g_Extra := g_Extra g;
     g_RCode := g_RCode g; g_NullRCode := g_NullRCode g;
     g_Requests := g_Requests g; g_Window := g_Window g;
     g_Prefix4 := g_Prefix4 g; g_Prefix6 := g_Prefix6 g |}.

(** [g] with blocklist, allowlist and limit resolvers. *)
Definition with_sinkholes (blocklist allowlist limit : string) (g : group) : group :=
  {| g_Type := g_Type g; g_Resolvers := g_Resolvers g;
     g_BlockListResolver := blocklist; g_AllowListResolver := allowlist;
     g_LimitResolver := limit; g_Blocklist := g_Blocklist g;
     g_Source := g_Source g; g_Format := g_Format g; g_Refresh := g_Refresh g;
     g_BlocklistSource := g_BlocklistSource g;
     g_BlocklistFormat := g_BlocklistFormat g;
     g_BlocklistRefresh := g_BlocklistRefresh g; g_Allowlist := g_Allowlist g;
     g_AllowlistSource := g_AllowlistSource g;
     g_AllowlistRefresh := g_AllowlistRefresh g;
     g_LocationDB := g_LocationDB g; g_Filter := g_Filter g;
     g_Replace := g_Replace g; g_TTLMin := g_TTLMin g; g_TTLMax := g_TTLMax g;
     g_ECSOp := g_ECSOp g; g_ECSAddress := g_ECSAddress g;
     g_ECSPrefix4 := g_ECSPrefix4 g; g_ECSPrefix6 := g_ECSPrefix6 g;
     g_EDNS0Op := g_EDNS0Op g; g_EDNS0Code := g_EDNS0Code g;
     g_EDNS0Data := g_EDNS0Data g; g_GCPeriod := g_GCPeriod g;
     g_CacheSize := g_CacheSize g; g_CacheNegativeTTL := g_CacheNegativeTTL g;
     g_Answer := g_Answer g; g_NS := g_NS g; g_Extra := g_Extra g;
     g_RCode := g_RCode g; g_NullRCode := g_NullRCode g;
     g_Requests := g_Requests g; g_Window := g_Window g;
     g_Prefix4 := g_Prefix4 g; g_Prefix6 := g_Prefix6 g |}.

Definition route_of (ty : string) (types : list string) (resolver : string) : route :=
  {| rt_Type := ty; rt_Types := types; rt_Class := EmptyString;
     rt_Name := EmptyString; rt_Source := EmptyString; rt_Invert := false;
     rt_Resolver := resolver |}.

Definition listener_of (protocol resolver : string) : listener :=
  {| l_Address := ":53"; l_Protocol := protocol; l_Transport := EmptyString;
     l_Resolver := resolver; l_CA := EmptyString; l_ServerKey := EmptyString;
     l_ServerCrt := EmptyString; l_MutualTLS := false; l_AllowedNet := [];
     l_HTTPProxyNet := EmptyString |}.

Definition upstream_of (address : string) : resolver :=
  {| r_Address := address; r_Protocol := "udp" |}.

Definition no_bootstrap : resolver :=
  {| r_Address := EmptyString; r_Protocol := EmptyString |}.

Definition config_of (listeners : list (string * listener))
    (resolvers : list (string * resolver)) (groups : list (string * group))
    (routers : list (string * router)) : config :=
  {| BootstrapResolver := no_bootstrap;
     Listeners := list_to_map listeners;
     Resolvers := list_to_map resolvers;
     Groups := list_to_map groups;
     Routers := list_to_map routers |}.

(** The resolver map holding one upstream resolver per id of [ids]. *)
Definition upstreams (ids : list string) : gmap string Resolver :=
  list_to_map (map (fun id => (id, Upstream id (upstream_of "1.1.1.1:53"))) ids).

Definition default_options : options := {| logLevel := 4 |}.

(** The number of passes of the dependency loop in a trace. *)
Definition is_pass (e : event) : bool :=
  match e with
  | EvPass _ => true
  | _ => false
  end.

Definition passes (t : list event) : nat := length (filter is_pass t).

(** The events of the listener phase. *)
Definition is_listener_event (e : event) : bool :=
  match e with
  | EvNewListener _ | EvGo _ => true
  | _ => false
  end.

(** The two errors about a reference missing from the map of resolvers. *)
Definition is_ref_error (e : error) : bool :=
  match e with
  | ErrGroupRef _ _ | ErrRouterRef _ _ => true
  | _ => false
  end.

(** An outcome of the program itself (not the exhausted budget of the model)
    that is not one of the two missing-reference errors. *)
Definition settled {A} (x : outcome A) : Prop :=
  match x with
  | Ok _ | Panic => True
  | Err e => is_ref_error e = false
  | OutOfFuel => False
  end.

(** ** Notions used to state the properties *)

(** The type names the [switch] of instantiateGroup has a case for. *)
Definition group_types : list string :=
  ["round-robin"; "fail-rotate"; "fail-back"; "random"; "blocklist";
   "blocklist-v2"; "replace"; "ttl-modifier"; "ecs-modifier"; "edns0-modifier";
   "cache"; "response-blocklist-ip"; "response-blocklist-cidr";
   "response-blocklist-name"; "client-blocklist"; "static-responder";
   "response-minimize"; "response-collapse"; "drop"; "rate-limiter"].

(** The protocols the [switch] over [l.Protocol] has a case for. *)
Definition listener_protocols : list string :=
  ["tcp"; "udp"; "admin"; "dot"; "dtls"; "doh"; "doq"].

(** The resolver a listener hands its queries to; the admin listener has
    none. *)
Definition listener_resolver (ln : Listener) : option (option Resolver) :=
  match ln with
  | AdminListener _ _ _ => None
  | DNSListener _ _ _ _ r | DoTListener _ _ _ _ r | DTLSListener _ _ _ _ r
  | DoHListener _ _ _ r | QUICListener _ _ _ _ r => Some r
  end.

(** The listeners a trace builds, and those it starts, in order. *)
Definition built (t : list event) : list Listener :=
  omap (fun ev => match ev with EvNewListener ln => Some ln | _ => None end) t.

Definition started (t : list event) : list Listener :=
  omap (fun ev => match ev with EvGo ln => Some ln | _ => None end) t.

(** The ids a trace instantiates as a group, and as a router, in order. *)
Definition instantiated_groups (t : list event) : list string :=
  omap (fun ev => match ev with EvInstantiateGroup id _ _ => Some id | _ => None end) t.

Definition instantiated_routers (t : list event) : list string :=
  omap (fun ev => match ev with EvInstantiateRouter id _ _ => Some id | _ => None end) t.

(** The ids a router depends on: the resolvers of its routes. *)
Definition router_deps (r : router) : list string := rt_Resolver <$> rr_Routes r.

(** The entry of [id] in the dependency map of a configuration: the
    dependencies of the group [id], else those of the router [id] when it has
    a route (a router without routes gets no entry). *)
Definition node_deps (config : config) (id : string) : option (list string) :=
  match Groups config !! id with
  | Some g => Some (group_deps g)
  | None =>
      match Routers config !! id with
      | Some r => if nonempty (rr_Routes r) then Some (router_deps r) else None
      | None => None
      end
  end.

(** No id names both a group and a router. *)
Definition groups_routers_disjoint (config : config) : Prop :=
  forall id, Groups config !! id = None \/ Routers config !! id = None.

(** [deps] holds entries of the dependency map of [config] only. *)
Definition consistent (config : config) (deps : gmap string (list string)) : Prop :=
  groups_routers_disjoint config /\
  forall id ds, deps !! id = Some ds -> node_deps config id = Some ds.

(** The dependency relation: the group or router [id] references [d]. *)
Definition references (config : config) (id d : string) : Prop :=
  (exists g, Groups config !! id = Some g /\ d ∈ group_deps g) \/
  (exists r, Routers config !! id = Some r /\ d ∈ router_deps r).



(** The dependency relation has a cycle. *)
Definition cyclic (config : config) : Prop :=
  exists id, tc (references config) id id.



(** The events and the errors of the steps of [start] that come before the
    dependency loop. *)
Definition is_early_event (e : event) : bool :=
  match e with
  | EvResolverFromConfig _ _ | EvSetDefaultResolver _ => true
  | _ => false
  end.

Definition is_early_error (e : error) : bool :=
  match e with
  | ErrBootstrap _ | ErrDuplicateResolver _ | ErrResolverInst _ _
  | ErrDuplicateName _ => true
  | _ => false
  end.

(** An instantiation is called with every id it references in the map. *)
Definition refs_present (e : event) : Prop :=
  match e with
  | EvInstantiateGroup _ g rs => Forall (fun d => is_Some (rs !! d)) (group_deps g)
  | EvInstantiateRouter _ r rs =>
      Forall (fun rt => is_Some (rs !! rt_Resolver rt)) (rr_Routes r)
  | _ => True
  end.

(** A configuration with the id [x] defined twice: as a resolver, and as a
    group over the resolver [x]. *)
Definition clash_config : config :=
  config_of [("l", listener_of "udp" "x")] [("x", upstream_of "1.1.1.1:53")]
    [("x", group_of "round-robin" ["x"])] [].




(** A resolver, a group over it, a router to the group, and a group over the
    router and the group. *)
Definition chain_config : config :=
  config_of [("l", listener_of "udp" "b")] [("u", upstream_of "1.1.1.1:53")]
    [("a", group_of "round-robin" ["u"]); ("b", group_of "fail-back" ["r"; "a"])]
    [("r", {| rr_Routes := [route_of EmptyString ["A"] "a"] |})].

(** The dependency map of [chain_config]. *)
Definition chain_deps : gmap string (list string) :=
  list_to_map [("a", ["u"]); ("b", ["r"; "a"]); ("r", ["a"])].

(** An admin listener and a DNS listener, both bound to an id that is not in
    the map of resolvers. *)
Definition unbound_listeners_config : config :=
  config_of [("adm", listener_of "admin" "nowhere"); ("dns", listener_of "udp" "nowhere")]
    [("u", upstream_of "1.1.1.1:53")] [] [].

(** A router with one route that has both [types] and [type]. *)
Definition sample_router : router :=
  {| rr_Routes := [route_of "AAAA" ["A"; "AAAA"; "A"] "a"] |}.


(** The id a listener and a resolver were constructed with. *)
Definition listener_id (ln : Listener) : string :=
  match ln with
  | DNSListener id _ _ _ _ | AdminListener id _ _ | DoTListener id _ _ _ _
  | DTLSListener id _ _ _ _ | DoHListener id _ _ _ | QUICListener id _ _ _ _ => id
  end.

Definition resolver_id (r : Resolver) : string :=
  match r with
  | Upstream id _ | RoundRobin id _ | FailRotate id _ | FailBack id _ _
  | Random id _ _ | Blocklist id _ _ | Replace id _ _ | TTLModifier id _ _
  | ECSModifier id _ _ | EDNS0Modifier id _ _ | Cache id _ _
  | ResponseBlocklistIP id _ _ | ResponseBlocklistName id _ _
  | ClientBlocklist id _ _ | StaticResolver id _ | ResponseMinimize id _
  | ResponseCollapse id _ _ | DropResolver id | RateLimiter id _ _
  | Router id _ => id
  end.

(** The ids a trace instantiates, as a group or as a router, in order. *)
Definition instantiated (t : list event) : list string :=
  omap (fun ev => match ev with
                  | EvInstantiateGroup id _ _ | EvInstantiateRouter id _ _ => Some id
                  | _ => None
                  end) t.

(** An environment in which the configuration is [load args], a resolver
    without an address cannot be made, a list of networks with an empty
    entry does not parse, and a TLS configuration needs a certificate. *)
Definition library_strict (load : list string -> string + config) : Library :=
  {| loadConfig := load;
     resolverFromConfig_fails := fun _ r =>
       if r_Address r =? EmptyString then Some "no address" else None;
     url_Parse := parse_url;
     NewRegexpDB_fails := fun _ => None;
     NewDomainDB_fails := fun _ => None;
     NewHostsDB_fails := fun _ => None;
     NewCidrDB_fails := fun _ => None;
     NewGeoIPDB_fails := fun _ _ => None;
     NewMultiDB_fails := fun _ => None;
     NewMultiIPDB_fails := fun _ => None;
     NewBlocklist_fails := fun _ _ _ => None;
     NewReplace_fails := fun _ _ _ => None;
     NewECSModifier_fails := fun _ _ _ => None;
     NewEDNS0Modifier_fails := fun _ _ _ => None;
     NewResponseBlocklistIP_fails := fun _ _ _ => None;
     NewResponseBlocklistName_fails := fun _ _ _ => None;
     NewClientBlocklist_fails := fun _ _ _ => None;
     NewStaticResolver_fails := fun _ _ => None;
     NewRoute_fails := fun _ _ _ _ => None;
     parseCIDRList_fails := fun l =>
       if bool_decide (EmptyString ∈ l) then Some "invalid CIDR address" else None;
     net_ParseCIDR_fails := fun _ => None;
     TLSServerConfig_fails := fun _ crt _ _ =>
       if crt =? EmptyString then Some "no certificate" else None;
     DTLSServerConfig_fails := fun _ crt _ _ =>
       if crt =? EmptyString then Some "no certificate" else None;
     NewAdminListener_fails := fun _ _ _ => None;
     NewDoHListener_fails := fun _ _ _ _ => None |}.

(** A listener admitting the networks [nets]. *)
Definition with_allowed (nets : list string) (l : listener) : listener :=
  {| l_Address := l_Address l; l_Protocol := l_Protocol l;
     l_Transport := l_Transport l; l_Resolver := l_Resolver l; l_CA := l_CA l;
     l_ServerKey := l_ServerKey l; l_ServerCrt := l_ServerCrt l;
     l_MutualTLS := l_MutualTLS l; l_AllowedNet := nets;
     l_HTTPProxyNet := l_HTTPProxyNet l |}.

(** Two listeners on one upstream resolver. *)
Definition two_listeners_config : config :=
  config_of [("b", listener_of "udp" "u"); ("a", listener_of "tcp" "u")]
    [("u", upstream_of "1.1.1.1:53")] [] [].

(** A listener on a group over two upstream resolvers, the second without
    an address. *)
Definition bad_upstream_config : config :=
  config_of [("l", listener_of "udp" "g")]
    [("u", upstream_of "1.1.1.1:53"); ("v", upstream_of EmptyString)]
    [("g", group_of "round-robin" ["u"; "v"])] [].

(** ** Classes of errors *)

(** The error of [x], if it returns one, is of class [C]. *)
Definition within {A} (C : error -> bool) (x : outcome A) : Prop :=
  match x with
  | Err e => C e = true
  | _ => True
  end.

Definition is_lib_error (e : error) : bool :=
  match e with
  | ErrLib _ => true
  | _ => false
  end.

(** The errors of newBlocklistDB and newIPBlocklistDB. *)
Definition is_db_error (e : error) : bool :=
  match e with
  | ErrLib _ | ErrUnsupportedScheme _ _ | ErrUnsupportedFormat _ => true
  | _ => false
  end.

(** The errors of instantiateGroup for the group [id]. *)
Definition is_group_error (id : string) (e : error) : bool :=
  match e with
  | ErrLib _ | ErrUnsupportedScheme _ _ | ErrUnsupportedFormat _
  | ErrECSOp _ | ErrEDNS0Op _ => true
  | ErrGroupRef id' _ | ErrOneResolver _ id' | ErrStaticSource _ _ id'
  | ErrUnsupportedGroupType _ id' => id' =? id
  | ErrIn id' e' => (id' =? id) && is_db_error e'
  | _ => false
  end.

(** The errors of instantiateRouter for the router [id]. *)
Definition is_router_error (id : string) (e : error) : bool :=
  match e with
  | ErrRouterRef id' _ => id' =? id
  | ErrRouteParse id' e' => (id' =? id) && is_lib_error e'
  | _ => false
  end.

(** The errors of the loop over the listeners for the listener [id]. *)
Definition is_listener_error (id : string) (e : error) : bool :=
  match e with
  | ErrLib _ => true
  | ErrListenerRef id' _ | ErrUnsupportedProtocol _ id' => id' =? id
  | ErrListenerProxy id' _ e' => (id' =? id) && is_lib_error e'
  | _ => false
  end.

(** The errors of [start] once the configuration [config] is loaded. *)
Definition is_start_error (config : config) (e : error) : Prop :=
  (exists msg, e = ErrBootstrap (ErrLib msg)) \/
  (exists id msg,
     is_Some (Resolvers config !! id) /\ e = ErrResolverInst id (ErrLib msg)) \/
  (exists id, is_Some (Groups config !! id) /\ is_Some (Routers config !! id) /\
     e = ErrDuplicateName id) \/
  e = ErrUnableToResolve \/
  (exists id, is_Some (Groups config !! id) /\ is_group_error id e = true) \/
  (exists id, is_Some (Routers config !! id) /\ is_router_error id e = true) \/
  (exists id, is_Some (Listeners config !! id) /\ is_listener_error id e = true).

(** A group and a router under one id. *)
Definition name_clash_config : config :=
  config_of [("l", listener_of "udp" "x")] [("u", upstream_of "1.1.1.1:53")]
    [("x", group_of "round-robin" ["u"])]
    [("x", {| rr_Routes := [route_of EmptyString ["A"] "u"] |})].

(** [g] with a cache of [size] entries collected every [period] seconds. *)
Definition with_cache (period size : Z) (g : group) : group :=
  {| g_Type := g_Type g; g_Resolvers := g_Resolvers g;
     g_BlockListResolver := g_BlockListResolver g;
     g_AllowListResolver := g_AllowListResolver g;
     g_LimitResolver := g_LimitResolver g; g_Blocklist := g_Blocklist g;
     g_Source := g_Source g; g_Format := g_Format g; g_Refresh := g_Refresh g;
     g_BlocklistSource := g_BlocklistSource g;
     g_BlocklistFormat := g_BlocklistFormat g;
     g_BlocklistRefresh := g_BlocklistRefresh g; g_Allowlist := g_Allowlist g;
     g_AllowlistSource := g_AllowlistSource g;
     g_AllowlistRefresh := g_AllowlistRefresh g;
     g_LocationDB := g_LocationDB g; g_Filter := g_Filter g;
     g_Replace := g_Replace g; g_TTLMin := g_TTLMin g; g_TTLMax := g_TTLMax g;
     g_ECSOp := g_ECSOp g; g_ECSAddress := g_ECSAddress g;
     g_ECSPrefix4 := g_ECSPrefix4 g; g_ECSPrefix6 := g_ECSPrefix6 g;
     g_EDNS0Op := g_EDNS0Op g; g_EDNS0Code := g_EDNS0Code g;
     g_EDNS0Data := g_EDNS0Data g; g_GCPeriod := period;
     g_CacheSize := size; g_CacheNegativeTTL := g_CacheNegativeTTL g;
     g_Answer := g_Answer g; g_NS := g_NS g; g_Extra := g_Extra g;
     g_RCode := g_RCode g; g_NullRCode := g_NullRCode g;
     g_Requests := g_Requests g; g_Window := g_Window g;
     g_Prefix4 := g_Prefix4 g; g_Prefix6 := g_Prefix6 g |}.

(** The type name in the error about the number of resolvers:
    response-blocklist-cidr shares the case, and the message, of
    response-blocklist-ip. *)
Definition arity_kind (ty : string) : string :=
  if ty =? "response-blocklist-cidr" then "response-blocklist-ip" else ty.

(** * Properties *)

(** ** The outcome and trace monads *)

Lemma obind_Ok {A B} (x : outcome A) (f : A -> outcome B) (b : B) :
  x ≫= f = Ok b -> exists a, x = Ok a /\ f a = Ok b.
Proof. destruct x; simpl; intros Hx; try discriminate. eauto. Qed.

Lemma call_Ok {A} (fails : option string) (v a : A) :
  call fails v = Ok a -> a = v.
Proof. destruct fails; simpl; congruence. Qed.

Lemma wrap_err_Ok {A} (w : error -> error) (x : outcome A) (a : A) :
  wrap_err w x = Ok a -> x = Ok a.
Proof. destruct x; simpl; congruence. Qed.

(** ** Group instantiation *)

Section group_facts.
Context `{Library}.

Lemma group_resolvers_acc id rids rs (acc : list Resolver) :
  for_each (fun gr rid =>
      match rs !! rid with
      | Some r => Ok (append gr r)
      | None => Err (ErrGroupRef id rid)
      end) rids acc
  = gr ← group_resolvers id rids rs; Ok (acc ++ gr)%list.
Proof.
  unfold group_resolvers. revert acc.
  induction rids as [|rid rids IH]; intros acc; simpl.
  - by rewrite app_nil_r.
  - destruct (rs !! rid) as [r|]; simpl; [|done].
    rewrite (IH (append acc r)), (IH (append [] r)). unfold append.
    destruct (for_each _ rids []); simpl; try done.
    by rewrite <- app_assoc.
Qed.

(** The resolvers of a group are those its ids name, in order. *)
Lemma group_resolvers_Ok id rids rs gr :
  group_resolvers id rids rs = Ok gr <-> Forall2 (fun rid r => rs !! rid = Some r) rids gr.
Proof.
  revert gr. induction rids as [|rid rids IH]; intros gr.
  - unfold group_resolvers; simpl. split.
    + intros [= <-]. constructor.
    + intros Hf. by inversion Hf.
  - unfold group_resolvers. simpl. split.
    + destruct (rs !! rid) as [r|] eqn:Hr; simpl; [|done].
      rewrite group_resolvers_acc.
      destruct (group_resolvers id rids rs) as [gr'| | |] eqn:Hgr; simpl; try done.
      intros [= <-]. constructor; [done|]. by apply IH.
    + intros Hf. inversion Hf as [|? r ? gr' Hr Hrest]; subst.
      rewrite Hr. simpl. rewrite group_resolvers_acc.
      apply IH in Hrest. by rewrite Hrest.
Qed.

Lemma group_resolvers_length id rids rs gr :
  group_resolvers id rids rs = Ok gr -> length gr = length rids.
Proof. intros Hgr%group_resolvers_Ok. symmetry. by eapply Forall2_length. Qed.

(** The only error of the first loop is the missing reference. *)
Lemma group_resolvers_present id rids rs :
  Forall (fun rid => is_Some (rs !! rid)) rids ->
  exists gr, group_resolvers id rids rs = Ok gr.
Proof.
  induction 1 as [|rid rids [r Hr] _ [gr IH]].
  - by exists [].
  - exists (r :: gr). apply group_resolvers_Ok. constructor; [done|].
    exact (proj1 (group_resolvers_Ok id rids rs gr) IH).
Qed.

End group_facts.

(** C8. The assembler constructs every fail-back group, and every random
    group, with a ResetAfter of exactly one minute (60 000 000 000 ns),
    whatever the other fields of the group's configuration are: a group of
    one of these two types whose resolvers are all in the map is
    instantiated, over these resolvers in order, with that option. *)
Theorem reset_after_is_one_minute `{Library} (id : string) (g : group)
    (rs : gmap string Resolver) (gr : list Resolver) :
  Forall2 (fun rid r => rs !! rid = Some r) (g_Resolvers g) gr ->
  (g_Type g = "fail-back" ->
   instantiateGroup id g rs
   = Ok (<[id := FailBack id {| fb_ResetAfter := 60000000000 |} gr]> rs)) /\
  (g_Type g = "random" ->
   instantiateGroup id g rs
   = Ok (<[id := Random id {| rnd_ResetAfter := 60000000000 |} gr]> rs)).
Proof.
  intros Hgr%(group_resolvers_Ok id).
  split; intros Hty; unfold instantiateGroup, group_resolver;
    rewrite Hgr, Hty; reflexivity.
Qed.

(** A fail-back group over two resolvers and a random group over one. *)
Lemma reset_after_is_one_minute_witness :
  instantiateGroup (H := library_of (fun _ => inl "none")) "fb"
    (group_of "fail-back" ["a"; "b"]) (upstreams ["a"; "b"])
  = Ok (<["fb" := FailBack "fb" {| fb_ResetAfter := 60000000000 |}
                    [Upstream "a" (upstream_of "1.1.1.1:53");
                     Upstream "b" (upstream_of "1.1.1.1:53")]]>
          (upstreams ["a"; "b"])) /\
  instantiateGroup (H := library_of (fun _ => inl "none")) "rnd"
    (group_of "random" ["b"]) (upstreams ["a"; "b"])
  = Ok (<["rnd" := Random "rnd" {| rnd_ResetAfter := 60000000000 |}
                     [Upstream "b" (upstream_of "1.1.1.1:53")]]>
          (upstreams ["a"; "b"])).
Proof.
  split.
  - refine (proj1 (reset_after_is_one_minute (H := library_of (fun _ => inl "none"))
             "fb" (group_of "fail-back" ["a"; "b"]) (upstreams ["a"; "b"]) _ _) _).
    + repeat constructor.
    + reflexivity.
  - refine (proj2 (reset_after_is_one_minute (H := library_of (fun _ => inl "none"))
             "rnd" (group_of "random" ["b"]) (upstreams ["a"; "b"]) _ _) _).
    + repeat constructor.
    + reflexivity.
Defined.

(** ** Arity *)

Section arity.
Context `{Library}.

Lemma group_resolvers_Ok_or_Err id rids rs :
  (exists gr, group_resolvers id rids rs = Ok gr) \/
  (exists rid, group_resolvers id rids rs = Err (ErrGroupRef id rid)).
Proof.
  induction rids as [|rid rids IH].
  - left. by exists [].
  - unfold group_resolvers. simpl.
    destruct (rs !! rid) as [r|]; simpl; [|right; eauto].
    rewrite group_resolvers_acc.
    destruct IH as [[gr ->]|[rid' ->]]; simpl; eauto.
Qed.

(** Every unary kind but the cache returns an error for a resolver list that
    does not have exactly one element. *)
Lemma arity_checked_error id g rs :
  g_Type g ∈ arity_checked ->
  length (g_Resolvers g) <> 1%nat ->
  exists e, instantiateGroup id g rs = Err e.
Proof.
  intros Hty Hlen. unfold instantiateGroup.
  destruct (group_resolvers_Ok_or_Err id (g_Resolvers g) rs)
    as [[gr Hgr]|[rid Hgr]]; rewrite Hgr; simpl; [|eauto].
  apply group_resolvers_length in Hgr.
  assert (Hone : forall kind, one_resolver kind id gr = Err (ErrOneResolver kind id)).
  { intros kind. unfold one_resolver.
    destruct (Nat.eqb_spec (length gr) 1); [congruence|done]. }
  unfold arity_checked in Hty. unfold group_resolver.
  repeat (apply elem_of_cons in Hty as [->|Hty];
          [simpl; rewrite Hone; simpl; eauto|]).
  by apply elem_of_nil in Hty.
Qed.

End arity.

(** C4. The arity rule is not enforced for the cache: instantiateGroup does
    not check [len(gr)] under [case "cache"] and indexes [gr[0]] at once.
    A cache group without resolvers panics (index out of range) instead of
    returning an error, and a cache group over two resolvers is instantiated,
    over the first of them. *)
Theorem cache_arity_not_enforced `{Library} (id : string) (rs : gmap string Resolver) :
  instantiateGroup id (group_of "cache" []) rs = Panic /\
  instantiateGroup id (group_of "cache" ["a"; "b"]) (upstreams ["a"; "b"])
  = Ok (<[id := Cache id (Upstream "a" (upstream_of "1.1.1.1:53"))
                  {| c_GCPeriod := 0; c_Capacity := 0; c_NegativeTTL := 0 |}]>
          (upstreams ["a"; "b"])).
Proof. split; reflexivity. Qed.

(** ** Routes *)

Section router_facts.
Context `{Library}.

Lemma router_routes_acc id rs routes (acc out : list (Route Resolver)) :
  for_each (fun routes route =>
      match rs !! rt_Resolver route with
      | None => Err (ErrRouterRef id (rt_Resolver route))
      | Some resolver =>
          r ← wrap_err (ErrRouteParse id)
                (NewRoute (rt_Name route) (rt_Class route) (route_type_list route)
                   (rt_Source route) resolver);
          Ok (append routes (Invert (rt_Invert route) r))
      end) routes acc = Ok out ->
  exists rts, out = (acc ++ rts)%list /\
    Forall2 (fun route r => compile_route id rs route = Ok r) routes rts.
Proof.
  revert acc. induction routes as [|route routes IH]; intros acc; simpl.
  - intros [= <-]. exists []. by rewrite app_nil_r.
  - intros (acc' & Hstep & Hrest)%obind_Ok.
    apply IH in Hrest as (rts & -> & Hall).
    assert (exists r, compile_route id rs route = Ok r /\ acc' = append acc r)
      as (r & Hr & ->).
    { unfold compile_route. destruct (rs !! rt_Resolver route); [|done].
      apply obind_Ok in Hstep as (r0 & Hr0 & [= <-]).
      exists (Invert (rt_Invert route) r0). by rewrite Hr0. }
    exists (r :: rts). unfold append. rewrite <- app_assoc. split; [done|].
    by constructor.
Qed.

Lemma instantiateRouter_Ok id r rs rs' :
  instantiateRouter id r rs = Ok rs' ->
  exists routes, rs' = <[id := Router id routes]> rs /\
    Forall2 (fun route cr => compile_route id rs route = Ok cr) (rr_Routes r) routes.
Proof.
  unfold instantiateRouter. intros (routes & Hroutes & [= <-])%obind_Ok.
  apply router_routes_acc in Hroutes as (rts & -> & Hall). eauto.
Qed.

Lemma compile_route_types id rs route cr :
  compile_route id rs route = Ok cr ->
  route_types cr = remove_dups (route_type_list route).
Proof.
  unfold compile_route. destruct (rs !! rt_Resolver route); [|done].
  intros (r0 & Hr0%wrap_err_Ok & [= <-])%obind_Ok.
  unfold NewRoute in Hr0. apply call_Ok in Hr0 as ->. reflexivity.
Qed.

Lemma route_matches_type_spec {R} (cr : Route R) (q : string) :
  route_types cr <> [] -> route_matches_type cr q = true <-> q ∈ route_types cr.
Proof.
  unfold route_matches_type. destruct (route_types cr); [done|].
  intros _. apply bool_decide_eq_true.
Qed.

End router_facts.

(** C5. When a router is instantiated, the singular [type] of each of its
    routes, when non-empty, is appended to the route's [types], and this list
    is what the route constructor receives; the compiled route's type set has
    no duplicates and holds exactly the types of [types] and [type]; a route
    with a [type] matches the queries whose type is in [types] or is [type]. *)
Theorem route_types_merged_and_deduplicated `{Library} (id : string) (r : router)
    (rs rs' : gmap string Resolver) :
  instantiateRouter id r rs = Ok rs' ->
  exists routes, rs' !! id = Some (Router id routes) /\
    Forall2 (fun route cr =>
        route_type_list route
          = (if decide (rt_Type route = EmptyString) then rt_Types route
             else rt_Types route ++ [rt_Type route])%list /\
        route_types cr = remove_dups (route_type_list route) /\
        NoDup (route_types cr) /\
        (forall t, t ∈ route_types cr <->
           t ∈ rt_Types route \/ (rt_Type route <> EmptyString /\ t = rt_Type route)) /\
        (rt_Type route <> EmptyString -> forall q,
           route_matches_type cr q = true <-> q ∈ rt_Types route \/ q = rt_Type route))
      (rr_Routes r) routes.
Proof.
  intros (routes & -> & Hall)%instantiateRouter_Ok.
  exists routes. split; [apply lookup_insert_eq|].
  eapply Forall2_impl; [exact Hall|]. clear Hall.
  intros route cr Hcr. apply compile_route_types in Hcr.
  assert (Hlist : route_type_list route
          = (if decide (rt_Type route = EmptyString) then rt_Types route
             else rt_Types route ++ [rt_Type route])%list).
  { unfold route_type_list, append.
    destruct (String.eqb_spec (rt_Type route) EmptyString), (decide _); done. }
  assert (Hmem : forall t, t ∈ route_types cr <->
            t ∈ rt_Types route \/ (rt_Type route <> EmptyString /\ t = rt_Type route)).
  { intros t. rewrite Hcr, elem_of_remove_dups, Hlist.
    destruct (decide _) as [He|Hne].
    - split; [by left|]. by intros [?|[? _]].
    - rewrite elem_of_app, list_elem_of_singleton.
      split; (intros [?|?]; [by left|right]); tauto. }
  split; [done|]. split; [done|].
  split; [rewrite Hcr; apply NoDup_remove_dups|].
  split; [done|].
  intros Hty q. rewrite route_matches_type_spec.
  - rewrite Hmem. tauto.
  - intros Hnil. specialize (Hmem (rt_Type route)). rewrite Hnil in Hmem.
    assert (rt_Type route ∈ @nil string) as Hin by (apply Hmem; auto).
    by apply elem_of_nil in Hin.
Qed.

(** [sample_router]: types A, AAAA, A and type AAAA give the set A, AAAA. *)
Lemma route_types_merged_and_deduplicated_witness :
  exists routes,
    (<["r" := Router "r"
         [{| route_name := EmptyString; route_class := EmptyString;
             route_types := ["A"; "AAAA"]; route_source := EmptyString;
             route_resolver := Upstream "a" (upstream_of "1.1.1.1:53");
             route_inverted := false |}]]> (upstreams ["a"]))
      !! "r" = Some (Router "r" routes) /\
    Forall2 (fun route cr =>
        route_type_list route
          = (if decide (rt_Type route = EmptyString) then rt_Types route
             else rt_Types route ++ [rt_Type route])%list /\
        route_types cr = remove_dups (route_type_list route) /\
        NoDup (route_types cr) /\
        (forall t, t ∈ route_types cr <->
           t ∈ rt_Types route \/ (rt_Type route <> EmptyString /\ t = rt_Type route)) /\
        (rt_Type route <> EmptyString -> forall q,
           route_matches_type cr q = true <-> q ∈ rt_Types route \/ q = rt_Type route))
      (rr_Routes sample_router) routes.
Proof.
  apply (route_types_merged_and_deduplicated (H := library_of (fun _ => inl "none"))
           "r" sample_router (upstreams ["a"])).
  vm_compute. reflexivity.
Defined.

(** ** Duplicate ids *)

(** C3. An id defined both as a resolver and as a group is not detected: the
    loop over [config.Resolvers] looks the id up in a map that holds resolver
    ids only, and the loops over groups and routers look it up in [deps],
    which holds no resolver id. On [clash_config], whatever the iteration
    order, [start] returns no duplicate-id error and goes on to serve: the
    group [x] has replaced the resolver [x] in the map of resolvers, and the
    listener is bound to the group. *)
Theorem duplicate_resolver_id_undetected :
  let lib := library_of (fun _ => inr clash_config) in
  let served :=
    Ok [DNSListener "l" ":53" "udp" {| AllowedNet := [] |}
          (Some (RoundRobin "x" [Upstream "x" (upstream_of "1.1.1.1:53")]))] in
  result (start (H := lib) (H0 := order_forward) default_options ["config.toml"])
    = served /\
  result (start (H := lib) (H0 := order_backward) default_options ["config.toml"])
    = served.
Proof. split; vm_compute; reflexivity. Qed.

(** ** Outcomes that are settled *)

Section settled_facts.
Context `{Library}.

Lemma settled_bind {A B} (x : outcome A) (f : A -> outcome B) :
  settled x -> (forall a, x = Ok a -> settled (f a)) -> settled (x ≫= f).
Proof. destruct x; simpl; auto. Qed.

Lemma settled_call {A} (fails : option string) (v : A) : settled (call fails v).
Proof. by destruct fails. Qed.

Lemma settled_of_sum {A} (x : string + A) : settled (of_sum x).
Proof. by destruct x. Qed.

Lemma settled_wrap_err {A} (w : error -> error) (x : outcome A) :
  x <> OutOfFuel -> (forall e, is_ref_error (w e) = false) -> settled (wrap_err w x).
Proof. destruct x; simpl; auto. Qed.

Lemma settled_not_fuel {A} (x : outcome A) : settled x -> x <> OutOfFuel.
Proof. by destruct x. Qed.

Lemma settled_for_each {A S} (f : S -> A -> outcome S) (l : list A) (s : S) :
  (forall s x, settled (f s x)) -> settled (for_each f l s).
Proof.
  intros Hf. revert s. induction l as [|x l IH]; intros s; simpl; [done|].
  apply settled_bind; auto.
Qed.

Lemma settled_index0 {A} (s : list A) : settled (index0 s).
Proof. by destruct s. Qed.

Lemma settled_one_resolver kind id gr : settled (one_resolver kind id gr).
Proof. unfold one_resolver. by case_match. Qed.

Lemma settled_loader_for l rules : settled (loader_for l rules).
Proof.
  unfold loader_for. apply settled_bind; [apply settled_of_sum|].
  intros loc _. by repeat case_match.
Qed.

Lemma settled_newBlocklistDB l rules : settled (newBlocklistDB l rules).
Proof.
  unfold newBlocklistDB. apply settled_bind; [apply settled_loader_for|].
  intros loader _. repeat case_match; try done; apply settled_call.
Qed.

Lemma settled_newIPBlocklistDB l loc rules : settled (newIPBlocklistDB l loc rules).
Proof.
  unfold newIPBlocklistDB. apply settled_bind; [apply settled_loader_for|].
  intros loader _. repeat case_match; try done; apply settled_call.
Qed.

Lemma settled_name_db id format rules sources :
  settled (name_db id format rules sources).
Proof.
  unfold name_db. case_match; [apply settled_newBlocklistDB|].
  apply settled_bind; [|intros; apply settled_call].
  apply settled_for_each. intros dbs s.
  apply settled_bind; [|done].
  apply settled_wrap_err; [|done].
  apply settled_not_fuel, settled_newBlocklistDB.
Qed.

Lemma settled_ip_db id format loc rules sources :
  settled (ip_db id format loc rules sources).
Proof.
  unfold ip_db. case_match; [apply settled_newIPBlocklistDB|].
  apply settled_bind; [|intros; apply settled_call].
  apply settled_for_each. intros dbs s.
  apply settled_bind; [|done].
  apply settled_wrap_err; [|done].
  apply settled_not_fuel, settled_newIPBlocklistDB.
Qed.

Lemma settled_ecs_func g : settled (ecs_func g).
Proof. unfold ecs_func. by repeat case_match. Qed.

Lemma settled_edns0_func g : settled (edns0_func g).
Proof. unfold edns0_func. by repeat case_match. Qed.

Ltac settle :=
  repeat first
    [ done
    | apply settled_call
    | apply settled_index0
    | apply settled_one_resolver
    | apply settled_name_db
    | apply settled_ip_db
    | apply settled_newBlocklistDB
    | apply settled_ecs_func
    | apply settled_edns0_func
    | apply settled_bind; [|intros ? _]
    | case_match ].

(** The [switch] of instantiateGroup never returns a missing-reference error. *)
Lemma settled_group_resolver id g gr rs : settled (group_resolver id g gr rs).
Proof. unfold group_resolver. settle. Qed.

End settled_facts.

(** ** Traces *)

Lemma result_bind {A B} (x : traced A) (f : A -> traced B) :
  result (x ≫= f)
  = match result x with
    | Ok a => result (f a)
    | Err e => Err e
    | Panic => Panic
    | OutOfFuel => OutOfFuel
    end.
Proof. unfold mbind, traced_bind, tbind. by destruct (result x). Qed.

Lemma trace_bind {A B} (x : traced A) (f : A -> traced B) :
  trace (x ≫= f)
  = (trace x ++ match result x with
                | Ok a => trace (f a)
                | _ => []
                end)%list.
Proof.
  unfold mbind, traced_bind, tbind.
  destruct (result x); simpl; by rewrite ?app_nil_r.
Qed.

Lemma tbind_Ok {A B} (x : traced A) (f : A -> traced B) (b : B) :
  result (x ≫= f) = Ok b ->
  exists a, result x = Ok a /\ result (f a) = Ok b /\
    trace (x ≫= f) = (trace x ++ trace (f a))%list.
Proof.
  rewrite result_bind, trace_bind. destruct (result x) as [a| | |]; try done.
  intros Hb. by exists a.
Qed.

Lemma tbind_Ok_l {A B} (x : traced A) (f : A -> traced B) (a : A) :
  result x = Ok a ->
  result (x ≫= f) = result (f a) /\ trace (x ≫= f) = (trace x ++ trace (f a))%list.
Proof. intros Hx. by rewrite result_bind, trace_bind, Hx. Qed.

Lemma tbind_not_Ok {A B} (x : traced A) (f : A -> traced B) :
  ~ is_Ok (result x) ->
  trace (x ≫= f) = trace x /\ ~ is_Ok (result (x ≫= f)) /\
  (forall y : outcome A, result x = y -> forall e, y = Err e -> result (x ≫= f) = Err e) /\
  (result x = Panic -> result (x ≫= f) = Panic) /\
  (result x = OutOfFuel -> result (x ≫= f) = OutOfFuel).
Proof.
  intros Hx. rewrite result_bind, trace_bind.
  destruct (result x) as [a| | |]; simpl; rewrite ?app_nil_r.
  - destruct Hx. by exists a.
  - repeat split; try done; [by intros [? ?]|]. intros y <- e' [= <-]. done.
  - repeat split; try done; [by intros [? ?]|]. by intros y <-.
  - repeat split; try done; [by intros [? ?]|]. by intros y <-.
Qed.

(** ** Instantiating a node *)

Section node_facts.
Context `{Library}.

Lemma instantiateGroup_Ok id g rs rs' :
  instantiateGroup id g rs = Ok rs' -> exists r, rs' = <[id := r]> rs.
Proof.
  unfold instantiateGroup.
  intros (gr & _ & (r & _ & [= <-])%obind_Ok)%obind_Ok. eauto.
Qed.

(** With its resolvers in the map, a group's instantiation does not end in
    a missing-reference error. *)
Lemma instantiateGroup_settled id g rs :
  Forall (fun d => is_Some (rs !! d)) (g_Resolvers g) ->
  settled (instantiateGroup id g rs).
Proof.
  intros (gr & Hgr)%(group_resolvers_present id). unfold instantiateGroup.
  rewrite Hgr. simpl. apply settled_bind; [apply settled_group_resolver|done].
Qed.

Lemma group_deps_resolvers g d : d ∈ g_Resolvers g -> d ∈ group_deps g.
Proof.
  intros Hd. unfold group_deps, append.
  repeat case_match; rewrite ?elem_of_app; tauto.
Qed.

Lemma router_routes_settled id (rs : gmap string Resolver) routes
    (acc : list (Route Resolver)) :
  Forall (fun rt => is_Some (rs !! rt_Resolver rt)) routes ->
  settled (for_each (fun routes route =>
      match rs !! rt_Resolver route with
      | None => Err (ErrRouterRef id (rt_Resolver route))
      | Some resolver =>
          r ← wrap_err (ErrRouteParse id)
                (NewRoute (rt_Name route) (rt_Class route) (route_type_list route)
                   (rt_Source route) resolver);
          Ok (append routes (Invert (rt_Invert route) r))
      end) routes acc).
Proof.
  intros Hall. revert acc. induction Hall as [|rt routes [r Hr] _ IH]; intros acc.
  - done.
  - simpl. rewrite Hr. apply settled_bind; [|intros; apply IH].
    apply settled_bind; [|done]. apply settled_wrap_err; [|done].
    unfold NewRoute. apply settled_not_fuel, settled_call.
Qed.

Lemma instantiateRouter_settled id r rs :
  Forall (fun rt => is_Some (rs !! rt_Resolver rt)) (rr_Routes r) ->
  settled (instantiateRouter id r rs).
Proof.
  intros Hall. unfold instantiateRouter.
  apply settled_bind; [by apply router_routes_settled|done].
Qed.

End node_facts.

(** ** Failures *)


Lemma failure_of_bind {A B} (x : traced A) (f : A -> traced B) (fl : failure) :
  failure_of (result (x ≫= f)) = Some fl ->
  failure_of (result x) = Some fl \/
  exists a, result x = Ok a /\ failure_of (result (f a)) = Some fl.
Proof. rewrite result_bind. destruct (result x); simpl; eauto. Qed.

Lemma failure_of_obind {A B} (x : outcome A) (f : A -> outcome B) (fl : failure) :
  failure_of (x ≫= f) = Some fl ->
  failure_of x = Some fl \/ exists a, x = Ok a /\ failure_of (f a) = Some fl.
Proof. destruct x; simpl; eauto. Qed.

Lemma settled_failure {A} (x : outcome A) :
  settled x <->
  forall fl, failure_of x = Some fl ->
    fl <> Exhausted /\ forall e, fl = Failed e -> is_ref_error e = false.
Proof.
  destruct x; simpl; split; try done.
  - intros He fl [= <-]. split; [done|]. by intros e' [= <-].
  - intros Hfl. by apply (Hfl (Failed e)).
  - intros _ fl [= <-]. done.
  - intros Hfl. by destruct (Hfl Exhausted eq_refl) as [[] _].
Qed.

(** A loop in the trace monad: what holds of the events of every step holds
    of the events of the loop, what every step preserves holds of the final
    state, and the loop fails only the way one of its steps does. *)
Lemma for_each_traced_inv {A S} (f : S -> A -> traced S)
    (I : S -> Prop) (Q : event -> Prop) (P : failure -> Prop) (l : list A) (s : S) :
  I s ->
  (forall s x, x ∈ l -> I s ->
     Forall Q (trace (f s x)) /\
     (forall s', result (f s x) = Ok s' -> I s') /\
     (forall fl, failure_of (result (f s x)) = Some fl -> P fl)) ->
  Forall Q (trace (for_each f l s)) /\
  (forall s', result (for_each f l s) = Ok s' -> I s') /\
  (forall fl, failure_of (result (for_each f l s)) = Some fl -> P fl).
Proof.
  revert s. induction l as [|x l IH]; intros s Hs Hstep.
  - simpl. repeat split; [constructor| |done]. by intros s' [= <-].
  - destruct (Hstep s x) as (HQ & HI & HP); [by left|done|].
    assert (Htail : forall s', I s' ->
              Forall Q (trace (for_each f l s')) /\
              (forall s'', result (for_each f l s') = Ok s'' -> I s'') /\
              (forall fl, failure_of (result (for_each f l s')) = Some fl -> P fl)).
    { intros s' Hs'. apply IH; [done|]. intros s0 y Hy. apply Hstep. by right. }
    change (for_each f (x :: l) s) with (f s x ≫= for_each f l).
    rewrite trace_bind, result_bind.
    destruct (result (f s x)) as [s1| | |] eqn:Hres.
    + destruct (Htail s1) as (HQ' & HI' & HP'); [by apply HI|].
      repeat split; [by apply Forall_app| done | done].
    + rewrite app_nil_r. repeat split; [done|done|]. intros fl Hfl. by apply HP.
    + rewrite app_nil_r. repeat split; [done|done|]. intros fl Hfl. by apply HP.
    + rewrite app_nil_r. repeat split; [done|done|]. intros fl Hfl. by apply HP.
Qed.

(** ** One node, one visit *)

Section visit_facts.
Context `{Library} (cfg : config).

Lemma result_instantiate_node id rs :
  result (instantiate_node cfg id rs)
  = (rs1 ← match Groups cfg !! id with
           | Some g => instantiateGroup id g rs
           | None => Ok rs
           end;
     match Routers cfg !! id with
     | Some r => instantiateRouter id r rs1
     | None => Ok rs1
     end).
Proof.
  unfold instantiate_node. rewrite result_bind.
  destruct (Groups cfg !! id) as [g|]; simpl.
  - destruct (instantiateGroup id g rs) as [rs1| | |]; simpl; try done.
    by destruct (Routers cfg !! id).
  - by destruct (Routers cfg !! id).
Qed.

Lemma trace_instantiate_node id rs :
  trace (instantiate_node cfg id rs)
  = (match Groups cfg !! id with
     | Some g => [EvInstantiateGroup id g rs]
     | None => []
     end ++
     match (match Groups cfg !! id with
            | Some g => instantiateGroup id g rs
            | None => Ok rs
            end), Routers cfg !! id with
     | Ok rs1, Some r => [EvInstantiateRouter id r rs1]
     | _, _ => []
     end)%list.
Proof.
  unfold instantiate_node. rewrite trace_bind.
  destruct (Groups cfg !! id) as [g|]; simpl.
  - destruct (instantiateGroup id g rs) as [rs1| | |]; simpl; try done.
    by destruct (Routers cfg !! id).
  - by destruct (Routers cfg !! id).
Qed.

(** Instantiating a node changes the map of resolvers at most under the
    node's id. *)
Lemma instantiate_node_Ok id rs rs' :
  result (instantiate_node cfg id rs) = Ok rs' ->
  (forall k, k <> id -> rs' !! k = rs !! k) /\
  (forall k, is_Some (rs !! k) -> is_Some (rs' !! k)).
Proof.
  rewrite result_instantiate_node. intros (rs1 & H1 & H2)%obind_Ok.
  assert (Hrs1 : rs1 = rs \/ exists r, rs1 = <[id := r]> rs).
  { destruct (Groups cfg !! id); [|left; congruence].
    right. by eapply instantiateGroup_Ok. }
  assert (Hrs' : rs' = rs1 \/ exists r, rs' = <[id := r]> rs1).
  { destruct (Routers cfg !! id); [|left; congruence].
    right. apply instantiateRouter_Ok in H2 as (routes & -> & _). eauto. }
  split.
  - intros k Hk.
    destruct Hrs' as [->|[r ->]], Hrs1 as [->|[r1 ->]];
      by rewrite ?lookup_insert_ne.
  - intros k Hsome.
    destruct Hrs' as [->|[r ->]], Hrs1 as [->|[r1 ->]]; try done;
      destruct (decide (id = k)) as [->|];
      rewrite ?lookup_insert_eq, ?lookup_insert_ne by done; eauto.
Qed.

Lemma result_visit deps rs found id ds :
  result (visit cfg (deps, rs, found) (id, ds))
  = if ready rs ds
    then rs' ← result (instantiate_node cfg id rs); Ok (delete id deps, rs', true)
    else Ok (deps, rs, found).
Proof.
  unfold visit. destruct (ready rs ds); [|done].
  rewrite result_bind. by destruct (result (instantiate_node cfg id rs)).
Qed.

Lemma trace_visit deps rs found id ds :
  trace (visit cfg (deps, rs, found) (id, ds))
  = if ready rs ds then trace (instantiate_node cfg id rs) else [].
Proof.
  unfold visit. destruct (ready rs ds); [|done].
  rewrite trace_bind.
  destruct (result (instantiate_node cfg id rs)); simpl; by rewrite app_nil_r.
Qed.

Lemma ready_spec (rs : gmap string Resolver) ds :
  ready rs ds = true <-> Forall (fun d => is_Some (rs !! d)) ds.
Proof.
  unfold ready. rewrite forallb_forall, Forall_forall.
  split; intros Hall d Hd.
  - apply list_elem_of_In, Hall in Hd. unfold has_key in Hd.
    by apply bool_decide_eq_true in Hd.
  - apply list_elem_of_In, Hall in Hd. unfold has_key.
    by apply bool_decide_eq_true.
Qed.

(** What a visit leaves behind when it returns. *)
Lemma visit_Ok deps rs found id ds deps' rs' found' :
  result (visit cfg (deps, rs, found) (id, ds)) = Ok (deps', rs', found') ->
  (ready rs ds = false /\ deps' = deps /\ rs' = rs /\ found' = found) \/
  (ready rs ds = true /\ deps' = delete id deps /\ found' = true /\
   (forall k, k <> id -> rs' !! k = rs !! k) /\
   (forall k, is_Some (rs !! k) -> is_Some (rs' !! k))).
Proof.
  rewrite result_visit. destruct (ready rs ds).
  - intros (rs1 & Hnode & [= <- <- <-])%obind_Ok. right.
    apply instantiate_node_Ok in Hnode as [? ?]. done.
  - intros [= <- <- <-]. by left.
Qed.

(** The events of a visit: instantiations of the visited node, made when its
    dependencies are all in the map. *)
Lemma visit_events deps rs found id ds e :
  e ∈ trace (visit cfg (deps, rs, found) (id, ds)) ->
  ready rs ds = true /\
  ((exists g, Groups cfg !! id = Some g /\ e = EvInstantiateGroup id g rs) \/
   (exists r rs1, Routers cfg !! id = Some r /\ e = EvInstantiateRouter id r rs1 /\
      (Groups cfg !! id = None -> rs1 = rs) /\
      (forall k, is_Some (rs !! k) -> is_Some (rs1 !! k)))).
Proof.
  rewrite trace_visit. destruct (ready rs ds); [|by intros ?%elem_of_nil].
  rewrite trace_instantiate_node. intros [He|He]%elem_of_app; split; try done.
  - destruct (Groups cfg !! id) as [g|]; [|by apply elem_of_nil in He].
    apply list_elem_of_singleton in He. left. eauto.
  - right. destruct (Groups cfg !! id) as [g|] eqn:Hg.
    + destruct (instantiateGroup id g rs) as [rs1| | |] eqn:Hinst;
        try (by apply elem_of_nil in He).
      destruct (Routers cfg !! id) as [r|]; [|by apply elem_of_nil in He].
      apply list_elem_of_singleton in He. exists r, rs1.
      repeat split; try done.
      apply instantiateGroup_Ok in Hinst as [r1 ->]. intros k Hk.
      destruct (decide (id = k)) as [->|];
        rewrite ?lookup_insert_eq, ?lookup_insert_ne by done; eauto.
    + destruct (Routers cfg !! id) as [r|]; [|by apply elem_of_nil in He].
      apply list_elem_of_singleton in He. exists r, rs. done.
Qed.

(** A visit fails only the way the instantiation of the visited node does. *)
Lemma visit_failure deps rs found id ds fl :
  failure_of (result (visit cfg (deps, rs, found) (id, ds))) = Some fl ->
  ready rs ds = true /\
  ((exists g, Groups cfg !! id = Some g /\
      failure_of (instantiateGroup id g rs) = Some fl) \/
   (exists r rs1, Routers cfg !! id = Some r /\
      (Groups cfg !! id = None -> rs1 = rs) /\
      (forall k, is_Some (rs !! k) -> is_Some (rs1 !! k)) /\
      failure_of (instantiateRouter id r rs1) = Some fl)).
Proof.
  rewrite result_visit. destruct (ready rs ds); [|done].
  intros [Hfl|(rs' & _ & Hfl)]%failure_of_obind; [|done]. split; [done|].
  rewrite result_instantiate_node in Hfl.
  apply failure_of_obind in Hfl as [Hfl|(rs1 & Hrs1 & Hfl)].
  - destruct (Groups cfg !! id) as [g|]; [|done]. left. eauto.
  - destruct (Routers cfg !! id) as [r|]; [|done]. right. exists r, rs1.
    repeat split; try done.
    + intros Hg. rewrite Hg in Hrs1. congruence.
    + destruct (Groups cfg !! id) as [g|]; [|by injection Hrs1 as ->].
      apply instantiateGroup_Ok in Hrs1 as [r1 ->]. intros k Hk.
      destruct (decide (id = k)) as [->|];
        rewrite ?lookup_insert_eq, ?lookup_insert_ne by done; eauto.
Qed.

End visit_facts.

(** ** One pass *)

Section pass_facts.
Context `{Library} `{MapOrder} (cfg : config).

Lemma elem_of_range {A} (site : loop_site) (m : gmap string A) k v :
  (k, v) ∈ range site m <-> m !! k = Some v.
Proof. unfold range. rewrite range_order_perm. apply elem_of_map_to_list. Qed.

Lemma length_range {A} (site : loop_site) (m : gmap string A) :
  length (range site m) = size m.
Proof. unfold range. rewrite range_order_perm. apply length_map_to_list. Qed.

Lemma trace_pass n deps rs :
  trace (pass cfg n deps rs)
  = EvPass n :: trace (for_each (visit cfg) (range (RangeDeps n) deps)
                         (deps, rs, false)).
Proof.
  unfold pass. by rewrite trace_bind.
Qed.

Lemma result_pass n deps rs :
  result (pass cfg n deps rs)
  = result (for_each (visit cfg) (range (RangeDeps n) deps) (deps, rs, false)).
Proof. unfold pass. by rewrite result_bind. Qed.

(** Reasoning on a pass by what every visit of an entry of [deps] does. *)
Lemma pass_inv (I : pass_state -> Prop) (Q : event -> Prop) (P : failure -> Prop)
    n deps rs :
  I (deps, rs, false) ->
  (forall st id ds, deps !! id = Some ds -> I st ->
     Forall Q (trace (visit cfg st (id, ds))) /\
     (forall st', result (visit cfg st (id, ds)) = Ok st' -> I st') /\
     (forall fl, failure_of (result (visit cfg st (id, ds))) = Some fl -> P fl)) ->
  (exists t, trace (pass cfg n deps rs) = EvPass n :: t /\ Forall Q t) /\
  (forall st', result (pass cfg n deps rs) = Ok st' -> I st') /\
  (forall fl, failure_of (result (pass cfg n deps rs)) = Some fl -> P fl).
Proof.
  intros Hinit Hstep. rewrite trace_pass, result_pass.
  destruct (for_each_traced_inv (visit cfg) I Q P
              (range (RangeDeps n) deps) (deps, rs, false)) as (HQ & HI & HP);
    [done| |eauto].
  intros st [id ds] Hin%elem_of_range. by apply Hstep.
Qed.

(** A pass only removes entries, and a pass that found a node removed one. *)
Lemma pass_progress n deps rs deps' rs' found' :
  result (pass cfg n deps rs) = Ok (deps', rs', found') ->
  deps' ⊆ deps /\ (found' = true -> (size deps' < size deps)%nat).
Proof.
  intros Hres.
  destruct (pass_inv
    (fun st => st.1.1 ⊆ deps /\
       (st.2 = true -> exists k, is_Some (deps !! k) /\ st.1.1 !! k = None))
    (fun _ => True) (fun _ => True) n deps rs) as (_ & HI & _).
  - simpl. done.
  - intros [[d r] f] id ds Hid [Hsub Hfound]. simpl in *.
    split; [by apply Forall_true|]. split; [|done].
    intros [[d' r'] f'] Hv. simpl.
    apply visit_Ok in Hv as [(_ & -> & _ & ->)|(_ & -> & -> & _)]; [done|].
    split; [etrans; [apply delete_subseteq|done]|].
    intros _. exists id. split; [by eexists|]. apply lookup_delete_eq.
  - apply HI in Hres as [Hsub Hfound]. simpl in *. split; [done|].
    intros Hf. destruct (Hfound Hf) as (k & [ds Hk] & Hk').
    apply map_subset_size. split; [done|].
    intros Hsup. eapply lookup_weaken in Hk; [|exact Hsup]. congruence.
Qed.

(** The events of a visit are not pass markers, nor listener events. *)
Lemma visit_events_kind st e ev :
  ev ∈ trace (visit cfg st e) -> is_pass ev = false /\ is_listener_event ev = false.
Proof.
  destruct st as [[d r] f], e as [id ds].
  intros [_ [(g & _ & ->)|(r0 & rs1 & _ & -> & _)]]%visit_events; done.
Qed.

Lemma instantiateGroup_not_exhausted id g rs :
  failure_of (instantiateGroup id g rs) <> Some Exhausted.
Proof.
  unfold instantiateGroup.
  destruct (group_resolvers_Ok_or_Err id (g_Resolvers g) rs)
    as [[gr ->]|[rid ->]]; simpl; [|done].
  pose proof (settled_group_resolver id g gr rs) as Hs.
  by destruct (group_resolver id g gr rs).
Qed.

Lemma router_routes_not_exhausted id (rs : gmap string Resolver) routes
    (acc : list (Route Resolver)) :
  for_each (fun routes route =>
      match rs !! rt_Resolver route with
      | None => Err (ErrRouterRef id (rt_Resolver route))
      | Some resolver =>
          r ← wrap_err (ErrRouteParse id)
                (NewRoute (rt_Name route) (rt_Class route) (route_type_list route)
                   (rt_Source route) resolver);
          Ok (append routes (Invert (rt_Invert route) r))
      end) routes acc <> OutOfFuel.
Proof.
  revert acc. induction routes as [|rt routes IH]; intros acc; [done|].
  simpl. destruct (rs !! rt_Resolver rt); [|done].
  unfold NewRoute. destruct (NewRoute_fails _ _ _ _); simpl; [done|]. apply IH.
Qed.

Lemma instantiateRouter_not_exhausted id r rs :
  failure_of (instantiateRouter id r rs) <> Some Exhausted.
Proof.
  unfold instantiateRouter.
  pose proof (router_routes_not_exhausted id rs (rr_Routes r) []) as Hr.
  by destruct (for_each _ (rr_Routes r) []).
Qed.

Lemma visit_not_exhausted st e :
  failure_of (result (visit cfg st e)) <> Some Exhausted.
Proof.
  destruct st as [[d r] f], e as [id ds].
  intros [_ [(g & _ & Hfl)|(r0 & rs1 & _ & _ & _ & Hfl)]]%visit_failure.
  - by apply instantiateGroup_not_exhausted in Hfl.
  - by apply instantiateRouter_not_exhausted in Hfl.
Qed.

Lemma pass_not_exhausted n deps rs :
  failure_of (result (pass cfg n deps rs)) <> Some Exhausted.
Proof.
  destruct (pass_inv (fun _ => True) (fun _ => True) (fun fl => fl <> Exhausted)
              n deps rs) as (_ & _ & HP); [done| |].
  - intros st id ds _ _. split; [by apply Forall_true|]. split; [done|].
    intros fl Hfl ->. by apply visit_not_exhausted in Hfl.
  - intros Hfl. by apply HP in Hfl.
Qed.

Lemma pass_events n deps rs :
  exists t, trace (pass cfg n deps rs) = EvPass n :: t /\
    Forall (fun ev => is_pass ev = false /\ is_listener_event ev = false) t.
Proof.
  destruct (pass_inv (fun _ => True)
              (fun ev => is_pass ev = false /\ is_listener_event ev = false)
              (fun _ => True) n deps rs) as (Ht & _ & _); [done| |done].
  intros st id ds _ _. split; [|done].
  apply Forall_forall. intros ev. apply visit_events_kind.
Qed.

End pass_facts.

(** ** The dependency loop *)

Section resolve_facts.
Context `{Library} `{MapOrder} (cfg : config).

Lemma resolve_done fuel n deps rs :
  size deps = 0%nat -> resolve fuel cfg n deps rs = mret rs.
Proof. intros Hsize. destruct fuel; simpl; by rewrite Hsize. Qed.

Lemma resolve_step fuel n deps rs :
  (0 < size deps)%nat ->
  resolve (S fuel) cfg n deps rs
  = (st ← pass cfg n deps rs;
     let '(deps', rs', found) := st in
     if found : bool then resolve fuel cfg (S n) deps' rs'
     else lift (Err ErrUnableToResolve)).
Proof. intros Hsize%Nat.ltb_lt. simpl. by rewrite Hsize. Qed.

Lemma resolve_no_fuel n deps rs :
  (0 < size deps)%nat -> resolve 0 cfg n deps rs = lift OutOfFuel.
Proof. intros Hsize%Nat.ltb_lt. simpl. by rewrite Hsize. Qed.

(** Reasoning on the loop by what every pass does: [J] holds of [deps] and
    [resolvers] before each pass, [Q] of every event, and the loop fails only
    the way a pass does, or for want of progress, or of budget. *)
Lemma resolve_inv (J : gmap string (list string) -> gmap string Resolver -> Prop)
    (Q : event -> Prop) (P : failure -> Prop) :
  (forall n, Q (EvPass n)) ->
  P (Failed ErrUnableToResolve) ->
  P Exhausted ->
  (forall n deps rs, J deps rs ->
     (exists t, trace (pass cfg n deps rs) = EvPass n :: t /\ Forall Q t) /\
     (forall st', result (pass cfg n deps rs) = Ok st' -> J st'.1.1 st'.1.2) /\
     (forall fl, failure_of (result (pass cfg n deps rs)) = Some fl -> P fl)) ->
  forall fuel n deps rs, J deps rs ->
    Forall Q (trace (resolve fuel cfg n deps rs)) /\
    (forall rs', result (resolve fuel cfg n deps rs) = Ok rs' ->
       exists deps', size deps' = 0%nat /\ J deps' rs') /\
    (forall fl, failure_of (result (resolve fuel cfg n deps rs)) = Some fl -> P fl).
Proof.
  intros HQpass HPunable HPfuel Hpass.
  induction fuel as [|fuel IH]; intros n deps rs HJ.
  - destruct (decide (size deps = 0%nat)) as [Hz|Hnz].
    + rewrite resolve_done by done. simpl. repeat split; [constructor| |done].
      intros rs' [= <-]. eauto.
    + rewrite resolve_no_fuel by lia. simpl. repeat split; [constructor|done|].
      by intros fl [= <-].
  - destruct (decide (size deps = 0%nat)) as [Hz|Hnz].
    + rewrite resolve_done by done. simpl. repeat split; [constructor| |done].
      intros rs' [= <-]. eauto.
    + rewrite resolve_step by lia.
      destruct (Hpass n deps rs HJ) as ((t & Ht & HQt) & HJ' & HP').
      rewrite trace_bind, Ht, (result_bind (pass cfg n deps rs)).
      destruct (result (pass cfg n deps rs)) as [[[d' r'] f']| | |] eqn:Hres.
      * destruct f'.
        -- destruct (IH (S n) d' r') as (HQ'' & HJ'' & HP'');
             [by apply (HJ' (d', r', true))|].
           repeat split; [|done|done].
           constructor; [done|]. by apply Forall_app.
        -- simpl. rewrite app_nil_r. repeat split; [by constructor|done|].
           by intros fl [= <-].
      * rewrite app_nil_r. repeat split; [by constructor|done|]. apply HP'.
      * rewrite app_nil_r. repeat split; [by constructor|done|]. apply HP'.
      * rewrite app_nil_r. repeat split; [by constructor|done|]. apply HP'.
Qed.

Lemma passes_app t1 t2 : passes (t1 ++ t2) = (passes t1 + passes t2)%nat.
Proof. unfold passes. by rewrite filter_app, length_app. Qed.

Lemma passes_none t : Forall (fun ev => is_pass ev = false) t -> passes t = 0%nat.
Proof.
  unfold passes. induction 1 as [|ev t Hev _ IH]; [done|].
  rewrite filter_cons. by destruct (decide (is_pass ev)) as [Ht|_]; [rewrite Hev in Ht|].
Qed.

(** The loop makes at most [size deps] passes and a budget of [size deps]
    passes is never exhausted. *)
Lemma resolve_fuel fuel n deps rs :
  (size deps <= fuel)%nat ->
  failure_of (result (resolve fuel cfg n deps rs)) <> Some Exhausted /\
  (passes (trace (resolve fuel cfg n deps rs)) <= size deps)%nat.
Proof.
  revert n deps rs. induction fuel as [|fuel IH]; intros n deps rs Hfuel.
  - rewrite resolve_done by lia. simpl. split; [done|]. unfold passes. simpl. lia.
  - destruct (decide (size deps = 0%nat)) as [Hz|Hnz].
    + rewrite resolve_done by done. simpl. split; [done|]. unfold passes. simpl. lia.
    + rewrite resolve_step by lia.
      destruct (pass_events cfg n deps rs) as (t & Ht & Hkind).
      pose proof (pass_not_exhausted cfg n deps rs) as Hne.
      rewrite trace_bind, Ht, (result_bind (pass cfg n deps rs)).
      assert (Hpt : passes (EvPass n :: t) = 1%nat).
      { change (EvPass n :: t) with ([EvPass n] ++ t)%list.
        rewrite passes_app, (passes_none t); [done|].
        eapply Forall_impl; [exact Hkind|]. by intros ev [? _]. }
      destruct (result (pass cfg n deps rs)) as [[[d' r'] f']| | |] eqn:Hres;
        rewrite ?app_nil_r, ?Hpt; try (split; [done|lia]).
      apply pass_progress in Hres as [_ Hlt].
      destruct f'.
      * destruct (IH (S n) d' r') as [Hne' Hp']; [specialize (Hlt eq_refl); lia|].
        split; [done|]. rewrite passes_app, Hpt. specialize (Hlt eq_refl). lia.
      * simpl. rewrite app_nil_r, Hpt. split; [done|lia].
Qed.

(** Any budget of at least [size deps] passes gives the same run. *)
Lemma resolve_fuel_irrelevant fuel1 fuel2 n deps rs :
  (size deps <= fuel1)%nat -> (size deps <= fuel2)%nat ->
  resolve fuel1 cfg n deps rs = resolve fuel2 cfg n deps rs.
Proof.
  revert fuel2 n deps rs.
  induction fuel1 as [|fuel1 IH]; intros fuel2 n deps rs H1 H2.
  - by rewrite !resolve_done by lia.
  - destruct (decide (size deps = 0%nat)) as [Hz|Hnz];
      [by rewrite !resolve_done by done|].
    destruct fuel2 as [|fuel2]; [lia|].
    rewrite !resolve_step by lia.
    unfold mbind, traced_bind, tbind.
    destruct (result (pass cfg n deps rs)) as [[[d' r'] f']| | |] eqn:Hres; try done.
    destruct f'; [|done].
    apply pass_progress in Hres as [_ Hlt]. specialize (Hlt eq_refl).
    by rewrite (IH fuel2) by lia.
Qed.

End resolve_facts.

(** ** The dependency map *)

Section deps_facts.
Context `{MapOrder}.

Lemma NoDup_range {A} (site : loop_site) (m : gmap string A) :
  NoDup (range site m).*1.
Proof.
  unfold range. rewrite range_order_perm. apply NoDup_fst_map_to_list.
Qed.

Lemma add_group_Ok deps id g d :
  add_group deps (id, g) = Ok d -> deps !! id = None /\ d = <[id := group_deps g]> deps.
Proof.
  unfold add_group, has_key. case_bool_decide as Hk; [done|].
  intros [= <-]. split; [|done]. by apply eq_None_not_Some.
Qed.

Lemma add_group_fold l acc d :
  for_each add_group l acc = Ok d ->
  (forall id v, acc !! id = Some v -> d !! id = Some v) /\
  (forall id g, (id, g) ∈ l -> d !! id = Some (group_deps g)) /\
  (forall id v, d !! id = Some v ->
     acc !! id = Some v \/ exists g, (id, g) ∈ l /\ v = group_deps g).
Proof.
  revert acc. induction l as [|[id0 g0] l IH]; intros acc.
  - simpl. intros [= <-]. repeat split; [done| |by left].
    by intros id g ?%elem_of_nil.
  - simpl. intros (acc' & [Hnone ->]%add_group_Ok & Hrest)%obind_Ok.
    destruct (IH _ Hrest) as (Hkeep & Hin & Hout).
    assert (Hid0 : d !! id0 = Some (group_deps g0))
      by (apply Hkeep, lookup_insert_eq).
    repeat split.
    + intros id v Hv. apply Hkeep. rewrite lookup_insert_ne; [done|congruence].
    + intros id g [[= -> ->]|Hl]%elem_of_cons; [done|by apply Hin].
    + intros id v Hv. destruct (Hout id v Hv) as [Hacc|(g & Hg & ->)].
      * destruct (decide (id0 = id)) as [->|Hne].
        -- rewrite lookup_insert_eq in Hacc. injection Hacc as <-.
           right. exists g0. split; [by left|done].
        -- rewrite lookup_insert_ne in Hacc by done. by left.
      * right. exists g. split; [by right|done].
Qed.

Lemma add_route_fold id (acc : gmap string (list string)) routes :
  foldl (add_route id) acc routes
  = if nonempty routes
    then <[id := (default [] (acc !! id) ++ (rt_Resolver <$> routes))%list]> acc
    else acc.
Proof.
  revert acc. induction routes as [|rt routes IH]; intros acc; [done|].
  change (foldl (add_route id) acc (rt :: routes))
    with (foldl (add_route id) (add_route id acc rt) routes).
  rewrite IH. destruct routes as [|rt' routes]; [done|].
  change (nonempty (rt' :: routes)) with true.
  change (nonempty (rt :: rt' :: routes)) with true.
  cbv iota. unfold add_route, append.
  rewrite lookup_insert_eq, insert_insert_eq. simpl.
  by rewrite <- app_assoc.
Qed.

Lemma add_router_Ok deps id r d :
  add_router deps (id, r) = Ok d ->
  deps !! id = None /\
  d = if nonempty (rr_Routes r) then <[id := router_deps r]> deps else deps.
Proof.
  unfold add_router, has_key. case_bool_decide as Hk; [done|].
  intros [= <-]. apply eq_None_not_Some in Hk. split; [done|].
  rewrite add_route_fold, Hk. done.
Qed.

Lemma add_router_fold l acc d :
  NoDup l.*1 ->
  for_each add_router l acc = Ok d ->
  (forall id r, (id, r) ∈ l ->
     acc !! id = None /\
     d !! id = if nonempty (rr_Routes r) then Some (router_deps r) else None) /\
  (forall id, id ∉ l.*1 -> d !! id = acc !! id).
Proof.
  revert acc. induction l as [|[id0 r0] l IH]; intros acc Hnd.
  - simpl. intros [= <-]. split; [|done]. by intros id r ?%elem_of_nil.
  - simpl. intros (acc' & [Hnone Hacc']%add_router_Ok & Hrest)%obind_Ok.
    apply NoDup_cons in Hnd as [Hnotin Hnd].
    destruct (IH _ Hnd Hrest) as (Hin & Hout).
    assert (Hother : forall id, id <> id0 -> acc' !! id = acc !! id).
    { intros id Hne. rewrite Hacc'. case_match; [|done].
      by rewrite lookup_insert_ne. }
    split.
    + intros id r [[= -> ->]|Hl]%elem_of_cons.
      * split; [done|]. rewrite (Hout id0 Hnotin), Hacc'.
        case_match; [apply lookup_insert_eq|done].
      * destruct (Hin id r Hl) as [Ha Hd]. split; [|done].
        rewrite <- Hother; [done|]. intros ->. apply Hnotin.
        apply list_elem_of_fmap. by exists (id0, r).
    + intros id [Hne Hl]%not_elem_of_cons. simpl in Hne.
      rewrite (Hout id Hl). by apply Hother.
Qed.

(** The dependency map [start] builds: no id names both a group and a
    router, and the entry of each id is [node_deps]. *)
Lemma build_deps_spec cfg deps :
  build_deps cfg = Ok deps ->
  groups_routers_disjoint cfg /\ forall id, deps !! id = node_deps cfg id.
Proof.
  unfold build_deps. intros (d1 & Hgroups & Hrouters)%obind_Ok.
  apply add_group_fold in Hgroups as (_ & Hgin & Hgout).
  apply add_router_fold in Hrouters as (Hrin & Hrout); [|apply NoDup_range].
  assert (Hd1 : forall id, d1 !! id = group_deps <$> Groups cfg !! id).
  { intros id. destruct (Groups cfg !! id) as [g|] eqn:Hg; simpl.
    - by apply Hgin, elem_of_range.
    - destruct (d1 !! id) as [v|] eqn:Hv; [|done].
      destruct (Hgout id v Hv) as [?|(g & Hin%elem_of_range & _)]; [done|].
      congruence. }
  assert (Hdisj : groups_routers_disjoint cfg).
  { intros id. destruct (Routers cfg !! id) as [r|] eqn:Hr; [|by right].
    left. apply elem_of_range with (site := RangeRouters) in Hr.
    destruct (Hrin id r Hr) as [Hnone _]. rewrite Hd1 in Hnone.
    by destruct (Groups cfg !! id). }
  split; [done|]. intros id. unfold node_deps.
  destruct (Routers cfg !! id) as [r|] eqn:Hr.
  - destruct (Hdisj id) as [Hg|Hg]; [|congruence]. rewrite Hg.
    apply elem_of_range with (site := RangeRouters) in Hr.
    by destruct (Hrin id r Hr) as [_ ->].
  - rewrite Hrout, Hd1; [by destruct (Groups cfg !! id)|].
    intros ([id' r] & -> & Hin%elem_of_range)%list_elem_of_fmap. simpl in Hr.
    congruence.
Qed.

Lemma build_deps_consistent cfg deps :
  build_deps cfg = Ok deps -> consistent cfg deps.
Proof.
  intros [Hdisj Hdeps]%build_deps_spec. split; [done|].
  intros id ds Hid. by rewrite <- Hdeps.
Qed.

(** The dependency map has at most one entry per group and per router. *)
Lemma build_deps_size cfg deps :
  build_deps cfg = Ok deps ->
  (size deps <= size (Groups cfg) + size (Routers cfg))%nat.
Proof.
  intros [_ Hdeps]%build_deps_spec.
  rewrite <- !(size_dom (D := gset string)).
  transitivity (size (dom (Groups cfg) ∪ dom (Routers cfg) : gset string)).
  - apply subseteq_size. intros id [ds Hid]%elem_of_dom.
    rewrite Hdeps in Hid. unfold node_deps in Hid. apply elem_of_union.
    destruct (Groups cfg !! id) eqn:Hg; [left; by apply elem_of_dom|].
    destruct (Routers cfg !! id) eqn:Hr; [right; by apply elem_of_dom|done].
  - rewrite size_union_alt. apply Nat.add_le_mono_l, subseteq_size.
    intros x Hx. by apply elem_of_difference in Hx as [? _].
Qed.

(** build_deps fails only with a duplicate name. *)
Lemma build_deps_failure cfg fl :
  failure_of (build_deps cfg) = Some fl -> exists id, fl = Failed (ErrDuplicateName id).
Proof.
  assert (Hfold : forall {A} (f : gmap string (list string) -> string * A
                               -> outcome (gmap string (list string))) l acc,
            (forall d e fl, failure_of (f d e) = Some fl ->
               exists id, fl = Failed (ErrDuplicateName id)) ->
            failure_of (for_each f l acc) = Some fl ->
            exists id, fl = Failed (ErrDuplicateName id)).
  { intros A f l. induction l as [|e l IH]; intros acc Hf; [done|].
    simpl. intros [Hfl|(d & _ & Hfl)]%failure_of_obind; eauto. }
  unfold build_deps. intros [Hfl|(d & _ & Hfl)]%failure_of_obind.
  - eapply Hfold; [|exact Hfl]. intros d [id g] fl'. unfold add_group.
    case_match; [|done]. intros [= <-]. eauto.
  - eapply Hfold; [|exact Hfl]. intros d' [id r] fl'. unfold add_router.
    case_match; [|done]. intros [= <-]. eauto.
Qed.

End deps_facts.

(** ** The steps before the loop *)

Section early_facts.
Context `{Library} `{MapOrder}.

Lemma bootstrap_spec cfg :
  Forall (fun ev => is_early_event ev = true) (trace (bootstrap cfg)) /\
  (forall fl, failure_of (result (bootstrap cfg)) = Some fl ->
     exists e, fl = Failed e /\ is_early_error e = true).
Proof.
  unfold bootstrap, resolverFromConfig. case_match; [|by split; [constructor|]].
  rewrite trace_bind, result_bind. simpl.
  destruct (resolverFromConfig_fails _ _) as [msg|]; simpl.
  - split; [by repeat constructor|]. intros fl [= <-]. eauto.
  - split; [by repeat constructor|]. done.
Qed.

Lemma add_resolver_spec rs id r :
  Forall (fun ev => is_early_event ev = true) (trace (add_resolver rs (id, r))) /\
  (forall rs', result (add_resolver rs (id, r)) = Ok rs' ->
     exists res, rs' = <[id := res]> rs) /\
  (forall fl, failure_of (result (add_resolver rs (id, r))) = Some fl ->
     exists e, fl = Failed e /\ is_early_error e = true).
Proof.
  unfold add_resolver, resolverFromConfig. case_match.
  - simpl. repeat split; [constructor|done|]. intros fl [= <-]. eauto.
  - rewrite trace_bind, result_bind. simpl.
    destruct (resolverFromConfig_fails _ _) as [msg|]; simpl.
    + repeat split; [by repeat constructor|done|]. intros fl [= <-]. eauto.
    + repeat split; [by repeat constructor| |done]. intros rs' [= <-]. eauto.
Qed.

(** The loop over [config.Resolvers] puts resolver ids only in the map. *)
Lemma add_resolvers_spec cfg :
  Forall (fun ev => is_early_event ev = true)
    (trace (for_each add_resolver (range RangeResolvers (Resolvers cfg)) ∅)) /\
  (forall rs, result (for_each add_resolver
                        (range RangeResolvers (Resolvers cfg)) ∅) = Ok rs ->
     forall k, is_Some (rs !! k) -> is_Some (Resolvers cfg !! k)) /\
  (forall fl, failure_of (result (for_each add_resolver
                (range RangeResolvers (Resolvers cfg)) ∅)) = Some fl ->
     exists e, fl = Failed e /\ is_early_error e = true).
Proof.
  apply (for_each_traced_inv add_resolver
           (fun rs => forall k, is_Some (rs !! k) -> is_Some (Resolvers cfg !! k))).
  - intros k. rewrite lookup_empty. by intros [? ?].
  - intros rs [id r] Hin%elem_of_range Hrs.
    destruct (add_resolver_spec rs id r) as (HQ & HOk & HP).
    split; [done|]. split; [|done].
    intros rs' (res & ->)%HOk k.
    destruct (decide (id = k)) as [<-|Hne].
    + intros _. by eexists.
    + rewrite lookup_insert_ne by done. apply Hrs.
Qed.

(** [build_resolvers] either fails in a step before the loop, or is the run
    of the loop on the dependency map and the resolvers of the configuration. *)
Lemma build_resolvers_cases cfg :
  (Forall (fun ev => is_early_event ev = true) (trace (build_resolvers cfg)) /\
   exists e, result (build_resolvers cfg) = Err e /\ is_early_error e = true) \/
  (exists t0 rs0 deps,
     Forall (fun ev => is_early_event ev = true) t0 /\
     (forall k, is_Some (rs0 !! k) -> is_Some (Resolvers cfg !! k)) /\
     build_deps cfg = Ok deps /\
     trace (build_resolvers cfg)
       = (t0 ++ trace (resolve (size deps) cfg 0 deps rs0))%list /\
     result (build_resolvers cfg) = result (resolve (size deps) cfg 0 deps rs0)).
Proof.
  unfold build_resolvers.
  destruct (bootstrap_spec cfg) as [HQb HPb].
  destruct (add_resolvers_spec cfg) as (HQr & HIr & HPr).
  rewrite trace_bind, result_bind.
  destruct (result (bootstrap cfg)) as [[]| | |] eqn:Hb.
  2-4: left; rewrite app_nil_r; split; [done|];
       destruct (HPb _ eq_refl) as (e' & Hfl & He); simplify_eq; eauto.
  rewrite trace_bind, result_bind.
  set (rsx := for_each add_resolver (range RangeResolvers (Resolvers cfg)) ∅) in *.
  destruct (result rsx) as [rs0| | |] eqn:Hrs.
  2-4: left; rewrite app_nil_r; split; [by apply Forall_app|];
       destruct (HPr _ eq_refl) as (e' & Hfl & He); simplify_eq; eauto.
  rewrite trace_bind, result_bind. simpl.
  destruct (build_deps cfg) as [deps| | |] eqn:Hdeps.
  - right. exists (trace (bootstrap cfg) ++ trace rsx)%list, rs0, deps.
    split; [by apply Forall_app|]. split; [by apply HIr|]. split; [done|].
    split; [by rewrite app_assoc|done].
  - left. rewrite !app_nil_r. split; [by apply Forall_app|].
    destruct (build_deps_failure cfg (Failed e)) as [id [= ->]];
      [by rewrite Hdeps|]. eauto.
  - by destruct (build_deps_failure cfg Panicked) as [id ?];
      [by rewrite Hdeps|].
  - by destruct (build_deps_failure cfg Exhausted) as [id ?];
      [by rewrite Hdeps|].
Qed.

End early_facts.

(** ** Instantiations find their references *)

Section refs_facts.
Context `{Library} `{MapOrder} (cfg : config).

Lemma consistent_group deps id ds g :
  consistent cfg deps -> deps !! id = Some ds -> Groups cfg !! id = Some g ->
  ds = group_deps g.
Proof.
  intros [_ Hdeps] Hid Hg. apply Hdeps in Hid. unfold node_deps in Hid.
  rewrite Hg in Hid. congruence.
Qed.

Lemma consistent_router deps id ds r :
  consistent cfg deps -> deps !! id = Some ds -> Routers cfg !! id = Some r ->
  Groups cfg !! id = None /\ ds = router_deps r.
Proof.
  intros [Hdisj Hdeps] Hid Hr. apply Hdeps in Hid. unfold node_deps in Hid.
  destruct (Hdisj id) as [Hg|Hg]; [|congruence]. split; [done|].
  rewrite Hg, Hr in Hid. case_match; congruence.
Qed.

Lemma consistent_subseteq deps deps' :
  consistent cfg deps -> deps' ⊆ deps -> consistent cfg deps'.
Proof.
  intros [Hdisj Hdeps] Hsub. split; [done|]. intros id ds Hid.
  apply Hdeps. by eapply lookup_weaken.
Qed.

Lemma ready_router (rs : gmap string Resolver) (r : router) :
  ready rs (router_deps r) = true ->
  Forall (fun rt => is_Some (rs !! rt_Resolver rt)) (rr_Routes r).
Proof.
  intros Hr%ready_spec. apply Forall_forall. intros rt Hrt.
  rewrite Forall_forall in Hr.
  apply Hr. unfold router_deps. apply list_elem_of_fmap. by exists rt.
Qed.

Lemma ready_group (rs : gmap string Resolver) (g : group) :
  ready rs (group_deps g) = true ->
  Forall (fun d => is_Some (rs !! d)) (g_Resolvers g).
Proof.
  intros Hr%ready_spec. apply Forall_forall. intros d Hd.
  rewrite Forall_forall in Hr. by apply Hr, group_deps_resolvers.
Qed.

(** Every instantiation the loop makes finds the ids the node references in
    the map, and the loop does not fail with a missing-reference error. *)
Lemma resolve_refs fuel n deps rs :
  consistent cfg deps ->
  Forall (fun ev => refs_present ev /\ is_listener_event ev = false)
    (trace (resolve fuel cfg n deps rs)) /\
  (forall fl, failure_of (result (resolve fuel cfg n deps rs)) = Some fl ->
     forall e, fl = Failed e -> is_ref_error e = false).
Proof.
  intros Hcons.
  destruct (resolve_inv cfg (fun d _ => consistent cfg d)
    (fun ev => refs_present ev /\ is_listener_event ev = false)
    (fun fl => forall e, fl = Failed e -> is_ref_error e = false)) with
    (fuel := fuel) (n := n) (deps := deps) (rs := rs) as (HQ & _ & HP);
    try done.
  - by intros e [= <-].
  - clear dependent deps rs. clear n. intros n deps rs Hcons.
    apply (pass_inv cfg (fun st => consistent cfg st.1.1)
             (fun ev => refs_present ev /\ is_listener_event ev = false)
             (fun fl => forall e, fl = Failed e -> is_ref_error e = false));
      [done|].
    intros [[d r] f] id ds Hid Hd. simpl in Hd. split; [|split].
    + apply Forall_forall. intros ev Hev. split.
      * apply visit_events in Hev
          as [Hready [(g & Hg & ->)|(r0 & rs1 & Hr0 & -> & Hrs1 & _)]]; simpl.
        -- rewrite (consistent_group deps id ds g) in Hready by done.
           by apply ready_spec.
        -- destruct (consistent_router deps id ds r0) as [Hg ->]; [done..|].
           rewrite (Hrs1 Hg). by apply ready_router.
      * by apply visit_events_kind in Hev as [_ ?].
    + intros [[d' r'] f'] Hv. simpl.
      apply visit_Ok in Hv as [(_ & -> & _)|(_ & -> & _)]; [done|].
      eapply consistent_subseteq; [exact Hd|apply delete_subseteq].
    + intros fl Hfl e ->.
      apply visit_failure in Hfl
        as [Hready [(g & Hg & Hfl)|(r0 & rs1 & Hr0 & Hrs1 & _ & Hfl)]].
      * rewrite (consistent_group deps id ds g) in Hready by done.
        apply ready_group, (instantiateGroup_settled id) in Hready.
        destruct (instantiateGroup id g r); simpl in *; simplify_eq. done.
      * destruct (consistent_router deps id ds r0) as [Hg ->]; [done..|].
        rewrite (Hrs1 Hg) in Hfl.
        apply ready_router, (instantiateRouter_settled id) in Hready.
        destruct (instantiateRouter id r0 r); simpl in *; simplify_eq. done.
Qed.

End refs_facts.

(** ** The listeners and the whole of start *)

Section start_facts.
Context `{Library} `{MapOrder}.

Lemma settled_tls_config fails l : settled (tls_config fails l).
Proof. unfold tls_config. apply settled_call. Qed.

Lemma settled_new_listener rs id l : settled (new_listener rs id l).
Proof.
  unfold new_listener. case_match; [done|].
  apply settled_bind; [apply settled_call|]. intros allowed _.
  repeat first
    [ done
    | apply settled_call
    | apply settled_tls_config
    | apply settled_wrap_err; [by destruct (net_ParseCIDR_fails _)|done]
    | apply settled_bind; [|intros ? _]
    | case_match ].
Qed.

Lemma add_listener_spec rs ls id l :
  Forall (fun ev => is_listener_event ev = true) (trace (add_listener rs ls (id, l))) /\
  (forall fl, failure_of (result (add_listener rs ls (id, l))) = Some fl ->
     failure_of (new_listener rs id l) = Some fl).
Proof.
  unfold add_listener. rewrite trace_bind, result_bind. simpl.
  destruct (new_listener rs id l); simpl; split; try done; by repeat constructor.
Qed.

Lemma build_listeners_spec rs cfg :
  Forall (fun ev => is_listener_event ev = true) (trace (build_listeners rs cfg)) /\
  settled (result (build_listeners rs cfg)).
Proof.
  unfold build_listeners.
  destruct (for_each_traced_inv (add_listener rs) (fun _ => True)
    (fun ev => is_listener_event ev = true)
    (fun fl => fl <> Exhausted /\ forall e, fl = Failed e -> is_ref_error e = false)
    (range RangeListeners (Listeners cfg)) []) as (HQ & _ & HP); [done| |].
  - intros ls [id l] _ _. destruct (add_listener_spec rs ls id l) as [HQ Hfl].
    split; [done|]. split; [done|]. intros fl Hnew%Hfl.
    by apply (settled_failure (new_listener rs id l)); [apply settled_new_listener|].
  - split; [done|]. by apply settled_failure.
Qed.

Lemma start_listeners_spec ls :
  trace (start_listeners ls) = EvGo <$> ls /\ result (start_listeners ls) = Ok ().
Proof.
  unfold start_listeners. induction ls as [|l ls [IHt IHr]]; [done|].
  change (for_each (fun _ l => emit (EvGo l)) (l :: ls) ())
    with (emit (EvGo l) ≫= for_each (fun _ l => emit (EvGo l)) ls).
  rewrite trace_bind, result_bind. simpl. by rewrite IHt, IHr.
Qed.

(** After the map of resolvers come the listeners, and only them. *)
Lemma assemble_cases cfg :
  (~ is_Ok (result (build_resolvers cfg)) /\
   trace (assemble cfg) = trace (build_resolvers cfg) /\
   failure_of (result (assemble cfg)) = failure_of (result (build_resolvers cfg))) \/
  (exists rs tl,
     result (build_resolvers cfg) = Ok rs /\
     trace (assemble cfg)
       = (trace (build_resolvers cfg) ++ trace (build_listeners rs cfg) ++ tl)%list /\
     Forall (fun ev => is_listener_event ev = true) tl /\
     result (assemble cfg) = result (build_listeners rs cfg)).
Proof.
  unfold assemble. rewrite trace_bind, result_bind.
  destruct (result (build_resolvers cfg)) as [rs| | |] eqn:Hrs.
  2-4: left; rewrite app_nil_r; split; [by intros [? ?]|done].
  right. exists rs. rewrite trace_bind, result_bind.
  destruct (result (build_listeners rs cfg)) as [ls| | |] eqn:Hls.
  2-4: exists []; by rewrite app_nil_r.
  destruct (start_listeners_spec ls) as [Ht Hr].
  rewrite trace_bind, result_bind, Hr, Ht. simpl. rewrite app_nil_r.
  exists (EvGo <$> ls). repeat split; try done.
  apply Forall_fmap, Forall_true. done.
Qed.

Lemma start_cases opt args :
  ((6 < logLevel opt)%Z /\
   start opt args = Traced [] (Err (ErrInvalidLogLevel (logLevel opt)))) \/
  ((logLevel opt <= 6)%Z /\ exists msg, loadConfig args = inl msg /\
   start opt args
     = Traced [EvSetLevel (logLevel opt); EvLoadConfig args] (Err (ErrLib msg))) \/
  ((logLevel opt <= 6)%Z /\ exists cfg, loadConfig args = inr cfg /\
   trace (start opt args)
     = EvSetLevel (logLevel opt) :: EvLoadConfig args :: trace (assemble cfg) /\
   result (start opt args) = result (assemble cfg)).
Proof.
  unfold start. destruct (Z.ltb_spec 6 (logLevel opt)) as [Hlt|Hle]; [by left|].
  right. destruct (loadConfig args) as [msg|cfg] eqn:Hload.
  - left. split; [done|]. by exists msg.
  - right. split; [done|]. exists cfg. split; [done|].
    rewrite !trace_bind, !result_bind. simpl. done.
Qed.

(** The run of [build_resolvers]: its events are instantiations that find
    their references, and none is a listener event; its outcome is settled;
    it makes at most one pass per group and router. *)
Lemma build_resolvers_spec cfg :
  Forall (fun ev => refs_present ev /\ is_listener_event ev = false)
    (trace (build_resolvers cfg)) /\
  settled (result (build_resolvers cfg)) /\
  (passes (trace (build_resolvers cfg)) <= size (Groups cfg) + size (Routers cfg))%nat.
Proof.
  assert (Hearly : forall t, Forall (fun ev => is_early_event ev = true) t ->
            Forall (fun ev => refs_present ev /\ is_listener_event ev = false) t /\
            passes t = 0%nat).
  { intros t Ht. split.
    - eapply Forall_impl; [exact Ht|]. by intros [].
    - apply passes_none. eapply Forall_impl; [exact Ht|]. by intros []. }
  destruct (build_resolvers_cases cfg)
    as [[Ht (e & -> & He)]|(t0 & rs0 & deps & Ht0 & _ & Hdeps & -> & ->)].
  - destruct (Hearly _ Ht) as [HQ ->]. repeat split; [done| |lia].
    simpl. by destruct e.
  - destruct (Hearly _ Ht0) as [HQ Hp].
    destruct (resolve_refs cfg (size deps) 0 deps rs0) as [HQ' HP'];
      [by apply build_deps_consistent|].
    destruct (resolve_fuel cfg (size deps) 0 deps rs0) as [Hne Hpasses]; [done|].
    repeat split.
    + by apply Forall_app.
    + apply settled_failure. intros fl Hfl. split; [congruence|]. by apply HP'.
    + rewrite passes_app, Hp. apply build_deps_size in Hdeps. lia.
Qed.

(** The outcome of [start] is settled: never the exhausted budget of the
    model, never a missing-reference error of a group or a router. *)
Lemma start_settled opt args : settled (result (start opt args)).
Proof.
  destruct (start_cases opt args)
    as [[_ ->]|[[_ (msg & _ & ->)]|[_ (cfg & _ & _ & ->)]]]; [done..|].
  destruct (build_resolvers_spec cfg) as (_ & Hs & _).
  destruct (assemble_cases cfg) as [(Hnot & _ & Hfl)|(rs & tl & _ & _ & _ & ->)].
  - apply settled_failure. intros fl Hfl'. rewrite Hfl in Hfl'.
    by apply (settled_failure (result (build_resolvers cfg))).
  - apply build_listeners_spec.
Qed.

End start_facts.

Section start_traces.
Context `{Library} `{MapOrder}.

Lemma listener_events_refs t :
  Forall (fun ev => is_listener_event ev = true) t ->
  Forall refs_present t /\ passes t = 0%nat.
Proof.
  intros Ht. split.
  - eapply Forall_impl; [exact Ht|]. by intros [].
  - apply passes_none. eapply Forall_impl; [exact Ht|]. by intros [].
Qed.

(** The trace of [assemble]: the run of [build_resolvers], then listener
    events only. *)
Lemma assemble_trace cfg :
  exists tl, trace (assemble cfg) = (trace (build_resolvers cfg) ++ tl)%list /\
    Forall (fun ev => is_listener_event ev = true) tl /\
    (~ is_Ok (result (build_resolvers cfg)) -> tl = []).
Proof.
  destruct (assemble_cases cfg) as [(Hnot & -> & _)|(rs & tl & Hrs & -> & Htl & _)].
  - exists []. by rewrite app_nil_r.
  - exists (trace (build_listeners rs cfg) ++ tl)%list. split; [done|]. split.
    + apply Forall_app. split; [apply build_listeners_spec|done].
    + intros []. by eexists.
Qed.


Lemma start_passes opt args cfg :
  loadConfig args = inr cfg ->
  (passes (trace (start opt args)) <= size (Groups cfg) + size (Routers cfg))%nat.
Proof.
  intros Hload.
  destruct (start_cases opt args)
    as [[_ ->]|[[_ (msg & ? & ->)]|[_ (cfg' & Hload' & -> & _)]]];
    [unfold passes; simpl; lia..|].
  assert (cfg' = cfg) as -> by congruence.
  destruct (assemble_trace cfg) as (tl & -> & Htl & _).
  destruct (build_resolvers_spec cfg) as (_ & _ & Hp).
  apply listener_events_refs in Htl as [_ Htl].
  change (EvSetLevel (logLevel opt) :: EvLoadConfig args
            :: (trace (build_resolvers cfg) ++ tl))%list
    with ([EvSetLevel (logLevel opt); EvLoadConfig args]
            ++ (trace (build_resolvers cfg) ++ tl))%list.
  rewrite !passes_app, Htl. unfold passes at 1. simpl. lia.
Qed.

End start_traces.


(** C6. The dependency loop terminates on every dependency map. A pass that
    found a node has removed an entry; a pass that found none ends the loop
    with "unable to resolve dependencies"; a pass that fails ends it with
    that failure. So the loop makes at most [size deps] passes, a budget of
    that many passes is never exhausted, and a larger budget changes nothing.
    In [start], where the map has at most one entry per group and router, the
    loop makes at most as many passes as there are groups and routers. *)
Theorem dependency_loop_terminates `{Library} `{MapOrder} (cfg : config)
    (n : nat) (deps : gmap string (list string)) (rs : gmap string Resolver)
    (fuel : nat) :
  (size deps <= fuel)%nat ->
  (forall deps' rs', result (pass cfg n deps rs) = Ok (deps', rs', true) ->
     deps' ⊆ deps /\ (size deps' < size deps)%nat) /\
  (forall deps' rs', (0 < size deps)%nat ->
     result (pass cfg n deps rs) = Ok (deps', rs', false) ->
     result (resolve (S fuel) cfg n deps rs) = Err ErrUnableToResolve) /\
  (forall fl, (0 < size deps)%nat ->
     failure_of (result (pass cfg n deps rs)) = Some fl ->
     fl <> Exhausted /\
     failure_of (result (resolve (S fuel) cfg n deps rs)) = Some fl) /\
  result (resolve fuel cfg n deps rs) <> OutOfFuel /\
  (passes (trace (resolve fuel cfg n deps rs)) <= size deps)%nat /\
  resolve fuel cfg n deps rs = resolve (size deps) cfg n deps rs /\
  (forall opt args,
     result (start opt args) <> OutOfFuel /\
     forall cfg', loadConfig args = inr cfg' ->
       (passes (trace (start opt args))
        <= size (Groups cfg') + size (Routers cfg'))%nat).
Proof.
  intros Hfuel. split; [|split; [|split; [|split; [|split; [|split]]]]].
  - intros deps' rs' Hres. apply pass_progress in Hres as [Hsub Hlt]. auto.
  - intros deps' rs' Hsize Hres. rewrite resolve_step by done.
    by rewrite result_bind, Hres.
  - intros fl Hsize Hfl. split.
    + intros ->. by apply pass_not_exhausted in Hfl.
    + rewrite resolve_step by done. rewrite result_bind.
      by destruct (result (pass cfg n deps rs)).
  - destruct (resolve_fuel cfg fuel n deps rs Hfuel) as [Hne _].
    intros Hout. by rewrite Hout in Hne.
  - by apply resolve_fuel.
  - by apply resolve_fuel_irrelevant.
  - intros opt args. split.
    + pose proof (start_settled opt args) as Hs. intros Hout.
      by rewrite Hout in Hs.
    + intros cfg'. apply start_passes.
Qed.

(** C10. A log level above 6 makes [start] return the "invalid log level"
    error at once: nothing has been called, no configuration loaded, no
    resolver constructed. With a level from 0 to 6, [start] first sets the
    level of the library logger, then loads the configuration, and goes on
    with the assembly of what it loaded. *)
Theorem log_level_checked_first `{Library} `{MapOrder}
    (opt : options) (args : list string) :
  ((6 < logLevel opt)%Z ->
     start opt args = Traced [] (Err (ErrInvalidLogLevel (logLevel opt))) /\
     error_message (ErrInvalidLogLevel (logLevel opt))
       = "invalid log level: " ++ pretty (logLevel opt)) /\
  ((0 <= logLevel opt <= 6)%Z ->
     (exists t, trace (start opt args)
                = EvSetLevel (logLevel opt) :: EvLoadConfig args :: t) /\
     (forall cfg, loadConfig args = inr cfg ->
        trace (start opt args)
          = EvSetLevel (logLevel opt) :: EvLoadConfig args :: trace (assemble cfg) /\
        result (start opt args) = result (assemble cfg))).
Proof.
  split.
  - intros Hlt. split; [|done].
    destruct (start_cases opt args) as [[_ Hs]|[[Hle _]|[Hle _]]]; [done|lia|lia].
  - intros [_ Hle].
    destruct (start_cases opt args)
      as [[Hlt _]|[[_ (msg & Hload & Hs)]|[_ (cfg & Hload & Ht & Hr)]]]; [lia|..].
    + rewrite Hs. split; [by eexists|]. intros cfg Hcfg. congruence.
    + split; [by eexists|].
      intros cfg' Hcfg. by assert (cfg' = cfg) as -> by congruence.
Qed.

(** ** The listener loop *)

Section listener_facts.
Context `{Library} `{MapOrder}.

Lemma add_listener_Ok rs acc id l ln :
  new_listener rs id l = Ok ln ->
  add_listener rs acc (id, l) = Traced [EvNewListener ln] (Ok (append acc ln)).
Proof. intros Hln. unfold add_listener. cbn. by rewrite Hln. Qed.







End listener_facts.


(** ** Dependencies that cannot be resolved *)

Section stuck_facts.
Context `{Library} `{MapOrder} (cfg : config).




End stuck_facts.




(** The loop on the dependency map of [chain_config], in the iteration order
    that needs three passes. *)
Lemma dependency_loop_terminates_witness :
  result (resolve (H := library_of (fun _ => inr chain_config))
            (H0 := order_backward) 3 chain_config 0 chain_deps (upstreams ["u"]))
    <> OutOfFuel /\
  (passes (trace (resolve (H := library_of (fun _ => inr chain_config))
                    (H0 := order_backward) 3 chain_config 0 chain_deps
                    (upstreams ["u"]))) <= size chain_deps)%nat.
Proof.
  destruct (dependency_loop_terminates
              (H := library_of (fun _ => inr chain_config)) (H0 := order_backward)
              chain_config 0 chain_deps (upstreams ["u"]) 3)
    as (_ & _ & _ & Hfuel & Hpasses & _); [vm_compute; lia|by split].
Defined.

(** Log levels 7 and 6. *)
Lemma log_level_checked_first_witness :
  start (H := library_of (fun _ => inr chain_config)) (H0 := order_forward)
    {| logLevel := 7 |} ["config.toml"]
    = Traced [] (Err (ErrInvalidLogLevel 7)) /\
  exists t,
    trace (start (H := library_of (fun _ => inr chain_config)) (H0 := order_forward)
             {| logLevel := 6 |} ["config.toml"])
    = EvSetLevel 6 :: EvLoadConfig ["config.toml"] :: t.
Proof.
  split.
  - refine (proj1 (proj1 (log_level_checked_first
                            (H := library_of (fun _ => inr chain_config))
                            (H0 := order_forward)
                            {| logLevel := 7 |} ["config.toml"]) _)).
    simpl. lia.
  - refine (proj1 (proj2 (log_level_checked_first
                            (H := library_of (fun _ => inr chain_config))
                            (H0 := order_forward)
                            {| logLevel := 6 |} ["config.toml"]) _)).
    simpl. lia.
Defined.


(** ** Remarks on ids shared between namespaces *)

(** The one clash [start] detects: an id that names both a group and a
    router. *)
Lemma group_router_clash_detected `{MapOrder} (cfg : config) (id : string) :
  is_Some (Groups cfg !! id) -> is_Some (Routers cfg !! id) ->
  exists id', build_deps cfg = Err (ErrDuplicateName id').
Proof.
  intros [g Hg] [r Hr]. destruct (build_deps cfg) as [deps|e| |] eqn:Hdeps.
  - apply build_deps_spec in Hdeps as [Hdisj _].
    destruct (Hdisj id); congruence.
  - destruct (build_deps_failure cfg (Failed e)) as [id' [= ->]];
      [by rewrite Hdeps|]. eauto.
  - by destruct (build_deps_failure cfg Panicked) as [id' ?];
      [by rewrite Hdeps|].
  - by destruct (build_deps_failure cfg Exhausted) as [id' ?];
      [by rewrite Hdeps|].
Qed.

(** A cycle through an id that is also the id of a resolver does not block
    the loop: in [clash_config] the group [x] references [x], the resolver
    [x] is in the map, the group is instantiated over it, and [start] serves. *)
Lemma cycle_through_resolver_id_served :
  cyclic clash_config /\
  is_Ok (result (start (H := library_of (fun _ => inr clash_config))
                   (H0 := order_forward) default_options ["config.toml"])).
Proof.
  split.
  - exists "x". apply tc_once. left.
    exists (group_of "round-robin" ["x"]). split; [reflexivity|]. left.
  - eexists. by vm_compute.
Qed.

(** * Further properties of the assembler *)

(** ** instantiateGroup: references *)

Section group_reference_facts.
Context `{Library}.

Lemma group_resolvers_first_missing id (rs : gmap string Resolver) pre rid post :
  Forall (fun d => is_Some (rs !! d)) pre -> rs !! rid = None ->
  group_resolvers id (pre ++ rid :: post) rs = Err (ErrGroupRef id rid).
Proof.
  intros Hpre Hrid. induction Hpre as [|d pre [r Hd] _ IH].
  - unfold group_resolvers. simpl. by rewrite Hrid.
  - unfold group_resolvers. simpl. rewrite Hd. simpl.
    rewrite group_resolvers_acc, IH. done.
Qed.

Lemma group_resolvers_Err id (rs : gmap string Resolver) rids e :
  group_resolvers id rids rs = Err e ->
  exists rid, e = ErrGroupRef id rid /\ rid ∈ rids /\ rs !! rid = None.
Proof.
  induction rids as [|d rids IH]; [done|].
  unfold group_resolvers. simpl. destruct (rs !! d) as [r|] eqn:Hd; simpl.
  - rewrite group_resolvers_acc.
    destruct (group_resolvers id rids rs) as [gr|e'| |] eqn:Hgr; simpl; try done.
    intros [= <-]. destruct (IH eq_refl) as (rid & -> & Hin & Hnone).
    exists rid. split; [done|]. split; [by right|done].
  - intros [= <-]. exists d. split; [done|]. split; [by left|done].
Qed.

End group_reference_facts.

(** X1. instantiateGroup looks up every id of [g.Resolvers] before it looks
    at [g.Type]: whatever the type of the group -- a leaf type that has no
    use for resolvers, or a type that does not exist -- the first id of the
    list that is missing from the map is the error returned. *)
Theorem missing_reference_reported_first `{Library} (id : string) (g : group)
    (rs : gmap string Resolver) (pre post : list string) (rid : string) :
  g_Resolvers g = (pre ++ rid :: post)%list ->
  Forall (fun d => is_Some (rs !! d)) pre ->
  rs !! rid = None ->
  instantiateGroup id g rs = Err (ErrGroupRef id rid) /\
  error_message (ErrGroupRef id rid)
    = "group '" ++ id ++ "' references non-existant resolver or group '" ++ rid ++ "'".
Proof.
  intros Hg Hpre Hrid. split; [|done]. unfold instantiateGroup.
  by rewrite Hg, (group_resolvers_first_missing id rs pre rid post).
Qed.

(** A [drop] group lists three resolvers it will never use; the second is
    not in the map. *)
Lemma missing_reference_reported_first_witness :
  instantiateGroup (H := library_of (fun _ => inl "none")) "d"
    (group_of "drop" ["a"; "zz"; "b"]) (upstreams ["a"; "b"])
  = Err (ErrGroupRef "d" "zz").
Proof.
  refine (proj1 (missing_reference_reported_first
                   (H := library_of (fun _ => inl "none")) "d"
                   (group_of "drop" ["a"; "zz"; "b"]) (upstreams ["a"; "b"])
                   ["a"] ["b"] "zz" _ _ _)).
  - reflexivity.
  - repeat constructor. by eexists.
  - reflexivity.
Defined.

(** X2. The only missing-reference error instantiateGroup returns is about
    an id of [g.Resolvers] that is not in the map. The blocklist, allowlist
    and limit resolvers of the group are read from the map without a check:
    when missing they never make the instantiation fail with that error
    (the option is built with a nil resolver). *)
Theorem group_reference_error_is_about_resolvers `{Library} (id : string)
    (g : group) (rs : gmap string Resolver) (id' rid : string) :
  instantiateGroup id g rs = Err (ErrGroupRef id' rid) ->
  id' = id /\ rid ∈ g_Resolvers g /\ rs !! rid = None.
Proof.
  unfold instantiateGroup. intros Herr.
  destruct (group_resolvers id (g_Resolvers g) rs) as [gr|e| |] eqn:Hgr;
    simpl in Herr; try done.
  - pose proof (settled_group_resolver id g gr rs) as Hs.
    destruct (group_resolver id g gr rs) as [r|e| |]; simpl in *; try done.
    injection Herr as ->. done.
  - injection Herr as ->.
    apply group_resolvers_Err in Hgr as (rid' & [= <- <-] & Hin & Hnone). done.
Qed.

Lemma group_reference_error_is_about_resolvers_witness :
  "rl" = "rl" /\ "child" ∈ g_Resolvers (group_of "rate-limiter" ["child"]) /\
  (∅ : gmap string Resolver) !! "child" = None.
Proof.
  apply (group_reference_error_is_about_resolvers
           (H := library_of (fun _ => inl "none")) "rl"
           (group_of "rate-limiter" ["child"]) ∅ "rl" "child").
  reflexivity.
Defined.

(** ** instantiateGroup: the type switch *)

Section group_type_facts.
Context `{Library}.

(** A type name outside [group_types] fails every test of the switch. *)
Lemma unknown_type_eqb ty known :
  ty ∉ group_types -> known ∈ group_types -> (ty =? known) = false.
Proof.
  intros Hty Hknown. destruct (String.eqb_spec ty known) as [->|]; [done|done].
Qed.

Lemma group_resolver_unknown id g gr rs :
  g_Type g ∉ group_types ->
  group_resolver id g gr rs = Err (ErrUnsupportedGroupType (g_Type g) id).
Proof.
  intros Hty. unfold group_resolver.
  assert (Hk : forall known, In known group_types -> (g_Type g =? known) = false).
  { intros known Hin. apply unknown_type_eqb; [done|by apply list_elem_of_In]. }
  rewrite !Hk by (simpl; tauto). done.
Qed.

Lemma one_resolver_Ok kind id (r : Resolver) : one_resolver kind id [r] = Ok ().
Proof. done. Qed.

End group_type_facts.

(** X3. The four group types that choose among several resolvers accept any
    number of them, none included: with its resolvers in the map such a group
    is always instantiated, over the resolvers its ids name, in the order of
    the configuration and with repetitions kept. *)
Theorem multi_resolver_groups_keep_order `{Library} (id : string) (g : group)
    (rs : gmap string Resolver) (gr : list Resolver) :
  Forall2 (fun rid r => rs !! rid = Some r) (g_Resolvers g) gr ->
  g_Type g ∈ ["round-robin"; "fail-rotate"; "fail-back"; "random"] ->
  exists r,
    instantiateGroup id g rs = Ok (<[id := r]> rs) /\
    length gr = length (g_Resolvers g) /\
    (g_Type g = "round-robin" -> r = RoundRobin id gr) /\
    (g_Type g = "fail-rotate" -> r = FailRotate id gr) /\
    (g_Type g = "fail-back" -> exists opt, r = FailBack id opt gr) /\
    (g_Type g = "random" -> exists opt, r = Random id opt gr).
Proof.
  intros Hgr Hty. pose proof (Forall2_length _ _ _ Hgr) as Hlen.
  apply (group_resolvers_Ok id) in Hgr.
  unfold instantiateGroup, group_resolver. rewrite Hgr.
  repeat (apply elem_of_cons in Hty as [->|Hty];
    [simpl; eexists; split; [reflexivity|]; split; [done|];
     repeat split; intros; eauto; discriminate|]).
  by apply elem_of_nil in Hty.
Qed.

(** A round-robin group over no resolver at all, and one over [a], [b], [a]. *)
Lemma multi_resolver_groups_keep_order_witness :
  (exists r,
     instantiateGroup (H := library_of (fun _ => inl "none")) "rr"
       (group_of "round-robin" []) ∅ = Ok (<["rr" := r]> ∅) /\
     r = RoundRobin "rr" []) /\
  (exists r,
     instantiateGroup (H := library_of (fun _ => inl "none")) "rr"
       (group_of "round-robin" ["a"; "b"; "a"]) (upstreams ["a"; "b"])
     = Ok (<["rr" := r]> (upstreams ["a"; "b"])) /\
     r = RoundRobin "rr" [Upstream "a" (upstream_of "1.1.1.1:53");
                          Upstream "b" (upstream_of "1.1.1.1:53");
                          Upstream "a" (upstream_of "1.1.1.1:53")]).
Proof.
  split.
  - destruct (multi_resolver_groups_keep_order
                (H := library_of (fun _ => inl "none")) "rr"
                (group_of "round-robin" []) ∅ [])
      as (r & Hr & _ & Hrr & _); [constructor|by left|].
    exists r. split; [done|]. by apply Hrr.
  - destruct (multi_resolver_groups_keep_order
                (H := library_of (fun _ => inl "none")) "rr"
                (group_of "round-robin" ["a"; "b"; "a"]) (upstreams ["a"; "b"])
                [Upstream "a" (upstream_of "1.1.1.1:53");
                 Upstream "b" (upstream_of "1.1.1.1:53");
                 Upstream "a" (upstream_of "1.1.1.1:53")])
      as (r & Hr & _ & Hrr & _); [repeat constructor|by left|].
    exists r. split; [done|]. by apply Hrr.
Defined.

(** X4. A group whose type is none of the twenty names of the switch is
    rejected with "unsupported group type", naming the type and the group;
    the check comes after the lookup of the group's resolvers, which must
    all be in the map for this error to be the one returned. *)
Theorem unknown_group_type_rejected `{Library} (id : string) (g : group)
    (rs : gmap string Resolver) :
  g_Type g ∉ group_types ->
  Forall (fun d => is_Some (rs !! d)) (g_Resolvers g) ->
  instantiateGroup id g rs = Err (ErrUnsupportedGroupType (g_Type g) id) /\
  error_message (ErrUnsupportedGroupType (g_Type g) id)
    = "unsupported group type '" ++ g_Type g ++ "' for group '" ++ id ++ "'".
Proof.
  intros Hty (gr & Hgr)%(group_resolvers_present id). split; [|done].
  unfold instantiateGroup. rewrite Hgr. simpl.
  by rewrite group_resolver_unknown.
Qed.

(** Type names are compared as they are: [Round-Robin] is not [round-robin]. *)
Lemma unknown_group_type_rejected_witness :
  instantiateGroup (H := library_of (fun _ => inl "none")) "g"
    (group_of "Round-Robin" ["a"]) (upstreams ["a"])
  = Err (ErrUnsupportedGroupType "Round-Robin" "g").
Proof.
  refine (proj1 (unknown_group_type_rejected
                   (H := library_of (fun _ => inl "none")) "g"
                   (group_of "Round-Robin" ["a"]) (upstreams ["a"]) _ _)).
  - intros Hin. apply list_elem_of_In in Hin. simpl in Hin.
    repeat (destruct Hin as [Hin|Hin]; [discriminate|]). done.
  - repeat constructor. by eexists.
Defined.

(** X5. Static rules and sources exclude each other. For a group over one
    resolver: a [blocklist] with inline rules and a [source], a
    [blocklist-v2] with inline rules and blocklist sources, or with an inline
    allowlist and allowlist sources, and a response or client blocklist with
    inline rules and blocklist sources are all rejected, before any rule is
    loaded. *)
Theorem static_rules_exclude_sources `{Library} (id : string) (g : group)
    (rs : gmap string Resolver) (rid : string) (child : Resolver) :
  g_Resolvers g = [rid] ->
  rs !! rid = Some child ->
  (g_Type g = "blocklist" -> g_Blocklist g <> [] -> g_Source g <> EmptyString ->
     instantiateGroup id g rs = Err (ErrStaticSource "blocklist" "source" id)) /\
  (g_Type g = "blocklist-v2" -> g_Blocklist g <> [] -> g_BlocklistSource g <> [] ->
     instantiateGroup id g rs = Err (ErrStaticSource "blocklist" "source" id)) /\
  (g_Type g = "blocklist-v2" ->
     g_Blocklist g = [] \/ g_BlocklistSource g = [] ->
     g_Allowlist g <> [] -> g_AllowlistSource g <> [] ->
     instantiateGroup id g rs = Err (ErrStaticSource "allowlist" "source" id)) /\
  (g_Type g ∈ ["response-blocklist-ip"; "response-blocklist-cidr";
               "response-blocklist-name"; "client-blocklist"] ->
     g_Blocklist g <> [] -> g_BlocklistSource g <> [] ->
     instantiateGroup id g rs
     = Err (ErrStaticSource "blocklist" "blocklist-source" id)) /\
  error_message (ErrStaticSource "blocklist" "source" id)
    = "static blocklist can't be used with 'source' in '" ++ id ++ "'".
Proof.
  intros Hg Hrid.
  assert (Hgr : group_resolvers id (g_Resolvers g) rs = Ok [child]).
  { apply group_resolvers_Ok. rewrite Hg. by repeat constructor. }
  assert (Hne : forall {A} (l : list A), l <> [] -> nonempty l = true)
    by (by intros A [|? ?]).
  unfold instantiateGroup, group_resolver. rewrite Hgr. simpl.
  split; [|split; [|split; [|split; [|done]]]].
  - intros -> Hb Hs. simpl. rewrite (Hne _ _ Hb).
    by destruct (String.eqb_spec (g_Source g) EmptyString).
  - intros -> Hb Hs. simpl. by rewrite (Hne _ _ Hb), (Hne _ _ Hs).
  - intros -> Hb Ha Has. simpl. rewrite (Hne _ _ Ha), (Hne _ _ Has).
    destruct Hb as [-> | ->]; simpl; [done|]. by rewrite andb_false_r.
  - intros Hty Hb Hs.
    repeat (apply elem_of_cons in Hty as [->|Hty];
      [simpl; by rewrite (Hne _ _ Hb), (Hne _ _ Hs)|]).
    by apply elem_of_nil in Hty.
Qed.

(** A blocklist with one inline rule and a source, and a response blocklist
    with one inline rule and one source. *)
Lemma static_rules_exclude_sources_witness :
  instantiateGroup (H := library_of (fun _ => inl "none")) "b"
    (with_blocklist ["ads.example"] "/etc/blocklist" [] (group_of "blocklist" ["a"]))
    (upstreams ["a"])
  = Err (ErrStaticSource "blocklist" "source" "b") /\
  instantiateGroup (H := library_of (fun _ => inl "none")) "b"
    (with_blocklist ["10.0.0.0/8"] EmptyString [list_of_format "cidr"]
       (group_of "response-blocklist-ip" ["a"]))
    (upstreams ["a"])
  = Err (ErrStaticSource "blocklist" "blocklist-source" "b").
Proof.
  split.
  - refine (proj1 (static_rules_exclude_sources
                     (H := library_of (fun _ => inl "none")) "b"
                     (with_blocklist ["ads.example"] "/etc/blocklist" []
                        (group_of "blocklist" ["a"]))
                     (upstreams ["a"]) "a" (Upstream "a" (upstream_of "1.1.1.1:53"))
                     _ _) _ _ _); done.
  - refine (proj1 (proj2 (proj2 (proj2 (static_rules_exclude_sources
                     (H := library_of (fun _ => inl "none")) "b"
                     (with_blocklist ["10.0.0.0/8"] EmptyString [list_of_format "cidr"]
                        (group_of "response-blocklist-ip" ["a"]))
                     (upstreams ["a"]) "a" (Upstream "a" (upstream_of "1.1.1.1:53"))
                     _ _)))) _ _ _); try done.
    by left.
Defined.

(** X6. The operation of an ecs-modifier is "add", "delete", "privacy" or
    empty, that of an edns0-modifier "add", "delete" or empty: any other
    value is rejected with an error that names it, and an empty operation
    builds the modifier without a function. *)
Theorem modifier_operations_checked `{Library} (id : string) (g : group)
    (rs : gmap string Resolver) (rid : string) (child : Resolver) :
  g_Resolvers g = [rid] ->
  rs !! rid = Some child ->
  (g_Type g = "ecs-modifier" ->
     (g_ECSOp g ∉ ["add"; "delete"; "privacy"; EmptyString] ->
        instantiateGroup id g rs = Err (ErrECSOp (g_ECSOp g))) /\
     (g_ECSOp g = EmptyString -> NewECSModifier_fails id child None = None ->
        instantiateGroup id g rs = Ok (<[id := ECSModifier id child None]> rs))) /\
  (g_Type g = "edns0-modifier" ->
     (g_EDNS0Op g ∉ ["add"; "delete"; EmptyString] ->
        instantiateGroup id g rs = Err (ErrEDNS0Op (g_EDNS0Op g))) /\
     (g_EDNS0Op g = EmptyString -> NewEDNS0Modifier_fails id child None = None ->
        instantiateGroup id g rs = Ok (<[id := EDNS0Modifier id child None]> rs))).
Proof.
  intros Hg Hrid.
  assert (Hgr : group_resolvers id (g_Resolvers g) rs = Ok [child]).
  { apply group_resolvers_Ok. rewrite Hg. by repeat constructor. }
  assert (Hneq : forall op (known : list string) k,
            op ∉ known -> k ∈ known -> (op =? k) = false).
  { intros op known k Hop Hk. by destruct (String.eqb_spec op k) as [->|]. }
  unfold instantiateGroup, group_resolver. rewrite Hgr. simpl. split.
  - intros ->. simpl. unfold ecs_func. split.
    + intros Hop.
      rewrite !(Hneq _ _ _ Hop) by (rewrite !elem_of_cons; tauto). done.
    + intros -> Hnew. simpl. by rewrite Hnew.
  - intros ->. simpl. unfold edns0_func. split.
    + intros Hop.
      rewrite !(Hneq _ _ _ Hop) by (rewrite !elem_of_cons; tauto). done.
    + intros -> Hnew. simpl. by rewrite Hnew.
Qed.

(** An ecs-modifier with the operation [remove], which does not exist. *)
Lemma modifier_operations_checked_witness :
  instantiateGroup (H := library_of (fun _ => inl "none")) "m"
    (with_ops "remove" EmptyString (group_of "ecs-modifier" ["a"])) (upstreams ["a"])
  = Err (ErrECSOp "remove") /\
  instantiateGroup (H := library_of (fun _ => inl "none")) "m"
    (with_ops EmptyString EmptyString (group_of "edns0-modifier" ["a"]))
    (upstreams ["a"])
  = Ok (<["m" := EDNS0Modifier "m" (Upstream "a" (upstream_of "1.1.1.1:53")) None]>
          (upstreams ["a"])).
Proof.
  split.
  - refine (proj1 (proj1 (modifier_operations_checked
                     (H := library_of (fun _ => inl "none")) "m"
                     (with_ops "remove" EmptyString (group_of "ecs-modifier" ["a"]))
                     (upstreams ["a"]) "a" (Upstream "a" (upstream_of "1.1.1.1:53"))
                     _ _) _) _); try done.
    intros Hin. rewrite !elem_of_cons in Hin.
    destruct Hin as [?|[?|[?|[?|Hin]]]]; try discriminate.
    by apply elem_of_nil in Hin.
  - refine (proj2 (proj2 (modifier_operations_checked
                     (H := library_of (fun _ => inl "none")) "m"
                     (with_ops EmptyString EmptyString (group_of "edns0-modifier" ["a"]))
                     (upstreams ["a"]) "a" (Upstream "a" (upstream_of "1.1.1.1:53"))
                     _ _) _) _ _); done.
Defined.

(** ** newBlocklistDB and newIPBlocklistDB *)

Section db_facts.
Context `{Library}.

(** The loader of a list: inline rules win over the source; else the scheme
    of the source decides. *)
Lemma loader_for_Ok l rules loader :
  loader_for l rules = Ok loader ->
  exists loc, url_Parse (ls_Source l) = inr loc /\
    (rules <> [] -> loader = StaticLoader rules) /\
    (rules = [] ->
       (Scheme loc ∈ ["http"; "https"] /\
        loader = HTTPLoader (ls_Source l) (ls_CacheDir l)) \/
       (Scheme loc = EmptyString /\ loader = FileLoader (ls_Source l))).
Proof.
  unfold loader_for. destruct (url_Parse (ls_Source l)) as [msg|loc]; [done|].
  simpl. intros Hl. exists loc. split; [done|].
  destruct rules as [|rule rules]; simpl in Hl.
  - split; [done|]. intros _.
    destruct (String.eqb_spec (Scheme loc) "http") as [Hs|_]; simpl in Hl.
    { left. injection Hl as <-. split; [|done]. rewrite Hs. by left. }
    destruct (String.eqb_spec (Scheme loc) "https") as [Hs|_]; simpl in Hl.
    { left. injection Hl as <-. split; [|done]. rewrite Hs. right. by left. }
    destruct (String.eqb_spec (Scheme loc) EmptyString) as [Hs|_]; [|done].
    right. by injection Hl as <-.
  - injection Hl as <-. split; [done|]. done.
Qed.

Lemma loader_for_parse_error l rules msg :
  url_Parse (ls_Source l) = inl msg -> loader_for l rules = Err (ErrLib msg).
Proof. intros Hp. unfold loader_for. by rewrite Hp. Qed.

Lemma loader_for_bad_scheme l loc :
  url_Parse (ls_Source l) = inr loc ->
  Scheme loc ∉ ["http"; "https"; EmptyString] ->
  loader_for l [] = Err (ErrUnsupportedScheme (Scheme loc) (ls_Source l)).
Proof.
  intros Hp Hs. unfold loader_for. rewrite Hp. simpl.
  assert (Hneq : forall k, k ∈ ["http"; "https"; EmptyString] ->
            (Scheme loc =? k) = false).
  { intros k Hk. by destruct (String.eqb_spec (Scheme loc) k) as [<-|]. }
  rewrite !Hneq by (rewrite !elem_of_cons; tauto). done.
Qed.

End db_facts.

(** X7. A name database that newBlocklistDB returns is read through the
    loader the list calls for -- the inline rules when there are some,
    whatever the source says; else the HTTP loader for an http or https
    source and the file loader for a source without scheme -- and its kind
    is the one the format names: regexp (the default), domain or hosts. *)
Theorem name_db_follows_rules_and_format `{Library} (l : list_source)
    (rules : list string) (db : BlocklistDB) :
  newBlocklistDB l rules = Ok db ->
  exists loc loader,
    url_Parse (ls_Source l) = inr loc /\
    (rules <> [] -> loader = StaticLoader rules) /\
    (rules = [] ->
       (Scheme loc ∈ ["http"; "https"] /\
        loader = HTTPLoader (ls_Source l) (ls_CacheDir l)) \/
       (Scheme loc = EmptyString /\ loader = FileLoader (ls_Source l))) /\
    ((ls_Format l ∈ ["regexp"; EmptyString] /\ db = RegexpDB loader) \/
     (ls_Format l = "domain" /\ db = DomainDB loader) \/
     (ls_Format l = "hosts" /\ db = HostsDB loader)).
Proof.
  unfold newBlocklistDB. intros (loader & Hl & Hdb)%obind_Ok.
  destruct (loader_for_Ok l rules loader Hl) as (loc & Hp & Hstatic & Hsource).
  exists loc, loader. split; [done|]. split; [done|]. split; [done|].
  destruct (String.eqb_spec (ls_Format l) "regexp") as [Hf|_]; simpl in Hdb.
  { left. apply call_Ok in Hdb as ->. split; [|done]. rewrite Hf. by left. }
  destruct (String.eqb_spec (ls_Format l) EmptyString) as [Hf|_]; simpl in Hdb.
  { left. apply call_Ok in Hdb as ->. split; [|done]. rewrite Hf. right. by left. }
  destruct (String.eqb_spec (ls_Format l) "domain") as [Hf|_].
  { right. left. by apply call_Ok in Hdb as ->. }
  destruct (String.eqb_spec (ls_Format l) "hosts") as [Hf|_]; [|done].
  right. right. by apply call_Ok in Hdb as ->.
Qed.

(** Inline rules next to an ftp source: the rules are loaded, the source is
    not looked at. *)
Lemma name_db_follows_rules_and_format_witness :
  exists loc loader,
    url_Parse (Library := library_urls) "ftp://lists/ads" = inr loc /\
    (["ads.example"] <> [] -> loader = StaticLoader ["ads.example"]) /\
    (["ads.example"] = [] ->
       (Scheme loc ∈ ["http"; "https"] /\
        loader = HTTPLoader "ftp://lists/ads" EmptyString) \/
       (Scheme loc = EmptyString /\ loader = FileLoader "ftp://lists/ads")) /\
    (("domain" ∈ ["regexp"; EmptyString] /\
      DomainDB (StaticLoader ["ads.example"]) = RegexpDB loader) \/
     ("domain" = "domain" /\
      DomainDB (StaticLoader ["ads.example"]) = DomainDB loader) \/
     ("domain" = "hosts" /\
      DomainDB (StaticLoader ["ads.example"]) = HostsDB loader)).
Proof.
  apply (name_db_follows_rules_and_format (H := library_urls)
           {| ls_Format := "domain"; ls_Source := "ftp://lists/ads";
              ls_CacheDir := EmptyString |}
           ["ads.example"] (DomainDB (StaticLoader ["ads.example"]))).
  reflexivity.
Defined.

(** X8. An IP database that newIPBlocklistDB returns is read through the
    same choice of loader, and its kind is the one the format names: cidr
    (the default), or location, which is given the location database. *)
Theorem ip_db_follows_rules_and_format `{Library} (l : list_source)
    (locationDB : string) (rules : list string) (db : IPBlocklistDB) :
  newIPBlocklistDB l locationDB rules = Ok db ->
  exists loc loader,
    url_Parse (ls_Source l) = inr loc /\
    (rules <> [] -> loader = StaticLoader rules) /\
    (rules = [] ->
       (Scheme loc ∈ ["http"; "https"] /\
        loader = HTTPLoader (ls_Source l) (ls_CacheDir l)) \/
       (Scheme loc = EmptyString /\ loader = FileLoader (ls_Source l))) /\
    ((ls_Format l ∈ ["cidr"; EmptyString] /\ db = CidrDB loader) \/
     (ls_Format l = "location" /\ db = GeoIPDB loader locationDB)).
Proof.
  unfold newIPBlocklistDB. intros (loader & Hl & Hdb)%obind_Ok.
  destruct (loader_for_Ok l rules loader Hl) as (loc & Hp & Hstatic & Hsource).
  exists loc, loader. split; [done|]. split; [done|]. split; [done|].
  destruct (String.eqb_spec (ls_Format l) "cidr") as [Hf|_]; simpl in Hdb.
  { left. apply call_Ok in Hdb as ->. split; [|done]. rewrite Hf. by left. }
  destruct (String.eqb_spec (ls_Format l) EmptyString) as [Hf|_]; simpl in Hdb.
  { left. apply call_Ok in Hdb as ->. split; [|done]. rewrite Hf. right. by left. }
  destruct (String.eqb_spec (ls_Format l) "location") as [Hf|_]; [|done].
  right. by apply call_Ok in Hdb as ->.
Qed.

(** A location list fetched over https. *)
Lemma ip_db_follows_rules_and_format_witness :
  exists loc loader,
    url_Parse (Library := library_urls) "https://lists/geo" = inr loc /\
    (@nil string <> [] -> loader = StaticLoader []) /\
    (@nil string = [] ->
       (Scheme loc ∈ ["http"; "https"] /\
        loader = HTTPLoader "https://lists/geo" "/var/cache") \/
       (Scheme loc = EmptyString /\ loader = FileLoader "https://lists/geo")) /\
    (("location" ∈ ["cidr"; EmptyString] /\
      GeoIPDB (HTTPLoader "https://lists/geo" "/var/cache") "geo.mmdb"
      = CidrDB loader) \/
     ("location" = "location" /\
      GeoIPDB (HTTPLoader "https://lists/geo" "/var/cache") "geo.mmdb"
      = GeoIPDB loader "geo.mmdb")).
Proof.
  apply (ip_db_follows_rules_and_format (H := library_urls)
           {| ls_Format := "location"; ls_Source := "https://lists/geo";
              ls_CacheDir := "/var/cache" |}
           "geo.mmdb" []
           (GeoIPDB (HTTPLoader "https://lists/geo" "/var/cache") "geo.mmdb")).
  reflexivity.
Defined.

(** X9. What the two constructors reject, and in which order. The source is
    parsed first, even when inline rules make it useless: a source that does
    not parse is the error. Without inline rules a scheme other than http,
    https or none is rejected. Then the format: a name database takes regexp,
    domain, hosts or none, an IP database cidr, location or none -- the
    formats of the one are rejected by the other -- and a rejected format is
    reported without a database being constructed. *)
Theorem db_constructors_reject `{Library} (l : list_source) (locationDB : string)
    (rules : list string) :
  (forall msg, url_Parse (ls_Source l) = inl msg ->
     newBlocklistDB l rules = Err (ErrLib msg) /\
     newIPBlocklistDB l locationDB rules = Err (ErrLib msg)) /\
  (forall loc, url_Parse (ls_Source l) = inr loc -> rules = [] ->
     Scheme loc ∉ ["http"; "https"; EmptyString] ->
     newBlocklistDB l rules = Err (ErrUnsupportedScheme (Scheme loc) (ls_Source l)) /\
     newIPBlocklistDB l locationDB rules
     = Err (ErrUnsupportedScheme (Scheme loc) (ls_Source l))) /\
  (forall loader, loader_for l rules = Ok loader ->
     (ls_Format l ∉ ["regexp"; EmptyString; "domain"; "hosts"] ->
        newBlocklistDB l rules = Err (ErrUnsupportedFormat (ls_Format l))) /\
     (ls_Format l ∉ ["cidr"; EmptyString; "location"] ->
        newIPBlocklistDB l locationDB rules
        = Err (ErrUnsupportedFormat (ls_Format l))) /\
     (ls_Format l ∈ ["regexp"; "domain"; "hosts"] ->
        newIPBlocklistDB l locationDB rules
        = Err (ErrUnsupportedFormat (ls_Format l))) /\
     (ls_Format l ∈ ["cidr"; "location"] ->
        newBlocklistDB l rules = Err (ErrUnsupportedFormat (ls_Format l)))).
Proof.
  assert (Hneq : forall f (known : list string) k,
            f ∉ known -> k ∈ known -> (f =? k) = false).
  { intros f known k Hf Hk. by destruct (String.eqb_spec f k) as [->|]. }
  assert (Hname : forall loader, loader_for l rules = Ok loader ->
            ls_Format l ∉ ["regexp"; EmptyString; "domain"; "hosts"] ->
            newBlocklistDB l rules = Err (ErrUnsupportedFormat (ls_Format l))).
  { intros loader Hl Hf. unfold newBlocklistDB. rewrite Hl. simpl.
    rewrite !(Hneq _ _ _ Hf) by (rewrite !elem_of_cons; tauto). done. }
  assert (Hip : forall loader, loader_for l rules = Ok loader ->
            ls_Format l ∉ ["cidr"; EmptyString; "location"] ->
            newIPBlocklistDB l locationDB rules
            = Err (ErrUnsupportedFormat (ls_Format l))).
  { intros loader Hl Hf. unfold newIPBlocklistDB. rewrite Hl. simpl.
    rewrite !(Hneq _ _ _ Hf) by (rewrite !elem_of_cons; tauto). done. }
  split; [|split].
  - intros msg Hp. unfold newBlocklistDB, newIPBlocklistDB.
    by rewrite (loader_for_parse_error l rules msg Hp).
  - intros loc Hp -> Hs. unfold newBlocklistDB, newIPBlocklistDB.
    by rewrite (loader_for_bad_scheme l loc Hp Hs).
  - intros loader Hl. split; [by apply (Hname loader)|].
    split; [by apply (Hip loader)|]. split.
    + intros Hf. apply (Hip loader Hl). intros Hin.
      rewrite !elem_of_cons in Hf. rewrite !elem_of_cons in Hin.
      destruct Hf as [Hf|[Hf|[Hf|Hf]]]; [..|by apply elem_of_nil in Hf];
        rewrite Hf in Hin;
        destruct Hin as [?|[?|[?|Hin]]]; try discriminate;
        by apply elem_of_nil in Hin.
    + intros Hf. apply (Hname loader Hl). intros Hin.
      rewrite !elem_of_cons in Hf. rewrite !elem_of_cons in Hin.
      destruct Hf as [Hf|[Hf|Hf]]; [..|by apply elem_of_nil in Hf];
        rewrite Hf in Hin;
        destruct Hin as [?|[?|[?|[?|Hin]]]]; try discriminate;
        by apply elem_of_nil in Hin.
Qed.

(** A source that does not parse next to inline rules; an ftp source; a cidr
    list given to the name database. *)
Lemma db_constructors_reject_witness :
  newBlocklistDB (H := library_urls)
    {| ls_Format := "domain"; ls_Source := ":8080/ads"; ls_CacheDir := EmptyString |}
    ["ads.example"]
  = Err (ErrLib "missing protocol scheme") /\
  newIPBlocklistDB (H := library_urls)
    {| ls_Format := "cidr"; ls_Source := "ftp://lists/nets";
       ls_CacheDir := EmptyString |} "geo.mmdb" []
  = Err (ErrUnsupportedScheme "ftp" "ftp://lists/nets") /\
  newBlocklistDB (H := library_urls)
    {| ls_Format := "cidr"; ls_Source := "/etc/nets"; ls_CacheDir := EmptyString |} []
  = Err (ErrUnsupportedFormat "cidr").
Proof.
  split; [|split].
  - refine (proj1 (proj1 (db_constructors_reject (H := library_urls)
             {| ls_Format := "domain"; ls_Source := ":8080/ads";
                ls_CacheDir := EmptyString |} EmptyString ["ads.example"])
             "missing protocol scheme" _)).
    reflexivity.
  - refine (proj2 (proj1 (proj2 (db_constructors_reject (H := library_urls)
             {| ls_Format := "cidr"; ls_Source := "ftp://lists/nets";
                ls_CacheDir := EmptyString |} "geo.mmdb" []))
             {| Scheme := "ftp" |} _ _ _)); [reflexivity|reflexivity|].
    intros Hin. rewrite !elem_of_cons in Hin.
    destruct Hin as [?|[?|[?|Hin]]]; try discriminate. by apply elem_of_nil in Hin.
  - destruct (db_constructors_reject (H := library_urls)
                {| ls_Format := "cidr"; ls_Source := "/etc/nets";
                   ls_CacheDir := EmptyString |} EmptyString [])
      as (_ & _ & Hformat).
    destruct (Hformat (FileLoader "/etc/nets") eq_refl) as (_ & _ & _ & Hcross).
    apply Hcross. by left.
Defined.

(** ** instantiateRouter *)

Section router_more_facts.
Context `{Library}.

Lemma compile_route_Ok id rs route cr :
  compile_route id rs route = Ok cr ->
  rs !! rt_Resolver route = Some (route_resolver cr) /\
  route_name cr = rt_Name route /\ route_class cr = rt_Class route /\
  route_source cr = rt_Source route /\ route_inverted cr = rt_Invert route /\
  NewRoute_fails (rt_Name route) (rt_Class route) (route_type_list route)
    (rt_Source route) = None.
Proof.
  unfold compile_route. destruct (rs !! rt_Resolver route) as [res|]; [|done].
  intros (r0 & Hr0%wrap_err_Ok & [= <-])%obind_Ok. unfold NewRoute in Hr0.
  destruct (NewRoute_fails _ _ _ _); [done|]. injection Hr0 as <-.
  simpl. repeat split; reflexivity.
Qed.

Lemma router_routes_first_failure id (rs : gmap string Resolver) pre rt post
    (acc : list (Route Resolver)) e :
  Forall (fun route => is_Ok (compile_route id rs route)) pre ->
  compile_route id rs rt = Err e ->
  for_each (fun routes route =>
      match rs !! rt_Resolver route with
      | None => Err (ErrRouterRef id (rt_Resolver route))
      | Some resolver =>
          r ← wrap_err (ErrRouteParse id)
                (NewRoute (rt_Name route) (rt_Class route) (route_type_list route)
                   (rt_Source route) resolver);
          Ok (append routes (Invert (rt_Invert route) r))
      end) (pre ++ rt :: post) acc = Err e.
Proof.
  intros Hpre Hrt. revert acc.
  induction Hpre as [|route pre [cr Hcr] _ IH]; intros acc; simpl.
  - unfold compile_route in Hrt.
    destruct (rs !! rt_Resolver rt); simpl in *; [|by simplify_eq].
    by destruct (wrap_err _ _); simpl in *; simplify_eq.
  - unfold compile_route in Hcr.
    destruct (rs !! rt_Resolver route); simpl in *; [|done].
    destruct (wrap_err _ _); simpl in *; try done.
Qed.

End router_more_facts.

(** X10. A router that instantiateRouter returns holds one compiled route
    per route of the configuration, in the same order: each has the name,
    class and source of its route, the resolver the route's id names in the
    map, and is inverted as the route says. The map is changed under the id
    of the router only. *)
Theorem router_routes_keep_order `{Library} (id : string) (r : router)
    (rs rs' : gmap string Resolver) :
  instantiateRouter id r rs = Ok rs' ->
  exists routes,
    rs' = <[id := Router id routes]> rs /\
    length routes = length (rr_Routes r) /\
    (forall k, k <> id -> rs' !! k = rs !! k) /\
    Forall2 (fun route cr =>
        rs !! rt_Resolver route = Some (route_resolver cr) /\
        route_name cr = rt_Name route /\ route_class cr = rt_Class route /\
        route_source cr = rt_Source route /\ route_inverted cr = rt_Invert route)
      (rr_Routes r) routes.
Proof.
  intros (routes & -> & Hall)%instantiateRouter_Ok. exists routes.
  split; [done|]. split; [symmetry; by eapply Forall2_length|].
  split; [intros k Hk; by rewrite lookup_insert_ne|].
  eapply Forall2_impl; [exact Hall|]. intros route cr Hcr.
  apply compile_route_Ok in Hcr. tauto.
Qed.

(** A router with two routes to the same resolver, the second inverted. *)
Lemma router_routes_keep_order_witness :
  exists routes,
    <["r" := Router "r"
        [{| route_name := EmptyString; route_class := EmptyString;
            route_types := ["A"]; route_source := EmptyString;
            route_resolver := Upstream "a" (upstream_of "1.1.1.1:53");
            route_inverted := false |};
         {| route_name := "\.lan$"; route_class := "IN"; route_types := [];
            route_source := "10.0.0.0/8";
            route_resolver := Upstream "a" (upstream_of "1.1.1.1:53");
            route_inverted := true |}]]> (upstreams ["a"])
    = <["r" := Router "r" routes]> (upstreams ["a"]) /\
    length routes = 2%nat.
Proof.
  destruct (router_routes_keep_order (H := library_of (fun _ => inl "none")) "r"
              {| rr_Routes :=
                   [route_of EmptyString ["A"] "a";
                    {| rt_Type := EmptyString; rt_Types := []; rt_Class := "IN";
                       rt_Name := "\.lan$"; rt_Source := "10.0.0.0/8";
                       rt_Invert := true; rt_Resolver := "a" |}] |}
              (upstreams ["a"])
              (<["r" := Router "r"
                   [{| route_name := EmptyString; route_class := EmptyString;
                       route_types := ["A"]; route_source := EmptyString;
                       route_resolver := Upstream "a" (upstream_of "1.1.1.1:53");
                       route_inverted := false |};
                    {| route_name := "\.lan$"; route_class := "IN";
                       route_types := []; route_source := "10.0.0.0/8";
                       route_resolver := Upstream "a" (upstream_of "1.1.1.1:53");
                       route_inverted := true |}]]> (upstreams ["a"])))
    as (routes & Heq & Hlen & _); [reflexivity|].
  exists routes. by split.
Defined.

(** X11. instantiateRouter stops at the first route it cannot compile: when
    the routes before it compile, a route whose resolver is not in the map
    gives the error that names the router and that resolver, and a route
    the library rejects gives "failure parsing routes" for the router, with
    the reason. Nothing is put in the map. *)
Theorem router_fails_at_first_bad_route `{Library} (id : string) (r : router)
    (rs : gmap string Resolver) (pre post : list route) (rt : route) :
  rr_Routes r = (pre ++ rt :: post)%list ->
  Forall (fun route => is_Some (rs !! rt_Resolver route) /\
            NewRoute_fails (rt_Name route) (rt_Class route) (route_type_list route)
              (rt_Source route) = None) pre ->
  (rs !! rt_Resolver rt = None ->
     instantiateRouter id r rs = Err (ErrRouterRef id (rt_Resolver rt))) /\
  (forall msg, is_Some (rs !! rt_Resolver rt) ->
     NewRoute_fails (rt_Name rt) (rt_Class rt) (route_type_list rt) (rt_Source rt)
       = Some msg ->
     instantiateRouter id r rs = Err (ErrRouteParse id (ErrLib msg)) /\
     error_message (ErrRouteParse id (ErrLib msg))
       = "failure parsing routes for router '" ++ id ++ "' : " ++ msg).
Proof.
  intros Hr Hpre.
  assert (Hpre' : Forall (fun route => is_Ok (compile_route id rs route)) pre).
  { eapply Forall_impl; [exact Hpre|]. intros route [[res Hres] Hnew].
    unfold compile_route, NewRoute. rewrite Hres, Hnew. by eexists. }
  unfold instantiateRouter. rewrite Hr. split.
  - intros Hnone.
    rewrite (router_routes_first_failure id rs pre rt post []
               (ErrRouterRef id (rt_Resolver rt))); [done|done|].
    unfold compile_route. by rewrite Hnone.
  - intros msg [res Hres] Hnew. split; [|done].
    rewrite (router_routes_first_failure id rs pre rt post []
               (ErrRouteParse id (ErrLib msg))); [done|done|].
    unfold compile_route, NewRoute. by rewrite Hres, Hnew.
Qed.

(** The second route of a router names a resolver that is not in the map. *)
Lemma router_fails_at_first_bad_route_witness :
  instantiateRouter (H := library_of (fun _ => inl "none")) "r"
    {| rr_Routes := [route_of "A" [] "a"; route_of "AAAA" [] "zz";
                     route_of EmptyString [] "a"] |}
    (upstreams ["a"])
  = Err (ErrRouterRef "r" "zz").
Proof.
  refine (proj1 (router_fails_at_first_bad_route
                   (H := library_of (fun _ => inl "none")) "r"
                   {| rr_Routes := [route_of "A" [] "a"; route_of "AAAA" [] "zz";
                                    route_of EmptyString [] "a"] |}
                   (upstreams ["a"]) [route_of "A" [] "a"]
                   [route_of EmptyString [] "a"] (route_of "AAAA" [] "zz") _ _) _).
  - reflexivity.
  - repeat constructor. by eexists.
  - reflexivity.
Defined.

(** ** What start instantiates *)

Section start_trace_facts.
Context `{Library} `{MapOrder}.

(** What holds of the first two events, of the events before the loop, of
    the events of the loop and of the listener events holds of every event
    of [start]. *)
Lemma start_trace_inv (Q : event -> Prop) opt args :
  Q (EvSetLevel (logLevel opt)) ->
  Q (EvLoadConfig args) ->
  (forall ev, is_early_event ev = true -> Q ev) ->
  (forall ev, is_listener_event ev = true -> Q ev) ->
  (forall cfg deps rs0,
     loadConfig args = inr cfg -> build_deps cfg = Ok deps ->
     Forall Q (trace (resolve (size deps) cfg 0 deps rs0))) ->
  Forall Q (trace (start opt args)).
Proof.
  intros Hlevel Hload Hearly Hlisten Hloop.
  destruct (start_cases opt args)
    as [[_ ->]|[[_ (msg & _ & ->)]|[_ (cfg & Hcfg & -> & _)]]];
    [by constructor|by repeat constructor|].
  repeat (constructor; [done|]).
  destruct (assemble_trace cfg) as (tl & -> & Htl & _).
  apply Forall_app. split.
  - destruct (build_resolvers_cases cfg)
      as [[Ht _]|(t0 & rs0 & deps & Ht0 & _ & Hdeps & -> & _)].
    + eapply Forall_impl; [exact Ht|]. done.
    + apply Forall_app. split; [|by eapply Hloop].
      eapply Forall_impl; [exact Ht0|]. done.
  - eapply Forall_impl; [exact Htl|]. done.
Qed.

(** The loop instantiates entries of the dependency map only. *)
Lemma resolve_events_in_deps cfg fuel n deps rs :
  Forall (fun ev =>
      match ev with
      | EvInstantiateGroup id _ _ | EvInstantiateRouter id _ _ =>
          is_Some (deps !! id)
      | _ => True
      end) (trace (resolve fuel cfg n deps rs)).
Proof.
  set (Q := fun ev =>
      match ev with
      | EvInstantiateGroup id _ _ | EvInstantiateRouter id _ _ =>
          is_Some (deps !! id)
      | _ => True
      end).
  destruct (resolve_inv cfg (fun d _ => d ⊆ deps) Q (fun _ => True)) with
    (fuel := fuel) (n := n) (deps := deps) (rs := rs) as (HQ & _); try done.
  intros n' d r Hd.
  apply (pass_inv cfg (fun st => st.1.1 ⊆ deps) Q (fun _ => True)); [done|].
  intros [[d' r'] f'] id ds Hid Hd'. simpl in Hd'. split; [|split; [|done]].
  - apply Forall_forall. intros ev Hev.
    assert (is_Some (deps !! id)) by (eexists; by eapply lookup_weaken).
    by apply visit_events in Hev
      as [_ [(g & _ & ->)|(r0 & rs1 & _ & -> & _)]].
  - intros [[d'' r''] f''] Hv. simpl.
    apply visit_Ok in Hv as [(_ & -> & _)|(_ & -> & _)]; [done|].
    etrans; [apply delete_subseteq|done].
Qed.

End start_trace_facts.

(** X12. instantiateRouter accepts a router without routes and makes an
    empty router of it, but [start] never gets there: a router without
    routes has no entry in the dependency map, so every router [start]
    instantiates has at least one route. *)
Theorem routers_without_routes_skipped `{Library} `{MapOrder} (opt : options)
    (args : list string) :
  (forall id rs,
     instantiateRouter id {| rr_Routes := [] |} rs = Ok (<[id := Router id []]> rs)) /\
  (forall id r rs,
     EvInstantiateRouter id r rs ∈ trace (start opt args) -> rr_Routes r <> []).
Proof.
  split; [done|]. intros id r rs Hev.
  pose proof (start_trace_inv
    (fun ev => match ev with
               | EvInstantiateRouter _ r _ => rr_Routes r <> []
               | _ => True
               end) opt args) as Hall.
  rewrite Forall_forall in Hall. apply (Hall I I) in Hev; [done|by intros []..|].
  clear Hev. intros cfg deps rs0 Hcfg Hdeps.
  pose proof (build_deps_consistent cfg deps Hdeps) as Hcons.
  destruct (resolve_inv cfg (fun d _ => consistent cfg d)
    (fun ev => match ev with
               | EvInstantiateRouter _ r _ => rr_Routes r <> []
               | _ => True
               end) (fun _ => True)) with
    (fuel := size deps) (n := 0%nat) (deps := deps) (rs := rs0) as (HQ & _);
    try done.
  intros n d r' Hd.
  apply (pass_inv cfg (fun st => consistent cfg st.1.1)
    (fun ev => match ev with
               | EvInstantiateRouter _ r _ => rr_Routes r <> []
               | _ => True
               end) (fun _ => True)); [done|].
  intros [[d' r''] f'] id' ds Hid Hd'. simpl in Hd'. split; [|split; [|done]].
  - apply Forall_forall. intros ev Hev.
    apply visit_events in Hev as [_ [(g & _ & ->)|(r0 & rs1 & Hr0 & -> & _)]];
      [done|].
    destruct Hd as [Hdisj Hnode]. pose proof (Hnode id' ds Hid) as Hn.
    unfold node_deps in Hn. destruct (Hdisj id') as [Hg|Hg]; [|congruence].
    rewrite Hg, Hr0 in Hn. intros Hnil. by rewrite Hnil in Hn.
  - intros [[d'' r'''] f''] Hv. simpl.
    apply visit_Ok in Hv as [(_ & -> & _)|(_ & -> & _)]; [done|].
    eapply consistent_subseteq; [exact Hd'|apply delete_subseteq].
Qed.

(** ** Listeners *)

Section listener_more_facts.
Context `{Library} `{MapOrder}.

Lemma built_app t1 t2 : built (t1 ++ t2) = (built t1 ++ built t2)%list.
Proof. apply omap_app. Qed.

Lemma started_app t1 t2 : started (t1 ++ t2) = (started t1 ++ started t2)%list.
Proof. apply omap_app. Qed.

Lemma no_listener_events t :
  Forall (fun ev => is_listener_event ev = false) t -> built t = [] /\ started t = [].
Proof.
  induction 1 as [|ev t Hev _ [IHb IHs]]; [done|].
  destruct ev; try discriminate; split; first [exact IHb|exact IHs].
Qed.

Lemma started_go ls : started (EvGo <$> ls) = ls /\ built (EvGo <$> ls) = [].
Proof.
  induction ls as [|l ls [IHs IHb]]; [done|]. split; [|exact IHb].
  change (started (EvGo <$> l :: ls)) with (l :: started (EvGo <$> ls)).
  by rewrite IHs.
Qed.

(** The loop over the listeners builds what it returns, and starts nothing. *)
Lemma add_listeners_built rs l acc :
  started (trace (for_each (add_listener rs) l acc)) = [] /\
  forall ls, result (for_each (add_listener rs) l acc) = Ok ls ->
    ls = (acc ++ built (trace (for_each (add_listener rs) l acc)))%list.
Proof.
  revert acc. induction l as [|[id ln] l IH]; intros acc.
  - simpl. split; [done|]. intros ls [= <-]. by rewrite app_nil_r.
  - change (for_each (add_listener rs) ((id, ln) :: l) acc)
      with (add_listener rs acc (id, ln) ≫= for_each (add_listener rs) l).
    rewrite trace_bind, result_bind.
    destruct (new_listener rs id ln) as [x| | |] eqn:Hnew.
    + rewrite (add_listener_Ok rs acc id ln x Hnew).
      cbn [trace result]. rewrite started_app, built_app.
      change (started [EvNewListener x]) with (@nil Listener).
      change (built [EvNewListener x]) with [x].
      destruct (IH (append acc x)) as [IHs IHb]. split; [done|].
      intros ls Hls. rewrite app_assoc. exact (IHb ls Hls).
    + unfold add_listener. rewrite trace_bind, result_bind. simpl.
      rewrite Hnew. done.
    + unfold add_listener. rewrite trace_bind, result_bind. simpl.
      rewrite Hnew. done.
    + unfold add_listener. rewrite trace_bind, result_bind. simpl.
      rewrite Hnew. done.
Qed.

(** The trace and the result of [assemble] once the map of resolvers is
    there. *)
Lemma assemble_exact cfg rs :
  result (build_resolvers cfg) = Ok rs ->
  trace (assemble cfg)
    = (trace (build_resolvers cfg) ++ trace (build_listeners rs cfg) ++
       match result (build_listeners rs cfg) with
       | Ok ls => EvGo <$> ls
       | _ => []
       end)%list /\
  result (assemble cfg) = result (build_listeners rs cfg).
Proof.
  intros Hrs. unfold assemble.
  rewrite trace_bind, result_bind, Hrs, trace_bind, result_bind.
  destruct (result (build_listeners rs cfg)) as [ls| | |]; try done.
  destruct (start_listeners_spec ls) as [Ht Hr].
  rewrite trace_bind, result_bind, Hr, Ht. simpl. by rewrite app_nil_r.
Qed.

(** The listeners [start] builds and starts. *)
Lemma start_listeners_exact opt args :
  (forall ls, result (start opt args) = Ok ls ->
     built (trace (start opt args)) = ls /\ started (trace (start opt args)) = ls) /\
  (~ is_Ok (result (start opt args)) -> started (trace (start opt args)) = []) /\
  (built (trace (start opt args)) = [] \/
   exists cfg rs, loadConfig args = inr cfg /\
     result (build_resolvers cfg) = Ok rs /\
     built (trace (start opt args)) = built (trace (build_listeners rs cfg))).
Proof.
  destruct (start_cases opt args)
    as [[Hlt ->]|[[_ (msg & Hmsg & ->)]|[_ (cfg & Hcfg & Ht & Hr)]]].
  { split; [done|]. split; [done|]. by left. }
  { split; [done|]. split; [done|]. by left. }
  rewrite Ht, Hr.
  change (EvSetLevel (logLevel opt) :: EvLoadConfig args :: trace (assemble cfg))
    with ([EvSetLevel (logLevel opt); EvLoadConfig args] ++ trace (assemble cfg))%list.
  rewrite built_app, started_app. simpl.
  destruct (build_resolvers_spec cfg) as (HQ & _).
  assert (Hnone : built (trace (build_resolvers cfg)) = [] /\
                  started (trace (build_resolvers cfg)) = []).
  { apply no_listener_events. eapply Forall_impl; [exact HQ|]. by intros ev [_ ?]. }
  destruct Hnone as [Hb Hs].
  destruct (result (build_resolvers cfg)) as [rs| | |] eqn:Hrs.
  2-4: destruct (assemble_cases cfg) as [(_ & Hta & Hfl)|(? & ? & ? & _)];
       [|congruence]; rewrite Hta, Hb, Hs; rewrite Hrs in Hfl;
       (split; [intros ls Hls; by rewrite Hls in Hfl|]);
       (split; [done|by left]).
  destruct (assemble_exact cfg rs Hrs) as [-> ->].
  rewrite !built_app, !started_app, Hb, Hs. simpl.
  destruct (add_listeners_built rs (range RangeListeners (Listeners cfg)) [])
    as [Hstarted Hbuilt].
  fold (build_listeners rs cfg) in Hstarted, Hbuilt. rewrite Hstarted. simpl.
  assert (Hright : forall t, built t = [] ->
            (built (trace (build_listeners rs cfg)) ++ built t)%list = [] \/
            exists cfg' rs', loadConfig args = inr cfg' /\
              result (build_resolvers cfg') = Ok rs' /\
              (built (trace (build_listeners rs cfg)) ++ built t)%list
              = built (trace (build_listeners rs' cfg'))).
  { intros t Hbt. right. exists cfg, rs. by rewrite Hbt, app_nil_r. }
  destruct (result (build_listeners rs cfg)) as [ls| | |] eqn:Hls.
  - destruct (started_go ls) as [Hsg Hbg]. rewrite Hsg.
    split; [|split; [by intros []; eexists|by apply Hright]].
    intros ? [= <-]. rewrite Hbg, app_nil_r.
    pose proof (Hbuilt ls eq_refl) as Hls'. simpl in Hls'. by rewrite <- Hls'.
  - split; [done|]. split; [done|]. by apply Hright.
  - split; [done|]. split; [done|]. by apply Hright.
  - split; [done|]. split; [done|]. by apply Hright.
Qed.

(** A listener the loop builds was returned by [new_listener]. *)
Lemma built_listeners_new rs l acc :
  Forall (fun ln => exists id l0, (id, l0) ∈ l /\ new_listener rs id l0 = Ok ln)
    (built (trace (for_each (add_listener rs) l acc))).
Proof.
  revert acc. induction l as [|[id l0] l IH]; intros acc; [constructor|].
  change (for_each (add_listener rs) ((id, l0) :: l) acc)
    with (add_listener rs acc (id, l0) ≫= for_each (add_listener rs) l).
  rewrite trace_bind.
  destruct (new_listener rs id l0) as [x| | |] eqn:Hnew.
  - rewrite (add_listener_Ok rs acc id l0 x Hnew). cbn [trace result].
    rewrite built_app. change (built [EvNewListener x]) with [x].
    constructor.
    + exists id, l0. split; [by left|done].
    + eapply Forall_impl; [apply IH|]. intros ln (id' & l' & Hin & Hln).
      exists id', l'. split; [by right|done].
  - unfold add_listener. rewrite trace_bind, result_bind. simpl. rewrite Hnew.
    constructor.
  - unfold add_listener. rewrite trace_bind, result_bind. simpl. rewrite Hnew.
    constructor.
  - unfold add_listener. rewrite trace_bind, result_bind. simpl. rewrite Hnew.
    constructor.
Qed.

Lemma new_listener_resolver rs id l ln :
  new_listener rs id l = Ok ln ->
  match listener_resolver ln with
  | None => l_Protocol l = "admin"
  | Some r => l_Protocol l <> "admin" /\ r = rs !! l_Resolver l /\ is_Some r
  end.
Proof.
  intros Hnew. unfold new_listener in Hnew.
  destruct (String.eqb_spec (l_Protocol l) "admin") as [Hp|Hp].
  - rewrite Hp, andb_false_r in Hnew. simpl in Hnew.
    unfold tls_config, call in Hnew.
    repeat match type of Hnew with
           | context [match ?x with _ => _ end] =>
               destruct x eqn:?; simpl in Hnew; try discriminate Hnew
           end.
    by injection Hnew as <-.
  - assert (Hk : is_Some (rs !! l_Resolver l)).
    { unfold has_key in Hnew. by case_bool_decide as Hkey. }
    destruct (negb (has_key rs (l_Resolver l)) && negb false); [done|].
    unfold tls_config, call, wrap_err in Hnew. simpl in Hnew.
    repeat match type of Hnew with
           | context [match ?x with _ => _ end] =>
               destruct x eqn:?; simpl in Hnew; try discriminate Hnew
           end;
    injection Hnew as <-; simpl; done.
Qed.

Lemma new_listener_id rs id l ln :
  new_listener rs id l = Ok ln -> listener_id ln = id.
Proof.
  intros Hnew. unfold new_listener, tls_config, call, wrap_err in Hnew.
  simpl in Hnew.
  repeat match type of Hnew with
         | context [match ?x with _ => _ end] =>
             destruct x eqn:?; simpl in Hnew; try discriminate Hnew
         end;
  by injection Hnew as <-.
Qed.

Lemma new_listener_protocol rs id l :
  l_Protocol l ∉ listener_protocols ->
  is_Some (rs !! l_Resolver l) ->
  parseCIDRList_fails (l_AllowedNet l) = None ->
  new_listener rs id l = Err (ErrUnsupportedProtocol (l_Protocol l) id).
Proof.
  intros Hnot Hk Hcidr. unfold new_listener, has_key.
  rewrite bool_decide_eq_true_2 by done. simpl. rewrite Hcidr. simpl.
  unfold listener_protocols in Hnot.
  repeat (apply not_elem_of_cons in Hnot as [Hp%String.eqb_neq Hnot];
          rewrite Hp; clear Hp).
  done.
Qed.

Lemma new_listener_cidr rs id l msg :
  is_Some (rs !! l_Resolver l) \/ l_Protocol l = "admin" ->
  parseCIDRList_fails (l_AllowedNet l) = Some msg ->
  new_listener rs id l = Err (ErrLib msg).
Proof.
  intros Hk Hcidr. unfold new_listener.
  assert (Hgate : negb (has_key rs (l_Resolver l))
                  && negb (l_Protocol l =? "admin") = false).
  { destruct Hk as [Hk| ->].
    - unfold has_key. by rewrite bool_decide_eq_true_2.
    - by rewrite andb_false_r. }
  rewrite Hgate. simpl. by rewrite Hcidr.
Qed.

(** The listeners the loop returns, one for each entry, in order. *)
Lemma add_listeners_ids rs l acc ls :
  result (for_each (add_listener rs) l acc) = Ok ls ->
  listener_id <$> ls = ((listener_id <$> acc) ++ l.*1)%list.
Proof.
  revert acc. induction l as [|[id l0] l IH]; intros acc.
  { simpl. intros [= <-]. by rewrite app_nil_r. }
  change (for_each (add_listener rs) ((id, l0) :: l) acc)
    with (add_listener rs acc (id, l0) ≫= for_each (add_listener rs) l).
  rewrite result_bind.
  destruct (new_listener rs id l0) as [x| | |] eqn:Hnew.
  - rewrite (add_listener_Ok rs acc id l0 x Hnew). cbn [result].
    intros Hls%IH. rewrite Hls. unfold append. rewrite fmap_app. simpl.
    rewrite (new_listener_id _ _ _ _ Hnew). by rewrite <- app_assoc.
  - unfold add_listener. rewrite !result_bind. simpl. by rewrite Hnew.
  - unfold add_listener. rewrite !result_bind. simpl. by rewrite Hnew.
  - unfold add_listener. rewrite !result_bind. simpl. by rewrite Hnew.
Qed.

End listener_more_facts.

(** X13. The listeners are started all together or not at all. When
    [start] gets to serve, the listeners it started are the listeners it
    built, each once and in the order they were built, and they are what it
    serves with; when it fails -- be it on the last listener -- no listener
    has been started. *)
Theorem listeners_started_together `{Library} `{MapOrder} (opt : options)
    (args : list string) :
  (forall ls, result (start opt args) = Ok ls ->
     built (trace (start opt args)) = ls /\ started (trace (start opt args)) = ls) /\
  (~ is_Ok (result (start opt args)) -> started (trace (start opt args)) = []).
Proof.
  destruct (start_listeners_exact opt args) as (Hok & Hfail & _). by split.
Qed.

(** [chain_config] is served by its one listener; in
    [unbound_listeners_config] the admin listener is built and not started. *)
Lemma listeners_started_together_witness :
  (exists ls,
     result (start (H := library_of (fun _ => inr chain_config))
               (H0 := order_forward) default_options ["config.toml"]) = Ok ls /\
     length ls = 1%nat /\
     started (trace (start (H := library_of (fun _ => inr chain_config))
                       (H0 := order_forward) default_options ["config.toml"])) = ls) /\
  started (trace (start (H := library_of (fun _ => inr unbound_listeners_config))
                    (H0 := order_forward) default_options ["config.toml"])) = [].
Proof.
  split.
  - destruct (result (start (H := library_of (fun _ => inr chain_config))
                        (H0 := order_forward) default_options ["config.toml"]))
      as [ls| | |] eqn:Hres; try (vm_compute in Hres; discriminate).
    exists ls. split; [done|].
    destruct (proj1 (listeners_started_together
                       (H := library_of (fun _ => inr chain_config))
                       (H0 := order_forward) default_options ["config.toml"])
                ls Hres) as [_ Hs].
    split; [|done]. vm_compute in Hres. by injection Hres as <-.
  - apply (proj2 (listeners_started_together
                    (H := library_of (fun _ => inr unbound_listeners_config))
                    (H0 := order_forward) default_options ["config.toml"])).
    intros [ls Hls]. vm_compute in Hls. discriminate.
Defined.

(** X14. Every listener but the admin listener is built with a resolver:
    the one its configuration names, taken from the map of resolvers. No
    listener that serves DNS is ever built, let alone started, with a nil
    resolver. *)
Theorem serving_listeners_have_a_resolver `{Library} `{MapOrder} (opt : options)
    (args : list string) :
  (forall rs id l ln, new_listener rs id l = Ok ln ->
     match listener_resolver ln with
     | None => l_Protocol l = "admin"
     | Some r => l_Protocol l <> "admin" /\ r = rs !! l_Resolver l /\ is_Some r
     end) /\
  (forall ln, ln ∈ built (trace (start opt args)) ->
     listener_resolver ln <> Some None) /\
  (forall ln, ln ∈ started (trace (start opt args)) ->
     listener_resolver ln <> Some None).
Proof.
  split; [apply new_listener_resolver|].
  assert (Hbuilt : forall ln, ln ∈ built (trace (start opt args)) ->
            listener_resolver ln <> Some None).
  { intros ln Hin.
    destruct (start_listeners_exact opt args)
      as (_ & _ & [Hnil|(cfg & rs & _ & _ & Heq)]).
    - rewrite Hnil in Hin. by apply elem_of_nil in Hin.
    - rewrite Heq in Hin. unfold build_listeners in Hin.
      pose proof (built_listeners_new rs (range RangeListeners (Listeners cfg)) [])
        as Hall.
      rewrite Forall_forall in Hall.
      destruct (Hall ln Hin) as (id & l & _ & Hnew).
      apply new_listener_resolver in Hnew.
      destruct (listener_resolver ln) as [r|]; [|done].
      destruct Hnew as (_ & _ & [res Hres]). congruence. }
  split; [done|]. intros ln Hin.
  destruct (result (start opt args)) as [ls| | |] eqn:Hres.
  - destruct (proj1 (start_listeners_exact opt args) ls Hres) as [Hb Hs].
    apply Hbuilt. congruence.
  - rewrite (proj1 (proj2 (start_listeners_exact opt args))) in Hin;
      [by apply elem_of_nil in Hin|rewrite Hres; by intros [? ?]].
  - rewrite (proj1 (proj2 (start_listeners_exact opt args))) in Hin;
      [by apply elem_of_nil in Hin|rewrite Hres; by intros [? ?]].
  - rewrite (proj1 (proj2 (start_listeners_exact opt args))) in Hin;
      [by apply elem_of_nil in Hin|rewrite Hres; by intros [? ?]].
Qed.

(** X15. The checks on a listener come in a fixed order: a listener other
    than the admin listener whose resolver is missing is rejected for that,
    whatever else is wrong with it; then a list of allowed networks that
    does not parse is reported with the error of the parser; only then is
    the protocol looked at, and one that is not among the seven supported is
    rejected by name. No listener is built for another protocol. *)
Theorem listener_checks_in_order `{Library} (rs : gmap string Resolver)
    (id : string) (l : listener) :
  (rs !! l_Resolver l = None -> l_Protocol l <> "admin" ->
   new_listener rs id l = Err (ErrListenerRef id (l_Resolver l))) /\
  (forall msg, is_Some (rs !! l_Resolver l) \/ l_Protocol l = "admin" ->
     parseCIDRList_fails (l_AllowedNet l) = Some msg ->
     new_listener rs id l = Err (ErrLib msg)) /\
  (is_Some (rs !! l_Resolver l) ->
   parseCIDRList_fails (l_AllowedNet l) = None ->
   l_Protocol l ∉ listener_protocols ->
   new_listener rs id l = Err (ErrUnsupportedProtocol (l_Protocol l) id)) /\
  (is_Ok (new_listener rs id l) -> l_Protocol l ∈ listener_protocols).
Proof.
  split; [|split; [|split]].
  - intros Hnone Hp. unfold new_listener, has_key.
    rewrite bool_decide_eq_false_2 by (rewrite Hnone; by intros [? ?]).
    apply String.eqb_neq in Hp. by rewrite Hp.
  - intros msg. apply new_listener_cidr.
  - intros Hk Hcidr Hnot. by apply new_listener_protocol.
  - intros [ln Hln].
    destruct (decide (l_Protocol l ∈ listener_protocols)) as [|Hnot]; [done|].
    exfalso.
    destruct (rs !! l_Resolver l) as [res|] eqn:Hres.
    + destruct (parseCIDRList_fails (l_AllowedNet l)) as [msg|] eqn:Hcidr.
      * rewrite (new_listener_cidr rs id l msg) in Hln; [done| |done].
        left. by rewrite Hres.
      * rewrite new_listener_protocol in Hln; [done|done| |done].
        by rewrite Hres.
    + assert (Hp : l_Protocol l <> "admin").
      { intros Hp. apply Hnot. rewrite Hp. unfold listener_protocols. set_solver. }
      unfold new_listener, has_key in Hln.
      rewrite bool_decide_eq_false_2 in Hln by (rewrite Hres; by intros [? ?]).
      apply String.eqb_neq in Hp. by rewrite Hp in Hln.
Qed.

Lemma listener_checks_in_order_witness :
  let rs : gmap string Resolver := {["u" := Upstream "u" (upstream_of "1.1.1.1:53")]} in
  let new := new_listener (H := library_strict (fun _ => inl "none")) rs "l" in
  new (with_allowed [EmptyString] (listener_of "ftp" "missing"))
    = Err (ErrListenerRef "l" "missing") /\
  new (with_allowed [EmptyString] (listener_of "ftp" "u"))
    = Err (ErrLib "invalid CIDR address") /\
  new (with_allowed [EmptyString] (listener_of "admin" "missing"))
    = Err (ErrLib "invalid CIDR address") /\
  new (listener_of "ftp" "u") = Err (ErrUnsupportedProtocol "ftp" "l") /\
  "udp" ∈ listener_protocols.
Proof.
  set (lib := library_strict (fun _ => inl "none")).
  set (rs := ({["u" := Upstream "u" (upstream_of "1.1.1.1:53")]}
              : gmap string Resolver)).
  simpl.
  split; [|split; [|split; [|split]]].
  - apply (proj1 (listener_checks_in_order (H := lib) rs "l"
                    (with_allowed [EmptyString] (listener_of "ftp" "missing"))));
      [reflexivity|discriminate].
  - apply (proj1 (proj2 (listener_checks_in_order (H := lib) rs "l"
                    (with_allowed [EmptyString] (listener_of "ftp" "u"))))).
    + left. by eexists.
    + reflexivity.
  - apply (proj1 (proj2 (listener_checks_in_order (H := lib) rs "l"
                    (with_allowed [EmptyString] (listener_of "admin" "missing"))))).
    + by right.
    + reflexivity.
  - apply (proj1 (proj2 (proj2 (listener_checks_in_order (H := lib) rs "l"
                    (listener_of "ftp" "u"))))).
    + by eexists.
    + reflexivity.
    + unfold listener_protocols. intros Hin.
      repeat (apply elem_of_cons in Hin as [Hin|Hin]; [discriminate Hin|]).
      by apply elem_of_nil in Hin.
  - apply (proj2 (proj2 (proj2 (listener_checks_in_order (H := lib) rs "l"
                    (listener_of "udp" "u"))))).
    by eexists.
Defined.

(** X16. When start succeeds it has built exactly one listener for each
    listener of the configuration, under the id of that listener, in the
    order the loop over the listeners visited them: none is left out and
    none is built twice. *)
Theorem every_listener_built_once `{Library} `{MapOrder} (opt : options)
    (args : list string) (cfg : config) (ls : list Listener) :
  loadConfig args = inr cfg ->
  result (start opt args) = Ok ls ->
  listener_id <$> ls = (range RangeListeners (Listeners cfg)).*1 /\
  listener_id <$> ls ≡ₚ (map_to_list (Listeners cfg)).*1 /\
  NoDup (listener_id <$> ls) /\
  length ls = size (Listeners cfg).
Proof.
  intros Hcfg Hres.
  assert (Hids : listener_id <$> ls = (range RangeListeners (Listeners cfg)).*1).
  { destruct (start_cases opt args)
      as [[_ Hs]|[[_ (msg & Hmsg & Hs)]|[_ (cfg' & Hcfg' & _ & Hr)]]].
    - by rewrite Hs in Hres.
    - by rewrite Hs in Hres.
    - assert (cfg' = cfg) as -> by congruence.
      rewrite Hr in Hres.
      destruct (assemble_cases cfg) as [(Hnot & _ & Hfl)|(rs & tl & _ & _ & _ & Hra)].
      + rewrite Hres in Hfl. simpl in Hfl.
        destruct (result (build_resolvers cfg)); simpl in Hfl; try done.
        exfalso. apply Hnot. by eexists.
      + rewrite Hra in Hres. unfold build_listeners in Hres.
        by apply add_listeners_ids in Hres. }
  split; [done|].
  assert (Hperm : listener_id <$> ls ≡ₚ (map_to_list (Listeners cfg)).*1).
  { rewrite Hids. unfold range. by rewrite range_order_perm. }
  split; [done|]. split.
  - rewrite Hids. apply NoDup_range.
  - rewrite <- (length_fmap listener_id), Hids, length_fmap. apply length_range.
Qed.

Lemma every_listener_built_once_witness :
  exists ls,
    result (start (H := library_of (fun _ => inr two_listeners_config))
              (H0 := order_backward) default_options ["config.toml"]) = Ok ls /\
    listener_id <$> ls ≡ₚ ["a"; "b"] /\ length ls = 2%nat.
Proof.
  destruct (result (start (H := library_of (fun _ => inr two_listeners_config))
                      (H0 := order_backward) default_options ["config.toml"]))
    as [ls| | |] eqn:Hres; try (vm_compute in Hres; discriminate).
  exists ls. split; [done|].
  destruct (every_listener_built_once
              (H := library_of (fun _ => inr two_listeners_config))
              (H0 := order_backward) default_options ["config.toml"]
              two_listeners_config ls eq_refl Hres) as (_ & Hperm & _ & Hlen).
  split.
  - rewrite Hperm. vm_compute. reflexivity.
  - rewrite Hlen. vm_compute. reflexivity.
Defined.

(** ** The map of resolvers *)

Section resolver_map_facts.
Context `{Library}.

Lemma group_resolver_id id g gr rs r :
  group_resolver id g gr rs = Ok r -> resolver_id r = id.
Proof.
  unfold group_resolver. intros Hr. cbv zeta in Hr.
  repeat first
    [ discriminate Hr
    | apply obind_Ok in Hr as (? & _ & Hr)
    | apply call_Ok in Hr
    | match type of Hr with
      | (if ?b then _ else _) = Ok _ => destruct b
      | (match ?x with _ => _ end) = Ok _ => destruct x
      end ];
  solve [ by injection Hr as <- | by subst r ].
Qed.

Lemma instantiateGroup_named id g rs rs' :
  instantiateGroup id g rs = Ok rs' ->
  exists r, rs' = <[id := r]> rs /\ resolver_id r = id.
Proof.
  unfold instantiateGroup.
  intros (gr & _ & (r & Hr & [= <-])%obind_Ok)%obind_Ok.
  exists r. split; [done|]. by eapply group_resolver_id.
Qed.

Lemma add_resolver_Ok rs id r rs' :
  result (add_resolver rs (id, r)) = Ok rs' ->
  rs !! id = None /\ rs' = <[id := Upstream id r]> rs.
Proof.
  unfold add_resolver, has_key. case_bool_decide as Hkey; [done|].
  rewrite !result_bind. simpl. unfold resolverFromConfig, call.
  destruct (resolverFromConfig_fails id r); simpl; [done|].
  intros [= <-]. split; [|done].
  destruct (rs !! id) eqn:Hid; [|done]. exfalso. apply Hkey. by eexists.
Qed.

(** The loop over the resolvers stores each under its id. *)
Lemma add_resolvers_exact l acc rs :
  result (for_each add_resolver l acc) = Ok rs ->
  forall k res, rs !! k = Some res <->
    acc !! k = Some res \/ exists r, (k, r) ∈ l /\ res = Upstream k r.
Proof.
  revert acc. induction l as [|[id r] l IH]; intros acc.
  { simpl. intros [= <-] k res. split; [by left|].
    intros [?|(r & Hin & _)]; [done|]. by apply elem_of_nil in Hin. }
  change (for_each add_resolver ((id, r) :: l) acc)
    with (add_resolver acc (id, r) ≫= for_each add_resolver l).
  rewrite result_bind.
  destruct (result (add_resolver acc (id, r))) as [rs1| | |] eqn:Hadd; try done.
  apply add_resolver_Ok in Hadd as [Hnone ->].
  intros Hrs k res. rewrite (IH _ Hrs k res). split.
  - intros [Hk|(r' & Hin & ->)].
    + apply lookup_insert_Some in Hk as [[<- <-]|[_ Hk]].
      * right. exists r. split; [by left|done].
      * by left.
    + right. exists r'. split; [by right|done].
  - intros [Hk|(r' & Hin & ->)].
    + left. apply lookup_insert_Some. right. split; [|done].
      intros <-. congruence.
    + apply elem_of_cons in Hin as [[= -> ->]|Hin].
      * left. apply lookup_insert_Some. by left.
      * right. by exists r'.
Qed.

End resolver_map_facts.

Section resolve_map_facts.
Context `{Library} `{MapOrder} (cfg : config).
Context (deps0 : gmap string (list string)) (rs0 : gmap string Resolver).
Hypothesis consistent_deps0 : consistent cfg deps0.

(** A node that is visited with its dependencies in the map is stored under
    its id. *)
Lemma visit_node d rs found id ds d' rs' found' :
  is_Some (deps0 !! id) ->
  result (visit cfg (d, rs, found) (id, ds)) = Ok (d', rs', found') ->
  (d' = d /\ rs' = rs) \/
  (d' = delete id d /\ exists res, rs' = <[id := res]> rs /\ resolver_id res = id).
Proof.
  intros [ds0 Hid]. rewrite result_visit.
  destruct (ready rs ds); [|intros [= <- <- <-]; by left].
  rewrite result_instantiate_node.
  destruct consistent_deps0 as [Hdisj Hdeps].
  pose proof (Hdeps id ds0 Hid) as Hnode. unfold node_deps in Hnode.
  destruct (Groups cfg !! id) as [g|] eqn:Hg.
  - destruct (Hdisj id) as [Hg'|Hr]; [congruence|]. rewrite Hr.
    destruct (instantiateGroup id g rs) as [rs1| | |] eqn:Hinst; try done.
    simpl. intros [= <- <- <-]. right. split; [done|].
    by apply instantiateGroup_named in Hinst.
  - destruct (Routers cfg !! id) as [r|] eqn:Hr; [|done]. simpl.
    destruct (instantiateRouter id r rs) as [rs1| | |] eqn:Hinst; try done.
    simpl. intros [= <- <- <-]. right. split; [done|].
    apply instantiateRouter_Ok in Hinst as (routes & -> & _). by eexists.
Qed.

(** When the dependency loop is through, the ids outside the dependency map
    are bound as before and those inside are bound to what was instantiated
    under them. *)
Lemma resolve_map fuel n rs' :
  result (resolve fuel cfg n deps0 rs0) = Ok rs' ->
  (forall k, deps0 !! k = None -> rs' !! k = rs0 !! k) /\
  (forall k, is_Some (deps0 !! k) ->
     exists res, rs' !! k = Some res /\ resolver_id res = k).
Proof.
  set (J := fun (d : gmap string (list string)) (rs : gmap string Resolver) =>
              d ⊆ deps0 /\
              (forall k, deps0 !! k = None -> rs !! k = rs0 !! k) /\
              (forall k, is_Some (deps0 !! k) -> d !! k = None ->
                 exists res, rs !! k = Some res /\ resolver_id res = k)).
  intros Hres.
  destruct (resolve_inv cfg J (fun _ => True) (fun _ => True)) with
    (fuel := fuel) (n := n) (deps := deps0) (rs := rs0)
    as (_ & Hok & _); try done.
  - intros n' d rs HJ.
    apply (pass_inv cfg (fun st => J st.1.1 st.1.2) (fun _ => True) (fun _ => True));
      [exact HJ|].
    intros [[d1 rs1] f1] id ds Hid HJ1. simpl in HJ1.
    split; [by apply Forall_forall|]. split; [|done].
    intros [[d2 rs2] f2] Hvisit. simpl.
    assert (Hnode : is_Some (deps0 !! id)).
    { destruct HJ as (Hsub & _). exists ds. by eapply lookup_weaken. }
    destruct (visit_node _ _ _ _ _ _ _ _ Hnode Hvisit)
      as [[-> ->]|(-> & res & -> & Hname)]; [done|].
    destruct HJ1 as (Hsub1 & Hout1 & Hin1). split; [|split].
    + etrans; [apply delete_subseteq|done].
    + intros k Hk. rewrite lookup_insert_ne; [by apply Hout1|].
      intros <-. rewrite Hk in Hnode. by destruct Hnode.
    + intros k Hk Hdel. destruct (decide (k = id)) as [->|Hne].
      * exists res. by rewrite lookup_insert_eq.
      * rewrite lookup_insert_ne by done. apply Hin1; [done|].
        by rewrite lookup_delete_ne in Hdel.
  - split; [done|]. split; [done|]. intros k [ds Hk] Hnone. congruence.
  - destruct (Hok rs' Hres) as (d & Hsize & _ & Hout & Hin).
    split; [done|]. intros k Hk. apply Hin; [done|].
    apply map_size_empty_iff in Hsize. rewrite Hsize. apply lookup_empty.
Qed.

End resolve_map_facts.

Section resolver_map_result.
Context `{Library} `{MapOrder}.

(** The steps of a run of [build_resolvers] that succeeds. *)
Lemma build_resolvers_Ok cfg rs :
  result (build_resolvers cfg) = Ok rs ->
  exists rs0 deps,
    result (for_each add_resolver (range RangeResolvers (Resolvers cfg)) ∅) = Ok rs0 /\
    build_deps cfg = Ok deps /\
    result (resolve (size deps) cfg 0 deps rs0) = Ok rs.
Proof.
  unfold build_resolvers.
  intros (u & _ & (rs0 & Hrs0 & (deps & Hdeps & Hres & _)%tbind_Ok & _)%tbind_Ok
            & _)%tbind_Ok.
  exists rs0, deps. by repeat split.
Qed.

Lemma node_deps_is_Some cfg k :
  is_Some (node_deps cfg k) <->
  is_Some (Groups cfg !! k) \/
  exists r, Routers cfg !! k = Some r /\ rr_Routes r <> [].
Proof.
  unfold node_deps.
  destruct (Groups cfg !! k) as [g|].
  { split; [left|]; by eexists. }
  destruct (Routers cfg !! k) as [r|].
  - destruct (rr_Routes r) as [|rt rts] eqn:Hr; simpl.
    + split; [by intros [? ?]|].
      intros [[? ?]|(r' & [= <-] & Hne)]; [done|]. by rewrite Hr in Hne.
    + split; [|by eexists]. intros _. right. exists r. by rewrite Hr.
  - split; [by intros [? ?]|]. by intros [[? ?]|(r' & ? & _)].
Qed.

(** What the map of resolvers holds once it is built. *)
Lemma build_resolvers_map cfg rs :
  result (build_resolvers cfg) = Ok rs ->
  (forall k, node_deps cfg k = None ->
     rs !! k = Upstream k <$> Resolvers cfg !! k) /\
  (forall k, is_Some (node_deps cfg k) ->
     exists res, rs !! k = Some res /\ resolver_id res = k).
Proof.
  intros (rs0 & deps & Hrs0 & Hdeps & Hres)%build_resolvers_Ok.
  pose proof (build_deps_consistent _ _ Hdeps) as Hcons.
  apply build_deps_spec in Hdeps as [_ Hnode].
  destruct (resolve_map cfg deps rs0 Hcons _ _ _ Hres) as [Hout Hin].
  split.
  - intros k Hk. rewrite Hout by (by rewrite Hnode).
    pose proof (add_resolvers_exact _ _ _ Hrs0 k) as Hexact.
    destruct (Resolvers cfg !! k) as [r|] eqn:Hr; simpl.
    + apply Hexact. right. exists r. split; [|done]. by apply elem_of_range.
    + apply eq_None_not_Some. intros [res Hk0].
      apply Hexact in Hk0 as [Hk0|(r & Hin' & _)]; [done|].
      apply elem_of_range in Hin'. congruence.
  - intros k Hk. apply Hin. by rewrite Hnode.
Qed.

End resolver_map_result.

(** X17. When the map of resolvers has been built, it binds exactly the ids
    of the configuration's resolvers, of its groups, and of its routers that
    have at least one route: every one of them is bound, and no other id
    is. *)
Theorem resolver_map_complete `{Library} `{MapOrder} (cfg : config)
    (rs : gmap string Resolver) :
  result (build_resolvers cfg) = Ok rs ->
  forall k, is_Some (rs !! k) <->
    is_Some (Resolvers cfg !! k) \/ is_Some (Groups cfg !! k) \/
    exists r, Routers cfg !! k = Some r /\ rr_Routes r <> [].
Proof.
  intros [Hout Hin]%build_resolvers_map k.
  destruct (node_deps cfg k) as [ds|] eqn:Hk.
  - assert (Hnode : is_Some (node_deps cfg k)) by (by eexists).
    destruct (Hin k Hnode) as (res & Hres & _).
    split; [|by eexists]. intros _. right.
    by apply node_deps_is_Some in Hnode.
  - rewrite (Hout k Hk), fmap_is_Some. split; [by left|].
    intros [Hr|Hnode]; [done|].
    apply node_deps_is_Some in Hnode. rewrite Hk in Hnode. by destruct Hnode.
Qed.

Lemma resolver_map_complete_witness :
  exists rs,
    result (build_resolvers (H := library_of (fun _ => inr chain_config))
              (H0 := order_backward) chain_config) = Ok rs /\
    is_Some (rs !! "r") /\ rs !! "l" = None.
Proof.
  destruct (result (build_resolvers (H := library_of (fun _ => inr chain_config))
                      (H0 := order_backward) chain_config))
    as [rs| | |] eqn:Hres; try (vm_compute in Hres; discriminate).
  exists rs. split; [done|].
  pose proof (resolver_map_complete (H := library_of (fun _ => inr chain_config))
                (H0 := order_backward) chain_config rs Hres) as Hmap.
  split.
  - apply Hmap. right. right.
    exists {| rr_Routes := [route_of EmptyString ["A"] "a"] |}.
    split; [vm_compute; reflexivity|discriminate].
  - apply eq_None_not_Some. intros Hl%Hmap.
    destruct Hl as [[x Hx]|[[x Hx]|(x & Hx & _)]];
      vm_compute in Hx; discriminate Hx.
Defined.

(** X18. Every resolver in the finished map carries the id it is stored
    under. An id that names neither a group nor a router with routes is
    bound to the upstream resolver made from its configuration. *)
Theorem resolvers_stored_under_their_id `{Library} `{MapOrder} (cfg : config)
    (rs : gmap string Resolver) (k : string) (res : Resolver) :
  result (build_resolvers cfg) = Ok rs ->
  rs !! k = Some res ->
  resolver_id res = k /\
  (Groups cfg !! k = None ->
   (forall r, Routers cfg !! k = Some r -> rr_Routes r = []) ->
   exists r, Resolvers cfg !! k = Some r /\ res = Upstream k r).
Proof.
  intros [Hout Hin]%build_resolvers_map Hk.
  destruct (node_deps cfg k) as [ds|] eqn:Hnode.
  - destruct (Hin k) as (res' & Hres' & Hid); [by rewrite Hnode; eexists|].
    assert (res' = res) as -> by congruence.
    split; [done|]. intros Hg Hr. exfalso.
    assert (Hs : is_Some (node_deps cfg k)) by (by eexists).
    apply node_deps_is_Some in Hs as [[? ?]|(r & Hr' & Hne)]; [congruence|].
    by apply Hne, Hr.
  - rewrite (Hout k Hnode) in Hk.
    destruct (Resolvers cfg !! k) as [r|]; [|done].
    injection Hk as <-. split; [done|]. intros _ _. by exists r.
Qed.

Lemma resolvers_stored_under_their_id_witness :
  exists rs res,
    result (build_resolvers (H := library_of (fun _ => inr chain_config))
              (H0 := order_forward) chain_config) = Ok rs /\
    rs !! "b" = Some res /\ resolver_id res = "b".
Proof.
  destruct (result (build_resolvers (H := library_of (fun _ => inr chain_config))
                      (H0 := order_forward) chain_config))
    as [rs| | |] eqn:Hres; try (vm_compute in Hres; discriminate).
  destruct (rs !! "b") as [res|] eqn:Hb.
  - exists rs, res. split; [done|]. split; [done|].
    apply (resolvers_stored_under_their_id
             (H := library_of (fun _ => inr chain_config)) (H0 := order_forward)
             chain_config rs "b" res Hres Hb).
  - exfalso. vm_compute in Hres. injection Hres as <-.
    vm_compute in Hb. discriminate Hb.
Defined.

(** ** What the dependency loop instantiates *)

Section instantiation_facts.
Context `{Library} `{MapOrder} (cfg : config).

Lemma instantiated_app t1 t2 :
  instantiated (t1 ++ t2) = (instantiated t1 ++ instantiated t2)%list.
Proof. apply omap_app. Qed.

Lemma instantiated_none t :
  Forall (fun ev => is_early_event ev = true \/ is_listener_event ev = true) t ->
  instantiated t = [].
Proof.
  induction 1 as [|ev t Hev _ IH]; [done|].
  destruct ev; simpl in Hev; try (by destruct Hev); exact IH.
Qed.

(** A visit instantiates its node or does nothing. *)
Lemma visit_instantiated d rs f id ds :
  groups_routers_disjoint cfg ->
  is_Some (node_deps cfg id) ->
  visit cfg (d, rs, f) (id, ds) = mret (d, rs, f) \/
  (instantiated (trace (visit cfg (d, rs, f) (id, ds))) = [id] /\
   forall d' rs' f', result (visit cfg (d, rs, f) (id, ds)) = Ok (d', rs', f') ->
     d' = delete id d).
Proof.
  intros Hdisj Hnode.
  destruct (ready rs ds) eqn:Hready.
  2: { left. unfold visit. by rewrite Hready. }
  right. rewrite trace_visit, result_visit, Hready. split.
  - rewrite trace_instantiate_node. unfold node_deps in Hnode.
    destruct (Groups cfg !! id) as [g|] eqn:Hg.
    + destruct (Hdisj id) as [Hg'|Hr]; [congruence|]. rewrite Hr.
      by destruct (instantiateGroup id g rs).
    + destruct (Routers cfg !! id) as [r|]; [done|]. by destruct Hnode.
  - intros d' rs' f'.
    destruct (result (instantiate_node cfg id rs)); simpl; congruence.
Qed.

(** The ids a sequence of visits instantiates are among those visited, in
    the order of the visits, and they are the ids it removes from the
    dependency map. *)
Lemma visits_instantiated l d rs f :
  groups_routers_disjoint cfg ->
  (forall id ds, (id, ds) ∈ l -> is_Some (node_deps cfg id)) ->
  instantiated (trace (for_each (visit cfg) l (d, rs, f))) `sublist_of` l.*1 /\
  forall d' rs' f', result (for_each (visit cfg) l (d, rs, f)) = Ok (d', rs', f') ->
    (forall k, k ∈ instantiated (trace (for_each (visit cfg) l (d, rs, f))) ->
       d' !! k = None) /\
    (forall k, k ∉ instantiated (trace (for_each (visit cfg) l (d, rs, f))) ->
       d' !! k = d !! k).
Proof.
  intros Hdisj. revert d rs f.
  induction l as [|[id ds] l IH]; intros d rs f Hnodes.
  { split; [constructor|]. simpl. intros d' rs' f' [= <- <- <-]. split; [|done].
    intros k Hk. by apply elem_of_nil in Hk. }
  assert (Hnodes' : forall id' ds', (id', ds') ∈ l -> is_Some (node_deps cfg id')).
  { intros id' ds' Hin. apply (Hnodes id' ds'). by right. }
  assert (Hnode : is_Some (node_deps cfg id)).
  { apply (Hnodes id ds). by left. }
  change (for_each (visit cfg) ((id, ds) :: l) (d, rs, f))
    with (visit cfg (d, rs, f) (id, ds) ≫= for_each (visit cfg) l).
  rewrite trace_bind, result_bind.
  destruct (visit_instantiated d rs f id ds Hdisj Hnode) as [->|[Ht Hd]].
  { cbn [trace result mret traced_ret app].
    destruct (IH d rs f Hnodes') as [Hsub Hok]. split; [|done].
    by apply sublist_cons. }
  rewrite instantiated_app, Ht.
  destruct (result (visit cfg (d, rs, f) (id, ds))) as [[[d1 rs1] f1]| | |] eqn:Hv.
  2-4: split; [apply sublist_skip, sublist_nil_l|done].
  rewrite (Hd d1 rs1 f1 eq_refl).
  destruct (IH (delete id d) rs1 f1 Hnodes') as [Hsub Hok].
  split; [by apply sublist_skip|].
  intros d' rs' f' Hres. destruct (Hok d' rs' f' Hres) as [Hin Hout]. split.
  - intros k Hk. simpl in Hk. apply elem_of_cons in Hk as [->|Hk]; [|by apply Hin].
    destruct (decide (id ∈ instantiated
                (trace (for_each (visit cfg) l (delete id d, rs1, f1)))))
      as [Hid|Hid]; [by apply Hin|].
    rewrite (Hout id Hid). apply lookup_delete_eq.
  - intros k Hk. simpl in Hk. apply not_elem_of_cons in Hk as [Hne Hk].
    rewrite (Hout k Hk). by apply lookup_delete_ne.
Qed.

(** The dependency loop instantiates an id of the dependency map at most
    once, no other id, and every one of them if it succeeds. *)
Lemma resolve_instantiated fuel n d rs :
  consistent cfg d ->
  NoDup (instantiated (trace (resolve fuel cfg n d rs))) /\
  (forall k, k ∈ instantiated (trace (resolve fuel cfg n d rs)) -> is_Some (d !! k)) /\
  (is_Ok (result (resolve fuel cfg n d rs)) ->
   forall k, is_Some (d !! k) -> k ∈ instantiated (trace (resolve fuel cfg n d rs))).
Proof.
  revert n d rs. induction fuel as [|fuel IH]; intros n d rs Hcons.
  - simpl. destruct (0 <? size d)%nat eqn:Hsize; simpl.
    + split; [constructor|]. split; [by intros k Hk%elem_of_nil|]. by intros [? ?].
    + split; [constructor|]. split; [by intros k Hk%elem_of_nil|].
      intros _ k [ds Hk]. apply Nat.ltb_ge in Hsize.
      assert (d = ∅) as -> by (apply map_size_empty_iff; lia).
      by rewrite lookup_empty in Hk.
  - destruct (decide (size d = 0)%nat) as [Hsize|Hsize].
    { rewrite resolve_done by done. simpl.
      split; [constructor|]. split; [by intros k Hk%elem_of_nil|].
      intros _ k [ds Hk]. apply map_size_empty_iff in Hsize. subst d.
      by rewrite lookup_empty in Hk. }
    rewrite resolve_step by lia. rewrite trace_bind, result_bind.
    rewrite trace_pass, result_pass, instantiated_app.
    change (instantiated (EvPass n :: ?t)) with (instantiated t).
    destruct Hcons as [Hdisj Hdeps].
    destruct (visits_instantiated (range (RangeDeps n) d) d rs false Hdisj)
      as [Hsub Hok].
    { intros id ds Hin%elem_of_range. rewrite (Hdeps id ds Hin). by eexists. }
    set (t1 := instantiated
                 (trace (for_each (visit cfg) (range (RangeDeps n) d) (d, rs, false))))
      in *.
    assert (Hnd1 : NoDup t1).
    { eapply sublist_NoDup; [|exact Hsub]. apply NoDup_range. }
    assert (Hin1 : forall k, k ∈ t1 -> is_Some (d !! k)).
    { intros k Hk. eapply elem_of_sublist in Hk; [|exact Hsub].
      apply list_elem_of_fmap in Hk as ([k' ds] & -> & Hk).
      apply elem_of_range in Hk. by eexists. }
    destruct (result (for_each (visit cfg) (range (RangeDeps n) d) (d, rs, false)))
      as [[[d' rs'] found]| | |] eqn:Hpass.
    2-4: simpl; rewrite app_nil_r; split; [done|]; split; [done|]; by intros [? ?].
    destruct (Hok d' rs' found eq_refl) as [Hgone Hkept].
    destruct found.
    2: { simpl. rewrite app_nil_r. split; [done|]. split; [done|]. by intros [? ?]. }
    assert (Hsub' : d' ⊆ d).
    { apply map_subseteq_spec. intros k v Hk.
      destruct (decide (k ∈ t1)) as [Hin|Hout].
      - rewrite (Hgone k Hin) in Hk. discriminate.
      - by rewrite <- (Hkept k Hout). }
    assert (Hcons' : consistent cfg d').
    { split; [done|]. intros id ds Hid. apply Hdeps. by eapply lookup_weaken. }
    destruct (IH (S n) d' rs' Hcons') as (Hnd2 & Hin2 & Hall2).
    split; [|split].
    + apply NoDup_app. split; [done|]. split; [|done].
      intros k Hk1 Hk2%Hin2. rewrite (Hgone k Hk1) in Hk2. by destruct Hk2.
    + intros k [Hk|Hk]%elem_of_app; [by apply Hin1|].
      apply Hin2 in Hk as [ds Hk]. exists ds. by eapply lookup_weaken.
    + intros Hres k Hk. apply elem_of_app.
      destruct (decide (k ∈ t1)) as [Hin|Hout]; [by left|]. right.
      apply Hall2; [done|]. by rewrite (Hkept k Hout).
Qed.

End instantiation_facts.

Section start_instantiation.
Context `{Library} `{MapOrder}.

(** The instantiations of a run of [start] are those of its dependency
    loop. *)
Lemma start_instantiated opt args :
  (instantiated (trace (start opt args)) = [] /\ ~ is_Ok (result (start opt args))) \/
  exists cfg deps rs0,
    loadConfig args = inr cfg /\ build_deps cfg = Ok deps /\
    instantiated (trace (start opt args))
    = instantiated (trace (resolve (size deps) cfg 0 deps rs0)) /\
    (is_Ok (result (start opt args)) ->
     is_Ok (result (resolve (size deps) cfg 0 deps rs0))).
Proof.
  destruct (start_cases opt args)
    as [[_ ->]|[[_ (msg & _ & ->)]|[_ (cfg & Hcfg & Ht & Hr)]]].
  { left. split; [done|]. by intros [? ?]. }
  { left. split; [done|]. by intros [? ?]. }
  rewrite Ht, Hr.
  change (instantiated (EvSetLevel (logLevel opt) :: EvLoadConfig args :: ?t))
    with (instantiated t).
  destruct (assemble_trace cfg) as (tl & -> & Htl & _).
  rewrite instantiated_app.
  rewrite (instantiated_none tl), app_nil_r
    by (eapply Forall_impl; [exact Htl|]; by right).
  assert (Hok : is_Ok (result (assemble cfg)) -> is_Ok (result (build_resolvers cfg))).
  { intros [ls Hls].
    destruct (assemble_cases cfg) as [(_ & _ & Hfl)|(rs & _ & Hrs & _)];
      [|by eexists].
    rewrite Hls in Hfl. simpl in Hfl.
    destruct (result (build_resolvers cfg)); [by eexists|done..]. }
  destruct (build_resolvers_cases cfg)
    as [(Hearly & e & He & _)|(t0 & rs0 & deps & Ht0 & _ & Hdeps & Htr & Hres)].
  - left. split.
    + apply instantiated_none. eapply Forall_impl; [exact Hearly|]. by left.
    + intros Hs%Hok. rewrite He in Hs. by destruct Hs.
  - right. exists cfg, deps, rs0. split; [done|]. split; [done|]. split.
    + rewrite Htr, instantiated_app.
      rewrite (instantiated_none t0); [done|].
      eapply Forall_impl; [exact Ht0|]. by left.
    + intros Hs%Hok. by rewrite <- Hres.
Qed.

End start_instantiation.

(** X19. In a run of [start] no id is instantiated twice, whether the run
    succeeds or fails. What is instantiated is a group of the configuration
    or a router with at least one route, and when the run succeeds every
    one of them has been instantiated. *)
Theorem nodes_instantiated_once `{Library} `{MapOrder} (opt : options)
    (args : list string) :
  NoDup (instantiated (trace (start opt args))) /\
  (forall cfg k, loadConfig args = inr cfg ->
     k ∈ instantiated (trace (start opt args)) ->
     is_Some (Groups cfg !! k) \/
     exists r, Routers cfg !! k = Some r /\ rr_Routes r <> []) /\
  (forall cfg k, loadConfig args = inr cfg ->
     is_Ok (result (start opt args)) ->
     is_Some (Groups cfg !! k) \/
     (exists r, Routers cfg !! k = Some r /\ rr_Routes r <> []) ->
     k ∈ instantiated (trace (start opt args))).
Proof.
  destruct (start_instantiated opt args)
    as [[Ht Hnot]|(cfg & deps & rs0 & Hcfg & Hdeps & Ht & Hok)].
  { rewrite Ht. split; [constructor|]. split; [|done].
    by intros cfg k _ Hk%elem_of_nil. }
  rewrite Ht.
  pose proof (build_deps_consistent _ _ Hdeps) as Hcons.
  apply build_deps_spec in Hdeps as [_ Hnode].
  destruct (resolve_instantiated cfg (size deps) 0 deps rs0 Hcons)
    as (Hnd & Hin & Hall).
  split; [done|]. split.
  - intros cfg' k Hcfg' Hk. assert (cfg' = cfg) as -> by congruence.
    apply node_deps_is_Some. rewrite <- Hnode. by apply Hin.
  - intros cfg' k Hcfg' Hs Hk. assert (cfg' = cfg) as -> by congruence.
    apply Hall; [by apply Hok|]. rewrite Hnode. by apply node_deps_is_Some.
Qed.

Lemma nodes_instantiated_once_witness :
  NoDup (instantiated
           (trace (start (H := library_of (fun _ => inr chain_config))
                     (H0 := order_backward) default_options ["config.toml"]))) /\
  "r" ∈ instantiated
          (trace (start (H := library_of (fun _ => inr chain_config))
                    (H0 := order_backward) default_options ["config.toml"])).
Proof.
  destruct (nodes_instantiated_once (H := library_of (fun _ => inr chain_config))
              (H0 := order_backward) default_options ["config.toml"])
    as (Hnd & _ & Hall).
  split; [exact Hnd|].
  apply (Hall chain_config "r" eq_refl).
  - vm_compute. by eexists.
  - right. exists {| rr_Routes := [route_of EmptyString ["A"] "a"] |}.
    split; [vm_compute; reflexivity|discriminate].
Defined.

(** ** Upstream resolvers that cannot be made *)

Section upstream_failure.
Context `{Library} `{MapOrder}.

Lemma early_no_pass t :
  Forall (fun ev => is_early_event ev = true) t ->
  passes t = 0%nat /\ instantiated t = [] /\ built t = [] /\ started t = [].
Proof.
  induction 1 as [|ev t Hev _ (IHp & IHi & IHb & IHs)]; [done|].
  destruct ev; simpl in Hev; try discriminate Hev; by repeat split.
Qed.

(** The loop over the resolvers stops at the first it cannot make. *)
Lemma add_resolvers_fail l (acc : gmap string Resolver) id r msg :
  NoDup l.*1 ->
  (forall k v, (k, v) ∈ l -> acc !! k = None) ->
  (id, r) ∈ l -> resolverFromConfig_fails id r = Some msg ->
  exists id' r' msg',
    (id', r') ∈ l /\ resolverFromConfig_fails id' r' = Some msg' /\
    result (for_each add_resolver l acc) = Err (ErrResolverInst id' (ErrLib msg')).
Proof.
  revert acc. induction l as [|[id0 r0] l IH]; intros acc Hnd Hfresh Hin Hfail.
  { by apply elem_of_nil in Hin. }
  change (for_each add_resolver ((id0, r0) :: l) acc)
    with (add_resolver acc (id0, r0) ≫= for_each add_resolver l).
  rewrite result_bind.
  assert (Hhead : acc !! id0 = None) by (apply (Hfresh id0 r0); by left).
  assert (Hadd : result (add_resolver acc (id0, r0))
                 = match resolverFromConfig_fails id0 r0 with
                   | Some m => Err (ErrResolverInst id0 (ErrLib m))
                   | None => Ok (<[id0 := Upstream id0 r0]> acc)
                   end).
  { unfold add_resolver, has_key.
    rewrite bool_decide_eq_false_2 by (rewrite Hhead; by intros [? ?]).
    rewrite !result_bind. simpl. unfold resolverFromConfig, call.
    by destruct (resolverFromConfig_fails id0 r0). }
  rewrite Hadd.
  destruct (resolverFromConfig_fails id0 r0) as [m|] eqn:Hhd.
  { exists id0, r0, m. split; [by left|]. by split. }
  apply NoDup_cons in Hnd as [Hnotin Hnd].
  apply elem_of_cons in Hin as [[= -> ->]|Hin]; [congruence|].
  destruct (IH (<[id0 := Upstream id0 r0]> acc) Hnd) as (id' & r' & msg' & Hin' & Hf' & Hres);
    [|done|done|].
  - intros k v Hkv. rewrite lookup_insert_ne; [apply (Hfresh k v); by right|].
    intros <-. apply Hnotin. apply list_elem_of_fmap. by exists (id0, v).
  - exists id', r', msg'. split; [by right|]. by split.
Qed.

Lemma bootstrap_result cfg :
  result (bootstrap cfg) = Ok () \/
  exists e, result (bootstrap cfg) = Err (ErrBootstrap e).
Proof.
  unfold bootstrap.
  destruct (negb (r_Address (BootstrapResolver cfg) =? EmptyString)); [|by left].
  rewrite !result_bind. simpl. unfold resolverFromConfig, call.
  destruct (resolverFromConfig_fails _ _); simpl; [right|left]; by eauto.
Qed.

Lemma build_resolvers_upstream_fails cfg id r msg :
  Resolvers cfg !! id = Some r -> resolverFromConfig_fails id r = Some msg ->
  Forall (fun ev => is_early_event ev = true) (trace (build_resolvers cfg)) /\
  ((exists e, result (build_resolvers cfg) = Err (ErrBootstrap e)) \/
   exists id' r' msg',
     Resolvers cfg !! id' = Some r' /\
     resolverFromConfig_fails id' r' = Some msg' /\
     result (build_resolvers cfg) = Err (ErrResolverInst id' (ErrLib msg'))).
Proof.
  intros Hid Hfail. unfold build_resolvers.
  rewrite trace_bind, result_bind.
  destruct (bootstrap_spec cfg) as [Hboot _].
  destruct (bootstrap_result cfg) as [Hb|[e Hb]]; rewrite Hb.
  2: { rewrite app_nil_r. split; [done|]. left. by exists e. }
  destruct (add_resolvers_fail (range RangeResolvers (Resolvers cfg)) ∅ id r msg)
    as (id' & r' & msg' & Hin & Hf & Hres); [apply NoDup_range|done| |done|].
  { by apply elem_of_range. }
  rewrite trace_bind, result_bind, Hres, app_nil_r.
  destruct (add_resolvers_spec cfg) as [Hadd _].
  split; [by apply Forall_app|]. right.
  exists id', r', msg'. split; [by apply elem_of_range in Hin|]. by split.
Qed.

End upstream_failure.

(** X20. If one of the resolvers of the configuration cannot be made,
    [start] fails before the dependency loop: no pass is made, no group or
    router is instantiated, no listener is built or started. The error is
    that of a resolver that cannot be made, under its id, unless the
    bootstrap resolver failed first. *)
Theorem failing_resolver_stops_start `{Library} `{MapOrder} (opt : options)
    (args : list string) (cfg : config) (id : string) (r : resolver) (msg : string) :
  (logLevel opt <= 6)%Z ->
  loadConfig args = inr cfg ->
  Resolvers cfg !! id = Some r ->
  resolverFromConfig_fails id r = Some msg ->
  ((exists e, result (start opt args) = Err (ErrBootstrap e)) \/
   exists id' r' msg',
     Resolvers cfg !! id' = Some r' /\
     resolverFromConfig_fails id' r' = Some msg' /\
     result (start opt args) = Err (ErrResolverInst id' (ErrLib msg'))) /\
  passes (trace (start opt args)) = 0%nat /\
  instantiated (trace (start opt args)) = [] /\
  built (trace (start opt args)) = [] /\
  started (trace (start opt args)) = [].
Proof.
  intros Hlevel Hcfg Hid Hfail.
  destruct (build_resolvers_upstream_fails cfg id r msg Hid Hfail) as [Hearly Hres].
  destruct (start_cases opt args)
    as [[Hlt _]|[[_ (m & Hm & _)]|[_ (cfg' & Hcfg' & Ht & Hr)]]];
    [lia|congruence|].
  assert (cfg' = cfg) as -> by congruence.
  assert (Hnot : ~ is_Ok (result (build_resolvers cfg))).
  { intros [rs Hrs].
    destruct Hres as [[e He]|(id' & r' & msg' & Hr' & Hf' & He)]; congruence. }
  destruct (assemble_cases cfg) as [(_ & Hta & Hfl)|(rs & _ & Hrs & _)];
    [|exfalso; apply Hnot; by eexists].
  assert (Herr : forall e, result (build_resolvers cfg) = Err e ->
                 result (start opt args) = Err e).
  { intros e He. rewrite Hr. rewrite He in Hfl. simpl in Hfl.
    destruct (result (assemble cfg)); simpl in Hfl; congruence. }
  rewrite Ht, Hta. split.
  - destruct Hres as [[e He]|(id' & r' & msg' & Hr' & Hf' & He)].
    + left. exists e. by apply Herr.
    + right. exists id', r', msg'. split; [done|]. split; [done|]. by apply Herr.
  - destruct (early_no_pass _ Hearly) as (Hp & Hi & Hb & Hs). by repeat split.
Qed.

Lemma failing_resolver_stops_start_witness :
  result (start (H := library_strict (fun _ => inr bad_upstream_config))
            (H0 := order_forward) default_options ["config.toml"])
    = Err (ErrResolverInst "v" (ErrLib "no address")) /\
  passes (trace (start (H := library_strict (fun _ => inr bad_upstream_config))
                   (H0 := order_forward) default_options ["config.toml"])) = 0%nat.
Proof.
  destruct (failing_resolver_stops_start
              (H := library_strict (fun _ => inr bad_upstream_config))
              (H0 := order_forward) default_options ["config.toml"]
              bad_upstream_config "v" (upstream_of EmptyString) "no address")
    as (Hres & Hp & _); [vm_compute; discriminate|reflexivity| |reflexivity|].
  { vm_compute. reflexivity. }
  split; [|exact Hp].
  destruct Hres as [[e He]|(id' & r' & msg' & _ & _ & He)];
    rewrite He; vm_compute in He; congruence.
Defined.

(** ** The errors of each step *)

Section within_facts.
Context `{Library}.

Lemma within_bind {A B} C (x : outcome A) (f : A -> outcome B) :
  within C x -> (forall a, x = Ok a -> within C (f a)) -> within C (x ≫= f).
Proof. destruct x; simpl; auto. Qed.

Lemma within_call {A} C (fails : option string) (v : A) :
  (forall msg, C (ErrLib msg) = true) -> within C (call fails v).
Proof. intros HC. destruct fails; simpl; auto. Qed.

Lemma within_of_sum {A} C (x : string + A) :
  (forall msg, C (ErrLib msg) = true) -> within C (of_sum x).
Proof. intros HC. destruct x; simpl; auto. Qed.

Lemma within_wrap_err {A} C C' (w : error -> error) (x : outcome A) :
  within C x -> (forall e, C e = true -> C' (w e) = true) ->
  within C' (wrap_err w x).
Proof. destruct x; simpl; auto. Qed.

Lemma within_mono {A} C C' (x : outcome A) :
  (forall e, C e = true -> C' e = true) -> within C x -> within C' x.
Proof. destruct x; simpl; auto. Qed.

Lemma within_for_each {A S} C (f : S -> A -> outcome S) (l : list A) (s : S) :
  (forall s x, x ∈ l -> within C (f s x)) -> within C (for_each f l s).
Proof.
  revert s. induction l as [|x l IH]; intros s Hf; simpl; [done|].
  apply within_bind; [apply Hf; by left|].
  intros s' _. apply IH. intros s'' y Hy. apply Hf. by right.
Qed.

Lemma within_index0 {A} C (s : list A) : within C (index0 s).
Proof. by destruct s. Qed.

Lemma within_loader_for l rules : within is_db_error (loader_for l rules).
Proof.
  unfold loader_for. apply within_bind; [by apply within_of_sum|].
  intros loc _. by repeat case_match.
Qed.

Lemma within_newBlocklistDB l rules : within is_db_error (newBlocklistDB l rules).
Proof.
  unfold newBlocklistDB. apply within_bind; [apply within_loader_for|].
  intros loader _. repeat case_match; try done; by apply within_call.
Qed.

Lemma within_newIPBlocklistDB l loc rules :
  within is_db_error (newIPBlocklistDB l loc rules).
Proof.
  unfold newIPBlocklistDB. apply within_bind; [apply within_loader_for|].
  intros loader _. repeat case_match; try done; by apply within_call.
Qed.

Lemma db_error_group_error id e : is_db_error e = true -> is_group_error id e = true.
Proof. by destruct e. Qed.

Lemma within_name_db id format rules sources :
  within (is_group_error id) (name_db id format rules sources).
Proof.
  unfold name_db. case_match.
  { eapply within_mono; [apply db_error_group_error|apply within_newBlocklistDB]. }
  apply within_bind; [|intros; by apply within_call].
  apply within_for_each. intros dbs s _.
  apply within_bind; [|done].
  eapply within_wrap_err; [apply within_newBlocklistDB|].
  intros e He. simpl. by rewrite String.eqb_refl.
Qed.

Lemma within_ip_db id format loc rules sources :
  within (is_group_error id) (ip_db id format loc rules sources).
Proof.
  unfold ip_db. case_match.
  { eapply within_mono; [apply db_error_group_error|apply within_newIPBlocklistDB]. }
  apply within_bind; [|intros; by apply within_call].
  apply within_for_each. intros dbs s _.
  apply within_bind; [|done].
  eapply within_wrap_err; [apply within_newIPBlocklistDB|].
  intros e He. simpl. by rewrite String.eqb_refl.
Qed.

Lemma within_one_resolver kind id gr :
  within (is_group_error id) (one_resolver kind id gr).
Proof. unfold one_resolver. case_match; simpl; [apply String.eqb_refl|done]. Qed.

Lemma within_ecs_func id g : within (is_group_error id) (ecs_func g).
Proof. unfold ecs_func. by repeat case_match. Qed.

Lemma within_edns0_func id g : within (is_group_error id) (edns0_func g).
Proof. unfold edns0_func. by repeat case_match. Qed.

Lemma within_group_resolver id g gr rs :
  within (is_group_error id) (group_resolver id g gr rs).
Proof.
  unfold group_resolver.
  repeat first
    [ done
    | (simpl; apply String.eqb_refl)
    | (apply within_call; done)
    | apply within_index0
    | apply within_one_resolver
    | (eapply within_mono;
       [apply db_error_group_error
       |first [apply within_newBlocklistDB|apply within_newIPBlocklistDB]])
    | apply within_name_db
    | apply within_ip_db
    | apply within_ecs_func
    | apply within_edns0_func
    | apply within_bind; [|intros ? _]
    | case_match ].
Qed.

Lemma within_group_resolvers id rids (rs : gmap string Resolver) :
  within (is_group_error id) (group_resolvers id rids rs).
Proof.
  unfold group_resolvers. apply within_for_each. intros gr rid _.
  destruct (rs !! rid); simpl; [done|apply String.eqb_refl].
Qed.

Lemma within_instantiateGroup id g rs :
  within (is_group_error id) (instantiateGroup id g rs).
Proof.
  unfold instantiateGroup.
  apply within_bind; [apply within_group_resolvers|]. intros gr _.
  apply within_bind; [apply within_group_resolver|done].
Qed.

Lemma within_instantiateRouter id r rs :
  within (is_router_error id) (instantiateRouter id r rs).
Proof.
  unfold instantiateRouter. apply within_bind; [|done].
  apply within_for_each. intros routes rt _.
  destruct (rs !! rt_Resolver rt); simpl; [|apply String.eqb_refl].
  apply within_bind; [|done].
  eapply (within_wrap_err is_lib_error).
  - unfold NewRoute. by apply within_call.
  - intros e He. simpl. by rewrite String.eqb_refl.
Qed.

Lemma within_new_listener rs id l :
  within (is_listener_error id) (new_listener rs id l).
Proof.
  unfold new_listener. case_match; [simpl; apply String.eqb_refl|].
  apply within_bind; [by apply within_call|]. intros allowed _.
  unfold tls_config.
  repeat first
    [ done
    | (simpl; apply String.eqb_refl)
    | (apply within_call; done)
    | (eapply (within_wrap_err is_lib_error);
       [by apply within_call|intros e He; simpl; by rewrite String.eqb_refl])
    | apply within_bind; [|intros ? _]
    | case_match ].
Qed.

End within_facts.

Section start_errors.
Context `{Library} `{MapOrder}.

Lemma bootstrap_error cfg e :
  result (bootstrap cfg) = Err e -> exists msg, e = ErrBootstrap (ErrLib msg).
Proof.
  unfold bootstrap.
  destruct (negb (r_Address (BootstrapResolver cfg) =? EmptyString)); [|done].
  rewrite !result_bind. simpl. unfold resolverFromConfig, call.
  destruct (resolverFromConfig_fails _ _) as [msg|]; simpl; [|done].
  intros [= <-]. by exists msg.
Qed.

(** The loop over the resolvers fails on a resolver that cannot be made, and
    on nothing else: its duplicate check never fires. *)
Lemma add_resolvers_error l (acc : gmap string Resolver) e :
  NoDup l.*1 ->
  (forall k v, (k, v) ∈ l -> acc !! k = None) ->
  result (for_each add_resolver l acc) = Err e ->
  exists id r msg,
    (id, r) ∈ l /\ resolverFromConfig_fails id r = Some msg /\
    e = ErrResolverInst id (ErrLib msg).
Proof.
  revert acc. induction l as [|[id0 r0] l IH]; intros acc Hnd Hfresh; [done|].
  change (for_each add_resolver ((id0, r0) :: l) acc)
    with (add_resolver acc (id0, r0) ≫= for_each add_resolver l).
  rewrite result_bind.
  assert (Hhead : acc !! id0 = None) by (apply (Hfresh id0 r0); by left).
  assert (Hadd : result (add_resolver acc (id0, r0))
                 = match resolverFromConfig_fails id0 r0 with
                   | Some m => Err (ErrResolverInst id0 (ErrLib m))
                   | None => Ok (<[id0 := Upstream id0 r0]> acc)
                   end).
  { unfold add_resolver, has_key.
    rewrite bool_decide_eq_false_2 by (rewrite Hhead; by intros [? ?]).
    rewrite !result_bind. simpl. unfold resolverFromConfig, call.
    by destruct (resolverFromConfig_fails id0 r0). }
  rewrite Hadd.
  destruct (resolverFromConfig_fails id0 r0) as [m|] eqn:Hhd.
  { intros [= <-]. exists id0, r0, m. split; [by left|]. by split. }
  apply NoDup_cons in Hnd as [Hnotin Hnd]. intros Hres.
  destruct (IH (<[id0 := Upstream id0 r0]> acc) Hnd) as (id & r & msg & Hin & Hf & ->);
    [|done|].
  - intros k v Hkv. rewrite lookup_insert_ne; [apply (Hfresh k v); by right|].
    intros <-. apply Hnotin. apply list_elem_of_fmap. by exists (id0, v).
  - exists id, r, msg. split; [by right|]. by split.
Qed.

(** The loop over the groups never fails: its duplicate check never fires. *)
Lemma add_groups_Ok l (acc : gmap string (list string)) :
  NoDup l.*1 ->
  (forall k v, (k, v) ∈ l -> acc !! k = None) ->
  is_Ok (for_each add_group l acc).
Proof.
  revert acc. induction l as [|[id0 g0] l IH]; intros acc Hnd Hfresh.
  { by eexists. }
  simpl. unfold add_group at 1, has_key.
  rewrite bool_decide_eq_false_2.
  2: { rewrite (Hfresh id0 g0) by (by left). by intros [? ?]. }
  simpl. apply NoDup_cons in Hnd as [Hnotin Hnd]. apply IH; [done|].
  intros k v Hkv. rewrite lookup_insert_ne; [apply (Hfresh k v); by right|].
  intros <-. apply Hnotin. apply list_elem_of_fmap. by exists (id0, v).
Qed.

(** The loop over the routers fails on a router whose id is in the map
    already. *)
Lemma add_routers_error l (acc : gmap string (list string)) e :
  NoDup l.*1 ->
  for_each add_router l acc = Err e ->
  exists id r, (id, r) ∈ l /\ is_Some (acc !! id) /\ e = ErrDuplicateName id.
Proof.
  revert acc. induction l as [|[id0 r0] l IH]; intros acc Hnd; [done|].
  simpl. unfold add_router at 1, has_key.
  case_bool_decide as Hkey; simpl.
  { intros [= <-]. exists id0, r0. split; [by left|]. by split. }
  apply NoDup_cons in Hnd as [Hnotin Hnd].
  intros (id & r & Hin & Hsome & ->)%IH; [|done].
  exists id, r. split; [by right|]. split; [|done].
  rewrite add_route_fold in Hsome. destruct (nonempty (rr_Routes r0)); [|done].
  rewrite lookup_insert_ne in Hsome; [done|].
  intros <-. apply Hnotin. apply list_elem_of_fmap. by exists (id0, r).
Qed.

Lemma build_deps_error cfg e :
  build_deps cfg = Err e ->
  exists id, is_Some (Groups cfg !! id) /\ is_Some (Routers cfg !! id) /\
    e = ErrDuplicateName id.
Proof.
  unfold build_deps.
  destruct (add_groups_Ok (range RangeGroups (Groups cfg)) ∅) as [d Hd];
    [apply NoDup_range|done|].
  rewrite Hd. simpl.
  intros (id & r & Hin & [v Hv] & ->)%add_routers_error; [|apply NoDup_range].
  exists id. split; [|split; [|done]].
  - apply add_group_fold in Hd as (_ & _ & Hfrom).
    destruct (Hfrom id v Hv) as [Hempty|(g & Hg & _)]; [done|].
    apply elem_of_range in Hg. by eexists.
  - apply elem_of_range in Hin. by eexists.
Qed.

Lemma resolve_error cfg fuel n d rs e :
  result (resolve fuel cfg n d rs) = Err e ->
  e = ErrUnableToResolve \/
  (exists id, is_Some (Groups cfg !! id) /\ is_group_error id e = true) \/
  (exists id, is_Some (Routers cfg !! id) /\ is_router_error id e = true).
Proof.
  set (P := fun fl : failure => forall e, fl = Failed e ->
         e = ErrUnableToResolve \/
         (exists id, is_Some (Groups cfg !! id) /\ is_group_error id e = true) \/
         (exists id, is_Some (Routers cfg !! id) /\ is_router_error id e = true)).
  intros Hres.
  destruct (resolve_inv cfg (fun _ _ => True) (fun _ => True) P) with
    (fuel := fuel) (n := n) (deps := d) (rs := rs) as (_ & _ & HP); try done.
  - intros e' [= <-]. by left.
  - intros n' d' rs' _.
    apply (pass_inv cfg (fun _ => True) (fun _ => True) P); [done|].
    intros [[d1 rs1] f1] id ds _ _.
    split; [by apply Forall_forall|]. split; [done|].
    intros fl (_ & [(g & Hg & Hfl)|(r & rs2 & Hr & _ & _ & Hfl)])%visit_failure
      e' ->; right.
    + left. exists id. split; [by eexists|].
      pose proof (within_instantiateGroup id g rs1) as Hw.
      destruct (instantiateGroup id g rs1); simpl in Hfl; by simplify_eq.
    + right. exists id. split; [by eexists|].
      pose proof (within_instantiateRouter id r rs2) as Hw.
      destruct (instantiateRouter id r rs2); simpl in Hfl; by simplify_eq.
  - apply (HP (Failed e)); [|done]. by rewrite Hres.
Qed.

Lemma build_listeners_error rs cfg e :
  result (build_listeners rs cfg) = Err e ->
  exists id, is_Some (Listeners cfg !! id) /\ is_listener_error id e = true.
Proof.
  intros Hres. unfold build_listeners in Hres.
  destruct (for_each_traced_inv (add_listener rs) (fun _ => True) (fun _ => True)
              (fun fl => forall e, fl = Failed e ->
                 exists id, is_Some (Listeners cfg !! id) /\
                   is_listener_error id e = true)
              (range RangeListeners (Listeners cfg)) []) as (_ & _ & HP); [done| |].
  - intros ls [id l] Hin%elem_of_range _.
    split; [by apply Forall_forall|]. split; [done|].
    intros fl Hfl%add_listener_spec e' ->.
    exists id. split; [by eexists|].
    pose proof (within_new_listener rs id l) as Hw.
    destruct (new_listener rs id l); simpl in Hfl; by simplify_eq.
  - apply (HP (Failed e)); [|done]. by rewrite Hres.
Qed.

Lemma build_resolvers_error cfg e :
  result (build_resolvers cfg) = Err e -> is_start_error cfg e.
Proof.
  unfold build_resolvers. rewrite result_bind.
  destruct (result (bootstrap cfg)) as [[]| | |] eqn:Hboot; try done.
  2: { intros [= <-]. left. by apply (bootstrap_error cfg). }
  rewrite result_bind.
  destruct (result (for_each add_resolver (range RangeResolvers (Resolvers cfg)) ∅))
    as [rs0| | |] eqn:Hrs; try done.
  2: { intros [= <-]. right. left.
       apply add_resolvers_error in Hrs as (id & r & msg & Hin & _ & ->);
         [|apply NoDup_range|done].
       exists id, msg. split; [|done]. apply elem_of_range in Hin. by eexists. }
  rewrite result_bind.
  change (result (lift (build_deps cfg))) with (build_deps cfg).
  destruct (build_deps cfg) as [deps| | |] eqn:Hdeps; try done.
  2: { intros [= <-]. right. right. left. by apply (build_deps_error cfg). }
  intros Hres. apply resolve_error in Hres as [->|[Hg|Hr]].
  - do 3 right. by left.
  - do 4 right. by left.
  - do 5 right. by left.
Qed.

Lemma start_error opt args e :
  result (start opt args) = Err e ->
  ((6 < logLevel opt)%Z /\ e = ErrInvalidLogLevel (logLevel opt)) \/
  ((logLevel opt <= 6)%Z /\ exists msg, loadConfig args = inl msg /\ e = ErrLib msg) \/
  ((logLevel opt <= 6)%Z /\ exists cfg, loadConfig args = inr cfg /\
     is_start_error cfg e).
Proof.
  destruct (start_cases opt args)
    as [[Hlt ->]|[[Hle (msg & Hmsg & ->)]|[Hle (cfg & Hcfg & _ & ->)]]].
  { intros [= <-]. by left. }
  { intros [= <-]. right. left. split; [done|]. by exists msg. }
  intros Hres. right. right. split; [done|]. exists cfg. split; [done|].
  destruct (assemble_cases cfg) as [(_ & _ & Hfl)|(rs & _ & _ & _ & _ & Hra)].
  - rewrite Hres in Hfl. simpl in Hfl.
    apply build_resolvers_error.
    destruct (result (build_resolvers cfg)); simpl in Hfl; by simplify_eq.
  - rewrite Hra in Hres. do 6 right. by apply (build_listeners_error rs).
Qed.

End start_errors.

(** X21. The errors of instantiateGroup: an error handed back by the
    library, an unsupported scheme or format of a list, an unsupported
    ecs or edns0 operation, or one of the errors about the group itself (a
    missing resolver, the wrong number of resolvers, static rules together
    with sources, an unsupported type, a list that failed to load), which
    then carries the id of this group and no other. *)
Theorem group_errors_classified `{Library} (id : string) (g : group)
    (rs : gmap string Resolver) (e : error) :
  instantiateGroup id g rs = Err e -> is_group_error id e = true.
Proof.
  intros He. pose proof (within_instantiateGroup id g rs) as Hw.
  by rewrite He in Hw.
Qed.

Lemma group_errors_classified_witness :
  instantiateGroup (H := library_urls) "g" (group_of "replace" []) ∅
    = Err (ErrOneResolver "replace" "g") /\
  is_group_error "g" (ErrOneResolver "replace" "g") = true.
Proof.
  assert (Hr : instantiateGroup (H := library_urls) "g" (group_of "replace" []) ∅
               = Err (ErrOneResolver "replace" "g")) by (vm_compute; reflexivity).
  split; [exact Hr|].
  exact (group_errors_classified (H := library_urls) "g" (group_of "replace" []) ∅
           (ErrOneResolver "replace" "g") Hr).
Defined.

(** X22. The errors of instantiateRouter: a route to a resolver that is not
    in the map, or a route the library does not accept; either carries the
    id of this router. *)
Theorem router_errors_classified `{Library} (id : string) (r : router)
    (rs : gmap string Resolver) (e : error) :
  instantiateRouter id r rs = Err e ->
  (exists ref, e = ErrRouterRef id ref) \/ (exists msg, e = ErrRouteParse id (ErrLib msg)).
Proof.
  intros He. pose proof (within_instantiateRouter id r rs) as Hw.
  rewrite He in Hw. simpl in Hw.
  destruct e as [| | | | | | | | | | | | | | | | |id' ref|id' e'| |]; try done.
  - apply String.eqb_eq in Hw as ->. left. by exists ref.
  - apply andb_true_iff in Hw as [->%String.eqb_eq He'].
    destruct e'; try done. right. by eexists.
Qed.

Lemma router_errors_classified_witness :
  instantiateRouter (H := library_urls) "r" sample_router ∅ = Err (ErrRouterRef "r" "a") /\
  ((exists ref, ErrRouterRef "r" "a" = ErrRouterRef "r" ref) \/
   (exists msg, ErrRouterRef "r" "a" = ErrRouteParse "r" (ErrLib msg))).
Proof.
  assert (Hr : instantiateRouter (H := library_urls) "r" sample_router ∅
               = Err (ErrRouterRef "r" "a")) by (vm_compute; reflexivity).
  split; [exact Hr|].
  exact (router_errors_classified (H := library_urls) "r" sample_router ∅
           (ErrRouterRef "r" "a") Hr).
Defined.

(** X23. The errors of the loop over the listeners, for one listener: an
    error handed back by the library (from the list of allowed networks,
    the TLS configuration or the constructor), or an error that carries the
    id of this listener: a missing resolver, a proxy network that does not
    parse, an unsupported protocol. *)
Theorem listener_errors_classified `{Library} (rs : gmap string Resolver)
    (id : string) (l : listener) (e : error) :
  new_listener rs id l = Err e -> is_listener_error id e = true.
Proof.
  intros He. pose proof (within_new_listener rs id l) as Hw.
  by rewrite He in Hw.
Qed.

Lemma listener_errors_classified_witness :
  new_listener (H := library_strict (fun _ => inl "none")) ∅ "l"
    (listener_of "admin" "nowhere") = Err (ErrLib "no certificate") /\
  is_listener_error "l" (ErrLib "no certificate") = true.
Proof.
  assert (Hr : new_listener (H := library_strict (fun _ => inl "none")) ∅ "l"
                 (listener_of "admin" "nowhere") = Err (ErrLib "no certificate"))
    by (vm_compute; reflexivity).
  split; [exact Hr|].
  exact (listener_errors_classified (H := library_strict (fun _ => inl "none")) ∅ "l"
           (listener_of "admin" "nowhere") (ErrLib "no certificate") Hr).
Defined.

(** X24. The errors of [start]: the invalid log level; the error of
    loadConfig, unchanged; and, with the configuration loaded, the failure
    to make the bootstrap resolver or a resolver of the configuration, a
    name shared by a group and a router, unresolvable dependencies, or an
    error of a group, a router or a listener of the configuration. The error
    about a resolver with a duplicate id is never returned, and the duplicate
    name reported is the id of a group that is also the id of a router. *)
Theorem start_errors_classified `{Library} `{MapOrder} (opt : options)
    (args : list string) (e : error) :
  result (start opt args) = Err e ->
  (((6 < logLevel opt)%Z /\ e = ErrInvalidLogLevel (logLevel opt)) \/
   ((logLevel opt <= 6)%Z /\ exists msg, loadConfig args = inl msg /\ e = ErrLib msg) \/
   ((logLevel opt <= 6)%Z /\ exists cfg, loadConfig args = inr cfg /\
      is_start_error cfg e)) /\
  (forall id, e <> ErrDuplicateResolver id) /\
  (forall cfg id, loadConfig args = inr cfg -> e = ErrDuplicateName id ->
     is_Some (Groups cfg !! id) /\ is_Some (Routers cfg !! id)).
Proof.
  intros Hres. pose proof (start_error opt args e Hres) as Hcases.
  split; [exact Hcases|]. split.
  - intros id ->.
    destruct Hcases as [[_ ?]|[[_ (msg & _ & ?)]|[_ (cfg & _ & Hs)]]]; try done.
    destruct Hs as [(? & ?)|[(? & ? & _ & ?)|[(? & _ & _ & ?)|[?|[(? & _ & ?)
                   |[(? & _ & ?)|(? & _ & ?)]]]]]]; done.
  - intros cfg id Hcfg ->.
    destruct Hcases as [[_ ?]|[[_ (msg & _ & ?)]|[_ (cfg' & Hcfg' & Hs)]]]; try done.
    assert (cfg' = cfg) as -> by congruence.
    destruct Hs as [(? & ?)|[(? & ? & _ & ?)|[(id' & Hg & Hr & [= ->])|[?|[(? & _ & ?)
                   |[(? & _ & ?)|(? & _ & ?)]]]]]]; done.
Qed.

Lemma start_errors_classified_witness :
  result (start (H := library_of (fun _ => inr name_clash_config))
            (H0 := order_forward) default_options ["config.toml"])
    = Err (ErrDuplicateName "x") /\
  is_Some (Groups name_clash_config !! "x") /\
  is_Some (Routers name_clash_config !! "x").
Proof.
  assert (Hr : result (start (H := library_of (fun _ => inr name_clash_config))
                         (H0 := order_forward) default_options ["config.toml"])
               = Err (ErrDuplicateName "x")) by (vm_compute; reflexivity).
  split; [exact Hr|].
  exact (proj2 (proj2 (start_errors_classified
                         (H := library_of (fun _ => inr name_clash_config))
                         (H0 := order_forward) default_options ["config.toml"]
                         (ErrDuplicateName "x") Hr))
           name_clash_config "x" eq_refl eq_refl).
Defined.

(** ** Durations *)

Lemma seconds_exact n :
  (-9223372036 <= n <= 9223372036)%Z -> seconds n = (n * 1000000000)%Z.
Proof.
  intros Hn. unfold seconds, wrap_int64, time_Second.
  change (2 ^ 63)%Z with 9223372036854775808%Z.
  change (2 ^ 64)%Z with 18446744073709551616%Z.
  rewrite (Z.mod_small (n + _)) by lia.
  replace (n + 9223372036854775808 - 9223372036854775808)%Z with n by lia.
  rewrite Z.mod_small by lia. lia.
Qed.

Lemma seconds_overflow n :
  (9223372037 <= n <= 18446744073)%Z ->
  seconds n = (n * 1000000000 - 18446744073709551616)%Z.
Proof.
  intros Hn. unfold seconds, wrap_int64, time_Second.
  change (2 ^ 63)%Z with 9223372036854775808%Z.
  change (2 ^ 64)%Z with 18446744073709551616%Z.
  rewrite (Z.mod_small (n + _)) by lia.
  replace (n + 9223372036854775808 - 9223372036854775808)%Z with n by lia.
  replace (n * 1000000000 + 9223372036854775808)%Z
    with ((n * 1000000000 - 9223372036854775808) + 1 * 18446744073709551616)%Z by lia.
  rewrite Z.mod_add by lia. rewrite Z.mod_small by lia. lia.
Qed.

(** X25. A cache group over one resolver of the map is built over that
    resolver, with the capacity and the negative TTL of its configuration
    and a GC period of as many seconds as configured, in nanoseconds. That
    holds up to 9223372036 seconds; from there up to 18446744073 seconds the
    multiplication wraps around and the period is negative. *)
Theorem cache_group_options `{Library} (id rid : string) (g : group)
    (rs : gmap string Resolver) (child : Resolver) :
  g_Type g = "cache" -> g_Resolvers g = [rid] -> rs !! rid = Some child ->
  exists period,
    instantiateGroup id g rs
    = Ok (<[id := Cache id child {| c_GCPeriod := period;
                                    c_Capacity := g_CacheSize g;
                                    c_NegativeTTL := g_CacheNegativeTTL g |}]> rs) /\
    ((-9223372036 <= g_GCPeriod g <= 9223372036)%Z ->
     period = (g_GCPeriod g * 1000000000)%Z) /\
    ((9223372037 <= g_GCPeriod g <= 18446744073)%Z ->
     period = (g_GCPeriod g * 1000000000 - 18446744073709551616)%Z /\
     (period < 0)%Z).
Proof.
  intros Hty Hrids Hchild. exists (seconds (g_GCPeriod g)). split; [|split].
  - unfold instantiateGroup, group_resolvers. rewrite Hrids. simpl.
    rewrite Hchild. simpl. unfold group_resolver. rewrite Hty. reflexivity.
  - apply seconds_exact.
  - intros Hn. rewrite (seconds_overflow _ Hn). split; [done|]. lia.
Qed.

Lemma cache_group_options_witness :
  exists period,
    instantiateGroup (H := library_urls) "c"
      (with_cache 60 1000 (group_of "cache" ["u"])) (upstreams ["u"])
    = Ok (<["c" := Cache "c" (Upstream "u" (upstream_of "1.1.1.1:53"))
                     {| c_GCPeriod := period; c_Capacity := 1000;
                        c_NegativeTTL := 0 |}]> (upstreams ["u"])) /\
    period = 60000000000%Z.
Proof.
  destruct (cache_group_options (H := library_urls) "c" "u"
              (with_cache 60 1000 (group_of "cache" ["u"])) (upstreams ["u"])
              (Upstream "u" (upstream_of "1.1.1.1:53")))
    as (period & Hinst & Hexact & _); [reflexivity..|].
  exists period. split; [exact Hinst|].
  rewrite Hexact; [reflexivity|]. simpl. lia.
Defined.

(** X26. For the thirteen types under which the number of resolvers is
    checked, it is checked before anything else about the group: with its
    resolvers in the map, a group over none or over several is rejected with
    the error that names the type and the group, whatever its rules,
    sources, formats and operations are. The retired name
    response-blocklist-cidr is reported as response-blocklist-ip. *)
Theorem arity_checked_first `{Library} (id : string) (g : group)
    (rs : gmap string Resolver) :
  g_Type g ∈ arity_checked ->
  Forall (fun d => is_Some (rs !! d)) (g_Resolvers g) ->
  length (g_Resolvers g) <> 1%nat ->
  instantiateGroup id g rs = Err (ErrOneResolver (arity_kind (g_Type g)) id).
Proof.
  intros Hty (gr & Hgr)%(group_resolvers_present id) Hlen.
  unfold instantiateGroup. rewrite Hgr. simpl.
  apply group_resolvers_length in Hgr.
  assert (Hone : forall kind, one_resolver kind id gr = Err (ErrOneResolver kind id)).
  { intros kind. unfold one_resolver.
    destruct (Nat.eqb_spec (length gr) 1); [congruence|done]. }
  unfold arity_checked in Hty. unfold group_resolver.
  repeat (apply elem_of_cons in Hty as [->|Hty];
          [simpl; rewrite Hone; reflexivity|]).
  by apply elem_of_nil in Hty.
Qed.

Lemma arity_checked_first_witness :
  instantiateGroup (H := library_urls) "g"
    (with_ops "bogus" EmptyString (group_of "ecs-modifier" ["a"; "b"]))
    (upstreams ["a"; "b"])
  = Err (ErrOneResolver "ecs-modifier" "g") /\
  instantiateGroup (H := library_urls) "g" (group_of "response-blocklist-cidr" [])
    (upstreams ["a"; "b"])
  = Err (ErrOneResolver "response-blocklist-ip" "g").
Proof.
  split.
  - apply (arity_checked_first (H := library_urls) "g"
             (with_ops "bogus" EmptyString (group_of "ecs-modifier" ["a"; "b"]))
             (upstreams ["a"; "b"])).
    + unfold arity_checked. simpl. do 4 right. left.
    + repeat constructor; by eexists.
    + simpl. lia.
  - apply (arity_checked_first (H := library_urls) "g"
             (group_of "response-blocklist-cidr" []) (upstreams ["a"; "b"])).
    + unfold arity_checked. simpl. do 7 right. left.
    + constructor.
    + simpl. lia.
Defined.

(** X27. A drop group and a static-responder group make no use of their
    resolvers: with every listed resolver in the map, however many there
    are, the drop resolver is stored under the id of the group, and so is
    the static responder with the answer, NS, extra and rcode of the
    configuration unless the library rejects them. *)
Theorem resolverless_groups_ignore_resolvers `{Library} (id : string) (g : group)
    (rs : gmap string Resolver) :
  Forall (fun d => is_Some (rs !! d)) (g_Resolvers g) ->
  (g_Type g = "drop" -> instantiateGroup id g rs = Ok (<[id := DropResolver id]> rs)) /\
  (g_Type g = "static-responder" ->
   forall opt,
     opt = {| sr_Answer := g_Answer g; sr_NS := g_NS g;
              sr_Extra := g_Extra g; sr_RCode := g_RCode g |} ->
     instantiateGroup id g rs
     = match NewStaticResolver_fails id opt with
       | Some msg => Err (ErrLib msg)
       | None => Ok (<[id := StaticResolver id opt]> rs)
       end).
Proof.
  intros (gr & Hgr)%(group_resolvers_present id).
  split.
  - intros Hty. unfold instantiateGroup, group_resolver. by rewrite Hgr, Hty.
  - intros Hty opt ->. unfold instantiateGroup, group_resolver.
    rewrite Hgr, Hty. simpl. by destruct (NewStaticResolver_fails _ _).
Qed.

Lemma resolverless_groups_ignore_resolvers_witness :
  instantiateGroup (H := library_urls) "d" (group_of "drop" ["a"; "b"; "a"])
    (upstreams ["a"; "b"])
  = Ok (<["d" := DropResolver "d"]> (upstreams ["a"; "b"])).
Proof.
  apply (resolverless_groups_ignore_resolvers (H := library_urls) "d"
           (group_of "drop" ["a"; "b"; "a"]) (upstreams ["a"; "b"])).
  - repeat constructor; by eexists.
  - reflexivity.
Defined.
